(** * PokemonMinigame: the game engine of [src/App.tsx]

    A shallow embedding of the quiz engine: the sampler, the four round
    generators, the answer validators, the React state cells and the event
    handlers and timers that drive them, followed by the properties the
    specification states about them.

    Conventions.
    - A JS [number] that holds an integer (ids, stats, scores) is a [Z].
    - A JS [string] is a [string], read as its UTF-8 bytes: an ASCII
      character is one byte below 128 and every other character is made of
      bytes from 128 up.  [Array<T>] is [list T]; [Set<string>] is
      [gset string]; a nullable cell is an [option].
    - [Math.random()] is the only source of nondeterminism.  It is modelled
      by a stream of draws threaded through the [Rand] state monad, so every
      statement quantified over the stream holds for every outcome of the
      random choices.
    - A React handler reads the cells of the render it was created in and
      queues updates; the next render sees the updates applied in order.  A
      handler is therefore a function from the rendered state to the next
      state. *)

From stdpp Require Import base numbers option list strings gmap.
From Stdlib Require Import Ascii ZArith Lia.

Open Scope Z_scope.

(* ================================================================== *)
(** * Data model *)
(* ================================================================== *)

(** [type StatKey] and [STAT_KEYS = Object.keys(STAT_LABELS)], in the
    insertion order of [STAT_LABELS]. *)
Inductive StatKey :=
  | Hp | Attack | Defense | SpecialAttack | SpecialDefense | Speed.

Definition STAT_KEYS : list StatKey :=
  [Hp; Attack; Defense; SpecialAttack; SpecialDefense; Speed].

(** [type Pokemon]; [stats : Record<StatKey, number>] is a total map over
    the six keys. *)
Record Pokemon := {
  id : Z;
  name : string;
  artwork : string;
  stats : StatKey → Z;
  moves : list string;
  flavorText : option string;
}.

(** [PopularMoves.moves]. *)
Record PopularMoves := {
  smogon : list string;
  vgc : list string;
  combined : list string;
}.

Inductive Mode := Menu | Stat | MoveCompare | MoveTrueFalse | DexGuess.

Inductive Status := Loading | Ready | Revealing | Result | GameOver.

(** [GuessSide | TrueFalse]: the four string literals a guess can hold. *)
Inductive Selection := SelLeft | SelRight | SelTrue | SelFalse.

Inductive MovePool := Popular | Smogon | Vgc | All.

(** The keys of [HIGH_SCORE_KEYS]; [useHighScore] is instantiated once per
    key. *)
Inductive HighScoreKey := KStat | KCompare | KTrueFalse | KDex.

#[global] Instance StatKey_eq_dec : EqDecision StatKey.
Proof. solve_decision. Defined.
#[global] Instance Mode_eq_dec : EqDecision Mode.
Proof. solve_decision. Defined.
#[global] Instance Status_eq_dec : EqDecision Status.
Proof. solve_decision. Defined.
#[global] Instance Selection_eq_dec : EqDecision Selection.
Proof. solve_decision. Defined.
#[global] Instance MovePool_eq_dec : EqDecision MovePool.
Proof. solve_decision. Defined.
#[global] Instance HighScoreKey_eq_dec : EqDecision HighScoreKey.
Proof. solve_decision. Defined.

(** JS truthiness of the values the code tests with [!x] or [x && ...]. *)
Definition truthyNumber (n : option Z) : bool :=
  match n with Some v => negb (v =? 0) | None => false end.

Definition truthyString (s : string) : bool :=
  match s with EmptyString => false | String _ _ => true end.

Definition truthyOptString (s : option string) : bool :=
  match s with Some v => truthyString v | None => false end.

(** [arr.includes(x)] on an array of strings. *)
Definition includes (arr : list string) (x : string) : bool :=
  bool_decide (x ∈ arr).

(* ================================================================== *)
(** * The random source *)
(* ================================================================== *)

(** [Math.random()] returns a double in [[0, 1)].  A draw is a numerator
    [u] with [0 <= u < RANDOM_DEN], standing for [u / RANDOM_DEN]. *)
Definition RANDOM_DEN : Z := 2 ^ 53.

Record Rng := { draws : nat → Z; cursor : nat }.

Definition Rand (A : Type) : Type := Rng → A * Rng.

#[global] Instance Rand_ret : MRet Rand := λ A a g, (a, g).
#[global] Instance Rand_bind : MBind Rand :=
  λ A B f m g, let '(a, g') := m g in f a g'.

(** One call of [Math.random()]. *)
Definition Math_random : Rand Z :=
  λ g, (draws g (cursor g) `mod` RANDOM_DEN,
        {| draws := draws g; cursor := S (cursor g) |}).

(** [Math.floor(Math.random() * n)]. *)
Definition randomIndex (n : nat) : Rand nat :=
  u ← Math_random; mret (Z.to_nat ((u * Z.of_nat n) `div` RANDOM_DEN)).

(** [Math.random() > 0.5]. *)
Definition randomAboveHalf : Rand bool :=
  u ← Math_random; mret (RANDOM_DEN <? 2 * u).

(** [arr[Math.floor(Math.random() * arr.length)]]; [None] is
    [undefined]. *)
Definition randomElement {A} (arr : list A) : Rand (option A) :=
  i ← randomIndex (length arr); mret (arr !! i).

(* ================================================================== *)
(** * Sampler *)
(* ================================================================== *)

Section Sampler.
Variable pokemon : list Pokemon.

(** The [while] loop of [pickRandomPokemon]; [fuel] is [40 - guard].
    [first] stands in for an out-of-range read, which cannot happen
    (see [randomElement_in_range]). *)
Fixpoint pickRandomPokemon_loop (first : Pokemon) (excludeId : option Z)
    (fuel : nat) (candidate : Pokemon) : Rand Pokemon :=
  match fuel with
  | O => mret candidate
  | S fuel' =>
      if truthyNumber excludeId && bool_decide (Some (id candidate) = excludeId)
      then c ← randomElement pokemon;
           pickRandomPokemon_loop first excludeId fuel' (default first c)
      else mret candidate
  end.

Definition pickRandomPokemon (excludeId : option Z) : Rand (option Pokemon) :=
  match pokemon with
  | [] => mret None
  | first :: _ =>
      c ← randomElement pokemon;
      r ← pickRandomPokemon_loop first excludeId 40 (default first c);
      mret (Some r)
  end.

(** The [while] loop of [pickDexPokemon]; [candidate?.flavorText] reads
    through an [undefined] candidate. *)
Fixpoint pickDexPokemon_loop (fuel : nat) (candidate : option Pokemon)
    : Rand (option Pokemon) :=
  match fuel with
  | O => mret candidate
  | S fuel' =>
      if negb (truthyOptString (candidate ≫= flavorText))
      then c ← randomElement pokemon; pickDexPokemon_loop fuel' c
      else mret candidate
  end.

Definition pickDexPokemon : Rand (option Pokemon) :=
  match pokemon with
  | [] => mret None
  | _ :: _ => c ← randomElement pokemon; pickDexPokemon_loop 40 c
  end.
End Sampler.

(** [pickMoveFrom(mon, moveSet)]; the empty string is the "no move"
    result. *)
Definition pickMoveFrom (mon : Pokemon) (moveSet : option (gset string))
    : Rand string :=
  let pool := match moveSet with
              | Some set => filter (λ move, move ∈ set) (moves mon)
              | None => moves mon
              end in
  match pool with
  | [] => mret ""%string
  | _ :: _ => m ← randomElement pool; mret (default ""%string m)
  end.

(* ================================================================== *)
(** * Round generators: the random part *)
(* ================================================================== *)

(** [STAT_KEYS[Math.floor(Math.random() * STAT_KEYS.length)]]; the index is
    in range, so the fallback key is never used. *)
Definition randomStatKey : Rand StatKey :=
  k ← randomElement STAT_KEYS; mret (default Hp k).

(** What [startStatRound] hands to [setLeft], [setRight] and [setStat],
    together with the final value of its local [guard]. *)
Record StatRound := {
  sr_left : Pokemon;
  sr_right : option Pokemon;
  sr_stat : StatKey;
  sr_guard : nat;
}.

(** What [startMoveCompareRound] hands to [setLeft], [setRight] and
    [setMoveName], with the final value of the inner [guard]. *)
Record MoveCompareRound := {
  mc_left : Pokemon;
  mc_right : Pokemon;
  mc_move : string;
  mc_guard : nat;
}.

(** What [startTrueFalseRound] hands to [setFocus] and [setMoveName], with
    its local [isTrue]. *)
Record TrueFalseRound := {
  tf_focus : Pokemon;
  tf_move : string;
  tf_isTrue : bool;
}.

Section Generators.
Variable pokemon : list Pokemon.
Variable activeMoveSet : option (gset string).

(** The redraw loop of [startStatRound]:
    [while (guard < 40 && nextRight &&
            nextLeft.stats[nextStat] === nextRight.stats[nextStat])].
    [fuel] is [40 - guard]. *)
Fixpoint startStatRound_loop (nextLeft : Pokemon) (fuel guard : nat)
    (nextRight : option Pokemon) (nextStat : StatKey)
    : Rand (option Pokemon * StatKey * nat) :=
  match fuel, nextRight with
  | S fuel', Some r =>
      if bool_decide (stats nextLeft nextStat = stats r nextStat)
      then nextRight' ← pickRandomPokemon pokemon (Some (id nextLeft));
           nextStat' ← randomStatKey;
           startStatRound_loop nextLeft fuel' (S guard) nextRight' nextStat'
      else mret (nextRight, nextStat, guard)
  | _, _ => mret (nextRight, nextStat, guard)
  end.

(** [startStatRound(keep)] up to its setters; [None] is an early
    [return]. *)
Definition drawStatRound (keep : option Pokemon) : Rand (option StatRound) :=
  if bool_decide (length pokemon < 2)%nat then mret None
  else
    nextLeft ← match keep with
               | Some k => mret (Some k)
               | None => pickRandomPokemon pokemon None
               end;
    match nextLeft with
    | None => mret None
    | Some nextLeft =>
        nextRight ← pickRandomPokemon pokemon (Some (id nextLeft));
        match nextRight with
        | None => mret None
        | Some _ =>
            nextStat ← randomStatKey;
            '(nextRight', nextStat', guard) ←
              startStatRound_loop nextLeft 40 0 nextRight nextStat;
            mret (Some {| sr_left := nextLeft; sr_right := nextRight';
                          sr_stat := nextStat'; sr_guard := guard |})
        end
    end.

(** The inner loop of [startMoveCompareRound]:
    [while (rightPick && guard < 40 && rightPick.moves.includes(movePick))]. *)
Fixpoint startMoveCompareRound_inner (leftPick : Pokemon) (movePick : string)
    (fuel guard : nat) (rightPick : option Pokemon)
    : Rand (option Pokemon * nat) :=
  match fuel, rightPick with
  | S fuel', Some r =>
      if includes (moves r) movePick
      then rightPick' ← pickRandomPokemon pokemon (Some (id leftPick));
           startMoveCompareRound_inner leftPick movePick fuel' (S guard) rightPick'
      else mret (rightPick, guard)
  | _, _ => mret (rightPick, guard)
  end.

(** The outer loop [while (attempts < 80)]; [fuel] is [80 - attempts]. *)
Fixpoint startMoveCompareRound_loop (fuel : nat)
    : Rand (option MoveCompareRound) :=
  match fuel with
  | O => mret None
  | S fuel' =>
      leftPick ← pickRandomPokemon pokemon None;
      match leftPick with
      | None => mret None
      | Some leftPick =>
          movePick ← pickMoveFrom leftPick activeMoveSet;
          if negb (truthyString movePick)
          then startMoveCompareRound_loop fuel'
          else
            rightPick ← pickRandomPokemon pokemon (Some (id leftPick));
            '(rightPick', guard) ←
              startMoveCompareRound_inner leftPick movePick 40 0 rightPick;
            match rightPick' with
            | None => startMoveCompareRound_loop fuel'
            | Some r =>
                mret (Some {| mc_left := leftPick; mc_right := r;
                              mc_move := movePick; mc_guard := guard |})
            end
      end
  end.

Definition drawMoveCompareRound : Rand (option MoveCompareRound) :=
  if bool_decide (length pokemon < 2)%nat then mret None
  else startMoveCompareRound_loop 80.

(** The loop [while (attempts < 80)] of [startTrueFalseRound]. *)
Fixpoint startTrueFalseRound_loop (fuel : nat)
    : Rand (option TrueFalseRound) :=
  match fuel with
  | O => mret None
  | S fuel' =>
      pick ← pickRandomPokemon pokemon None;
      match pick with
      | None => mret None
      | Some pick =>
          movePick ← pickMoveFrom pick activeMoveSet;
          if negb (truthyString movePick)
          then startTrueFalseRound_loop fuel'
          else
            isTrue ← randomAboveHalf;
            if (isTrue : bool)
            then mret (M := Rand)
                   (Some {| tf_focus := pick; tf_move := movePick;
                            tf_isTrue := true |})
            else
              other ← pickRandomPokemon pokemon (Some (id pick));
              match other with
              | None => startTrueFalseRound_loop fuel'
              | Some other =>
                  falseMove ← pickMoveFrom other activeMoveSet;
                  if negb (truthyString falseMove)
                     || includes (moves pick) falseMove
                  then startTrueFalseRound_loop fuel'
                  else mret (Some {| tf_focus := pick; tf_move := falseMove;
                                     tf_isTrue := false |})
              end
      end
  end.

Definition drawTrueFalseRound : Rand (option TrueFalseRound) :=
  if bool_decide (length pokemon = 0)%nat then mret None
  else startTrueFalseRound_loop 80.
End Generators.

(* ================================================================== *)
(** * The state cells of [App] *)
(* ================================================================== *)

(** One field per [useState] cell that the engine reads or writes.
    [highScore k] is the cell of the [useHighScore] instance for key [k] and
    [localStorage k] the numeric value stored under that key, if any.
    [dexTimer] tells whether the timeout held by [dexTimerRef] is pending.
    The cells that only feed the display ([revealValues], [feedback],
    [error]) and the audio context are left out. *)
Record State := {
  mode : Mode;
  pokemon : list Pokemon;
  popularMoves : option PopularMoves;
  status : Status;
  left : option Pokemon;
  right : option Pokemon;
  focus : option Pokemon;
  stat : StatKey;
  moveName : string;
  guess : option Selection;
  score : Z;
  compareScore : Z;
  trueFalseScore : Z;
  dexScore : Z;
  dexGuess : string;
  dexAnswer : string;
  lastKeptId : option Z;
  movePool : MovePool;
  highScore : HighScoreKey → Z;
  localStorage : HighScoreKey → option Z;
  dexTimer : bool;
}.

(** The setters returned by [useState]. *)
Definition setMode (v : Mode) (s : State) : State :=
  Build_State v (pokemon s) (popularMoves s) (status s) (left s) (right s)
    (focus s) (stat s) (moveName s) (guess s) (score s) (compareScore s)
    (trueFalseScore s) (dexScore s) (dexGuess s) (dexAnswer s)
    (lastKeptId s) (movePool s) (highScore s) (localStorage s) (dexTimer s).
Definition setPokemon (v : list Pokemon) (s : State) : State :=
  Build_State (mode s) v (popularMoves s) (status s) (left s) (right s)
    (focus s) (stat s) (moveName s) (guess s) (score s) (compareScore s)
    (trueFalseScore s) (dexScore s) (dexGuess s) (dexAnswer s)
    (lastKeptId s) (movePool s) (highScore s) (localStorage s) (dexTimer s).
Definition setPopularMoves (v : option PopularMoves) (s : State) : State :=
  Build_State (mode s) (pokemon s) v (status s) (left s) (right s) (focus s)
    (stat s) (moveName s) (guess s) (score s) (compareScore s)
    (trueFalseScore s) (dexScore s) (dexGuess s) (dexAnswer s)
    (lastKeptId s) (movePool s) (highScore s) (localStorage s) (dexTimer s).
Definition setStatus (v : Status) (s : State) : State :=
  Build_State (mode s) (pokemon s) (popularMoves s) v (left s) (right s)
    (focus s) (stat s) (moveName s) (guess s) (score s) (compareScore s)
    (trueFalseScore s) (dexScore s) (dexGuess s) (dexAnswer s)
    (lastKeptId s) (movePool s) (highScore s) (localStorage s) (dexTimer s).
Definition setLeft (v : option Pokemon) (s : State) : State :=
  Build_State (mode s) (pokemon s) (popularMoves s) (status s) v (right s)
    (focus s) (stat s) (moveName s) (guess s) (score s) (compareScore s)
    (trueFalseScore s) (dexScore s) (dexGuess s) (dexAnswer s)
    (lastKeptId s) (movePool s) (highScore s) (localStorage s) (dexTimer s).
Definition setRight (v : option Pokemon) (s : State) : State :=
  Build_State (mode s) (pokemon s) (popularMoves s) (status s) (left s) v
    (focus s) (stat s) (moveName s) (guess s) (score s) (compareScore s)
    (trueFalseScore s) (dexScore s) (dexGuess s) (dexAnswer s)
    (lastKeptId s) (movePool s) (highScore s) (localStorage s) (dexTimer s).
Definition setFocus (v : option Pokemon) (s : State) : State :=
  Build_State (mode s) (pokemon s) (popularMoves s) (status s) (left s)
    (right s) v (stat s) (moveName s) (guess s) (score s) (compareScore s)
    (trueFalseScore s) (dexScore s) (dexGuess s) (dexAnswer s)
    (lastKeptId s) (movePool s) (highScore s) (localStorage s) (dexTimer s).
Definition setStat (v : StatKey) (s : State) : State :=
  Build_State (mode s) (pokemon s) (popularMoves s) (status s) (left s)
    (right s) (focus s) v (moveName s) (guess s) (score s) (compareScore s)
    (trueFalseScore s) (dexScore s) (dexGuess s) (dexAnswer s)
    (lastKeptId s) (movePool s) (highScore s) (localStorage s) (dexTimer s).
Definition setMoveName (v : string) (s : State) : State :=
  Build_State (mode s) (pokemon s) (popularMoves s) (status s) (left s)
    (right s) (focus s) (stat s) v (guess s) (score s) (compareScore s)
    (trueFalseScore s) (dexScore s) (dexGuess s) (dexAnswer s)
    (lastKeptId s) (movePool s) (highScore s) (localStorage s) (dexTimer s).
Definition setGuess (v : option Selection) (s : State) : State :=
  Build_State (mode s) (pokemon s) (popularMoves s) (status s) (left s)
    (right s) (focus s) (stat s) (moveName s) v (score s) (compareScore s)
    (trueFalseScore s) (dexScore s) (dexGuess s) (dexAnswer s)
    (lastKeptId s) (movePool s) (highScore s) (localStorage s) (dexTimer s).
Definition setScore (v : Z) (s : State) : State :=
  Build_State (mode s) (pokemon s) (popularMoves s) (status s) (left s)
    (right s) (focus s) (stat s) (moveName s) (guess s) v (compareScore s)
    (trueFalseScore s) (dexScore s) (dexGuess s) (dexAnswer s)
    (lastKeptId s) (movePool s) (highScore s) (localStorage s) (dexTimer s).
Definition setCompareScore (v : Z) (s : State) : State :=
  Build_State (mode s) (pokemon s) (popularMoves s) (status s) (left s)
    (right s) (focus s) (stat s) (moveName s) (guess s) (score s) v
    (trueFalseScore s) (dexScore s) (dexGuess s) (dexAnswer s)
    (lastKeptId s) (movePool s) (highScore s) (localStorage s) (dexTimer s).
Definition setTrueFalseScore (v : Z) (s : State) : State :=
  Build_State (mode s) (pokemon s) (popularMoves s) (status s) (left s)
    (right s) (focus s) (stat s) (moveName s) (guess s) (score s)
    (compareScore s) v (dexScore s) (dexGuess s) (dexAnswer s)
    (lastKeptId s) (movePool s) (highScore s) (localStorage s) (dexTimer s).
Definition setDexScore (v : Z) (s : State) : State :=
  Build_State (mode s) (pokemon s) (popularMoves s) (status s) (left s)
    (right s) (focus s) (stat s) (moveName s) (guess s) (score s)
    (compareScore s) (trueFalseScore s) v (dexGuess s) (dexAnswer s)
    (lastKeptId s) (movePool s) (highScore s) (localStorage s) (dexTimer s).
Definition setDexGuess (v : string) (s : State) : State :=
  Build_State (mode s) (pokemon s) (popularMoves s) (status s) (left s)
    (right s) (focus s) (stat s) (moveName s) (guess s) (score s)
    (compareScore s) (trueFalseScore s) (dexScore s) v (dexAnswer s)
    (lastKeptId s) (movePool s) (highScore s) (localStorage s) (dexTimer s).
Definition setDexAnswer (v : string) (s : State) : State :=
  Build_State (mode s) (pokemon s) (popularMoves s) (status s) (left s)
    (right s) (focus s) (stat s) (moveName s) (guess s) (score s)
    (compareScore s) (trueFalseScore s) (dexScore s) (dexGuess s) v
    (lastKeptId s) (movePool s) (highScore s) (localStorage s) (dexTimer s).
Definition setLastKeptId (v : option Z) (s : State) : State :=
  Build_State (mode s) (pokemon s) (popularMoves s) (status s) (left s)
    (right s) (focus s) (stat s) (moveName s) (guess s) (score s)
    (compareScore s) (trueFalseScore s) (dexScore s) (dexGuess s)
    (dexAnswer s) v (movePool s) (highScore s) (localStorage s) (dexTimer s).
Definition setMovePool (v : MovePool) (s : State) : State :=
  Build_State (mode s) (pokemon s) (popularMoves s) (status s) (left s)
    (right s) (focus s) (stat s) (moveName s) (guess s) (score s)
    (compareScore s) (trueFalseScore s) (dexScore s) (dexGuess s)
    (dexAnswer s) (lastKeptId s) v (highScore s) (localStorage s)
    (dexTimer s).
Definition setHighScore (v : HighScoreKey → Z) (s : State) : State :=
  Build_State (mode s) (pokemon s) (popularMoves s) (status s) (left s)
    (right s) (focus s) (stat s) (moveName s) (guess s) (score s)
    (compareScore s) (trueFalseScore s) (dexScore s) (dexGuess s)
    (dexAnswer s) (lastKeptId s) (movePool s) v (localStorage s)
    (dexTimer s).
Definition setLocalStorage (v : HighScoreKey → option Z) (s : State) : State :=
  Build_State (mode s) (pokemon s) (popularMoves s) (status s) (left s)
    (right s) (focus s) (stat s) (moveName s) (guess s) (score s)
    (compareScore s) (trueFalseScore s) (dexScore s) (dexGuess s)
    (dexAnswer s) (lastKeptId s) (movePool s) (highScore s) v (dexTimer s).
Definition setDexTimer (v : bool) (s : State) : State :=
  Build_State (mode s) (pokemon s) (popularMoves s) (status s) (left s)
    (right s) (focus s) (stat s) (moveName s) (guess s) (score s)
    (compareScore s) (trueFalseScore s) (dexScore s) (dexGuess s)
    (dexAnswer s) (lastKeptId s) (movePool s) (highScore s) (localStorage s)
    v.

(** [setHighScore((prev) => f(prev))] of the [useHighScore] instance for
    [key]; the other instances keep their value. *)
Definition updateHighScore (key : HighScoreKey) (f : Z → Z) (s : State)
    : State :=
  setHighScore
    (λ k, if bool_decide (k = key) then f (highScore s k) else highScore s k) s.

(** [localStorage.setItem(key, String(v))]. *)
Definition setItem (key : HighScoreKey) (v : Z) (s : State) : State :=
  setLocalStorage
    (λ k, if bool_decide (k = key) then Some v else localStorage s k) s.

(* ================================================================== *)
(** * Answer normalisation *)
(* ================================================================== *)

(** The character class [[a-z0-9]]. *)
Definition isLowerAlnum (c : ascii) : bool :=
  let n := nat_of_ascii c in
  ((97 <=? n) && (n <=? 122) || (48 <=? n) && (n <=? 57))%nat.

(** [.replace(/[^a-z0-9]/g, '')]. *)
Fixpoint replaceNonAlnum (s : string) : string :=
  match s with
  | EmptyString => EmptyString
  | String c rest =>
      if isLowerAlnum c then String c (replaceNonAlnum rest)
      else replaceNonAlnum rest
  end.

(** [.trim()], on ASCII white space.  In [normalizeAnswer] it only ever
    receives the output of [replaceNonAlnum], where neither these nor the
    Unicode spaces (which are not ASCII) can occur. *)
Definition isWhiteSpace (c : ascii) : bool :=
  let n := nat_of_ascii c in
  ((9 <=? n) && (n <=? 13) || (n =? 32))%nat.

Fixpoint trimStart (s : string) : string :=
  match s with
  | EmptyString => EmptyString
  | String c rest => if isWhiteSpace c then trimStart rest else s
  end.

Fixpoint trimEnd (s : string) : string :=
  match s with
  | EmptyString => EmptyString
  | String c rest =>
      match trimEnd rest with
      | EmptyString => if isWhiteSpace c then EmptyString
                       else String c EmptyString
      | rest' => String c rest'
      end
  end.

Definition trim (s : string) : string := trimEnd (trimStart s).

(** What [toLowerCase] does to a string of ASCII characters: [A-Z] go to
    [a-z], everything else stays. *)
Definition asciiLowerChar (c : ascii) : ascii :=
  let n := nat_of_ascii c in
  if ((65 <=? n) && (n <=? 90))%nat then ascii_of_nat (n + 32) else c.

Fixpoint asciiLower (s : string) : string :=
  match s with
  | EmptyString => EmptyString
  | String c rest => String (asciiLowerChar c) (asciiLower rest)
  end.

Fixpoint isAsciiString (s : string) : bool :=
  match s with
  | EmptyString => true
  | String c rest => (nat_of_ascii c <? 128)%nat && isAsciiString rest
  end.

(** The contract of [String.prototype.toLowerCase] that the engine relies
    on.  Outside ASCII the Unicode case tables decide (a character can even
    lower-case to ASCII letters), so the function itself is a parameter of
    the engine. *)
Definition LowersAscii (toLowerCase : string → string) : Prop :=
  ∀ s, isAsciiString s = true → toLowerCase s = asciiLower s.

(* ================================================================== *)
(** * The engine *)
(* ================================================================== *)

(** What can happen on the single control thread: the two loaders
    resolving, an effect running after a render, a timer or the last
    animation frame firing, and the actions the page forwards from the
    player. *)
Inductive Event :=
  | EvLoad (data : option (list Pokemon))
  | EvLoadPopularMoves (data : option PopularMoves)
  | EvMovePoolEffect
  | EvReadyEffect
  | EvRevealDone
  | EvResultTimeout
  | EvDexTimeout
  | EvPersist (key : HighScoreKey)
  | EvGuess (selection : Selection)
  | EvDexInput (value : string)
  | EvDexSubmit
  | EvRestart
  | EvModeChange (nextMode : Mode)
  | EvSelectMovePool (pool : MovePool).

Section Engine.
Variable toLowerCase : string → string.

(** [normalizeAnswer(value)]. *)
Definition normalizeAnswer (value : string) : string :=
  trim (replaceNonAlnum (toLowerCase value)).

(** ** Derived values ([useMemo]) *)

Definition currentLeftValue (s : State) : Z :=
  match left s with Some l => stats l (stat s) | None => 0 end.

Definition currentRightValue (s : State) : Z :=
  match right s with Some r => stats r (stat s) | None => 0 end.

Definition activeMovePool (s : State) : option (list string) :=
  match popularMoves s with
  | None => None
  | Some pm =>
      match movePool s with
      | All => None
      | Smogon => Some (smogon pm)
      | Vgc => Some (vgc pm)
      | Popular => Some (combined pm)
      end
  end.

Definition activeMoveSet (s : State) : option (gset string) :=
  list_to_set <$> activeMovePool s.

(** ** Answer validators *)

Definition isStatCorrect (s : State) : bool :=
  match guess s, left s, right s with
  | Some g, Some _, Some _ =>
      if bool_decide (currentLeftValue s = currentRightValue s) then false
      else if bool_decide (g = SelLeft)
           then bool_decide (currentLeftValue s > currentRightValue s)
           else bool_decide (currentRightValue s > currentLeftValue s)
  | _, _, _ => false
  end.

Definition isMoveCompareCorrect (s : State) : bool :=
  match guess s, left s, right s with
  | Some g, Some l, Some r =>
      if negb (truthyString (moveName s)) then false
      else
        let leftHas := includes (moves l) (moveName s) in
        let rightHas := includes (moves r) (moveName s) in
        if bool_decide (leftHas = rightHas) then false
        else if bool_decide (g = SelLeft) then leftHas else rightHas
  | _, _, _ => false
  end.

Definition isTrueFalseCorrect (s : State) : bool :=
  match guess s, focus s with
  | Some g, Some f =>
      if negb (truthyString (moveName s)) then false
      else
        let hasMove := includes (moves f) (moveName s) in
        bool_decide (g = if hasMove then SelTrue else SelFalse)
  | _, _ => false
  end.

Definition isDexCorrect (s : State) : bool :=
  if negb (truthyString (dexAnswer s)) then false
  else bool_decide (normalizeAnswer (dexGuess s) = normalizeAnswer (dexAnswer s)).

Definition dexSuggestions (s : State) : list string :=
  let query := normalizeAnswer (dexGuess s) in
  if negb (truthyString query) then []
  else
    name <$>
      take 8 (filter (λ mon, String.prefix query (normalizeAnswer (name mon)) = true)
                     (pokemon s)).

(** ** Round generators: the setters *)

(** In a handler the generators read [pokemon] and [activeMoveSet] from
    the rendered state; no update queued next to them writes the cells
    these come from, so reading them from the pending state [s] gives the
    same values. *)

Definition startStatRound (keep : option Pokemon) (s : State) : Rand State :=
  r ← drawStatRound (pokemon s) keep;
  mret (match r with
        | None => s
        | Some r =>
            setGuess None
              (setStat (sr_stat r)
                 (setRight (sr_right r) (setLeft (Some (sr_left r)) s)))
        end).

Definition startMoveCompareRound (s : State) : Rand State :=
  r ← drawMoveCompareRound (pokemon s) (activeMoveSet s);
  mret (match r with
        | None => s
        | Some r =>
            setGuess None
              (setMoveName (mc_move r)
                 (setRight (Some (mc_right r))
                    (setLeft (Some (mc_left r)) s)))
        end).

Definition startTrueFalseRound (s : State) : Rand State :=
  r ← drawTrueFalseRound (pokemon s) (activeMoveSet s);
  mret (match r with
        | None => s
        | Some r =>
            setGuess None
              (setMoveName (tf_move r) (setFocus (Some (tf_focus r)) s))
        end).

Definition startDexRound (s : State) : Rand State :=
  pick ← pickDexPokemon (pokemon s);
  mret (match pick with
        | None => s
        | Some p =>
            setStatus Ready
              (setGuess None
                 (setDexGuess ""
                    (setDexAnswer (name p) (setFocus (Some p) s))))
        end).

(** ** Effects and timers *)

(** The dataset loader: [data] is what [fetchWithFallback] resolved to. *)
Definition load (data : option (list Pokemon)) (s : State) : State :=
  match data with
  | Some d => setStatus Ready (setPokemon d s)
  | None => setStatus Loading s
  end.

Definition loadPopularMoves (data : option PopularMoves) (s : State)
    : State :=
  match data with
  | Some d => setPopularMoves (Some d) s
  | None => s
  end.

(** [useEffect(() => { if (!popularMoves) setMovePool('all') })]. *)
Definition movePoolEffect (s : State) : State :=
  match popularMoves s with
  | None => setMovePool All s
  | Some _ => s
  end.

(** The effect that asks the active generator for a round. *)
Definition readyEffect (s : State) : Rand State :=
  if bool_decide (status s ≠ Ready) || bool_decide (length (pokemon s) = 0)%nat
  then mret s
  else
    match mode s, left s, right s, focus s with
    | Stat, None, None, _ => startStatRound None s
    | MoveCompare, None, None, _ => startMoveCompareRound s
    | MoveTrueFalse, _, _, None => startTrueFalseRound s
    | DexGuess, _, _, None => startDexRound s
    | _, _, _, _ => mret s
    end.

(** The last frame of the reveal animation ([progress >= 1]). *)
Definition revealDone (s : State) : State :=
  match status s, left s, right s, mode s with
  | Revealing, Some _, Some _, Stat => setStatus Result s
  | _, _, _, _ => s
  end.

(** The locals [winner], [loser] and [carry] of the stat branch of the
    result timeout, for a guess [g] on the pair [l], [r]. *)
Definition winner (g : Selection) (l r : Pokemon) : Pokemon :=
  if bool_decide (g = SelLeft) then l else r.

Definition loser (g : Selection) (l r : Pokemon) : Pokemon :=
  if bool_decide (g = SelLeft) then r else l.

Definition carry (lastKept : option Z) (g : Selection) (l r : Pokemon)
    : Pokemon :=
  if bool_decide (Some (id (winner g l r)) = lastKept)
  then loser g l r else winner g l r.

(** The callback of the 1200 ms timeout armed while [status] is
    ['result']. *)
Definition resultTimeout (s : State) : Rand State :=
  match mode s with
  | Stat =>
      match left s, right s, guess s, isStatCorrect s with
      | Some l, Some r, Some g, true =>
          let carry := carry (lastKeptId s) g l r in
          s' ← startStatRound (Some carry)
                 (setLastKeptId (Some (id carry))
                    (setScore (score s + 1) s));
          mret (setStatus Ready s')
      | _, _, _, _ =>
          if negb (isStatCorrect s)
          then mret (setStatus GameOver
                       (updateHighScore KStat (λ prev, Z.max prev (score s)) s))
          else mret s
      end
  | MoveCompare =>
      match left s, right s, guess s, isMoveCompareCorrect s with
      | Some _, Some _, Some _, true =>
          s' ← startMoveCompareRound (setCompareScore (compareScore s + 1) s);
          mret (setStatus Ready s')
      | _, _, _, _ =>
          if negb (isMoveCompareCorrect s)
          then mret (setStatus GameOver
                       (updateHighScore KCompare
                          (λ prev, Z.max prev (compareScore s)) s))
          else mret s
      end
  | MoveTrueFalse =>
      match focus s, guess s, isTrueFalseCorrect s with
      | Some _, Some _, true =>
          s' ← startTrueFalseRound
                 (setTrueFalseScore (trueFalseScore s + 1) s);
          mret (setStatus Ready s')
      | _, _, _ =>
          if negb (isTrueFalseCorrect s)
          then mret (setStatus GameOver
                       (updateHighScore KTrueFalse
                          (λ prev, Z.max prev (trueFalseScore s)) s))
          else mret s
      end
  | _ => mret s
  end.

(** The callback of the timeout held by [dexTimerRef]. *)
Definition dexTimeout (s : State) : Rand State :=
  s' ← startDexRound (setDexTimer false s);
  mret (setStatus Ready s').

(** The write effect of [useHighScore(key)]. *)
Definition persist (key : HighScoreKey) (s : State) : State :=
  if bool_decide (highScore s key > 0) then setItem key (highScore s key) s
  else s.

(** ** Handlers *)

Definition handleGuess (selection : Selection) (s : State) : State :=
  if bool_decide (status s ≠ Ready) then s
  else
    setStatus (if bool_decide (mode s = Stat) then Revealing else Result)
      (setGuess (Some selection) s).

Definition handleDexSubmit (s : State) : State :=
  if negb (truthyString (dexAnswer s)) || bool_decide (status s ≠ Ready)
  then s
  else if isDexCorrect s
  then setDexTimer true (setStatus Result (setDexScore (dexScore s + 1) s))
  else setStatus GameOver
         (updateHighScore KDex (λ prev, Z.max prev (dexScore s)) s).

Definition handleRestart (s : State) : Rand State :=
  let s1 := setDexTimer false (setGuess None (setStatus Ready s)) in
  match mode s with
  | Stat => startStatRound None (setLastKeptId None (setScore 0 s1))
  | MoveCompare => startMoveCompareRound (setCompareScore 0 s1)
  | MoveTrueFalse => startTrueFalseRound (setTrueFalseScore 0 s1)
  | DexGuess => startDexRound (setDexScore 0 s1)
  | Menu => mret s1
  end.

Definition handleModeChange (nextMode : Mode) (s : State) : State :=
  setDexTimer false
    (setDexAnswer ""
       (setDexGuess ""
          (setMoveName ""
             (setFocus None
                (setRight None
                   (setLeft None
                      (setGuess None
                         (setStatus Ready (setMode nextMode s))))))))).

(** ** The transition function *)

(** One event of the single control thread.  Timers and frames fire only
    while the effect that armed them is live, and the inputs the page
    disables are not delivered. *)
Definition step (e : Event) (s : State) : Rand State :=
  match e with
  | EvLoad data => mret (load data s)
  | EvLoadPopularMoves data => mret (loadPopularMoves data s)
  | EvMovePoolEffect => mret (movePoolEffect s)
  | EvReadyEffect => readyEffect s
  | EvRevealDone => mret (revealDone s)
  | EvResultTimeout =>
      if bool_decide (status s = Result) then resultTimeout s else mret s
  | EvDexTimeout => if dexTimer s then dexTimeout s else mret s
  | EvPersist key => mret (persist key s)
  | EvGuess selection => mret (handleGuess selection s)
  | EvDexInput value =>
      if bool_decide (status s = Ready) then mret (setDexGuess value s)
      else mret s
  | EvDexSubmit => mret (handleDexSubmit s)
  | EvRestart => handleRestart s
  | EvModeChange nextMode => mret (handleModeChange nextMode s)
  | EvSelectMovePool pool =>
      match pool, popularMoves s with
      | All, _ | _, Some _ => mret (setMovePool pool s)
      | _, None => mret s
      end
  end.

Fixpoint run (es : list Event) (s : State) : Rand State :=
  match es with
  | [] => mret s
  | e :: es' => s' ← step e s; run es' s'
  end.
End Engine.

(** The state after mounting [App] over a store [storage]: every cell at
    its [useState] initial value, every high score as read back by the load
    effect of [useHighScore]. *)
Definition initialState (storage : HighScoreKey → option Z) : State := {|
  mode := Menu; pokemon := []; popularMoves := None; status := Loading;
  left := None; right := None; focus := None; stat := Attack;
  moveName := ""; guess := None;
  score := 0; compareScore := 0; trueFalseScore := 0; dexScore := 0;
  dexGuess := ""; dexAnswer := ""; lastKeptId := None; movePool := Popular;
  highScore := λ k, default 0 (storage k);
  localStorage := storage; dexTimer := false;
|}.

(** The write effects of the four [useHighScore] instances, which run
    after every render. *)
Definition persistAll (s : State) : State :=
  persist KDex (persist KTrueFalse (persist KCompare (persist KStat s))).

(** The life of the page across visits: an event of the running page,
    followed by the write effects, or a reload, which mounts [App] again
    over the store the last visit left. *)
Inductive PageEvent :=
  | InPage (e : Event)
  | Reload.

Definition pageStep (toLowerCase : string → string) (pe : PageEvent)
    (s : State) : Rand State :=
  match pe with
  | InPage e => s' ← step toLowerCase e s; mret (persistAll s')
  | Reload => mret (initialState (localStorage s))
  end.

Fixpoint pageRun (toLowerCase : string → string) (pes : list PageEvent)
    (s : State) : Rand State :=
  match pes with
  | [] => mret s
  | pe :: pes' => s' ← pageStep toLowerCase pe s; pageRun toLowerCase pes' s'
  end.

(* ================================================================== *)
(** * Concrete data for the examples *)
(* ================================================================== *)

Definition flatStats (v : Z) : StatKey → Z := λ _, v.

Definition mkPokemon (i : Z) (n : string) (st : StatKey → Z)
    (ms : list string) : Pokemon :=
  {| id := i; name := n; artwork := ""; stats := st; moves := ms;
     flavorText := None |}.

(** Two creatures that agree on every stat and know the same single move. *)
Definition plusle : Pokemon := mkPokemon 311 "plusle" (flatStats 60) ["spark"].
Definition minun : Pokemon := mkPokemon 312 "minun" (flatStats 60) ["spark"].

(** Spec section 8, property 7: [A (attack=50)], [B (attack=80)]. *)
Definition monA : Pokemon := mkPokemon 1 "a" (flatStats 50) ["tackle"].
Definition monB : Pokemon := mkPokemon 2 "b" (flatStats 80) ["growl"].

Definition pikachu : Pokemon :=
  mkPokemon 25 "pikachu" (flatStats 55) ["thunderbolt"].

(** A random source whose first draw is [0] and every later draw [1/2]. *)
Definition rngZeroThenHalf : Rng :=
  {| draws := λ n, match n with O => 0 | S _ => 2 ^ 52 end; cursor := 0 |}.

(** A random source that always draws [0]. *)
Definition rngZero : Rng := {| draws := λ _, 0; cursor := 0 |}.

Definition noStorage : HighScoreKey → option Z := λ _, None.

(** A session over [catalog] entered in mode [m], with no round yet: the
    page is mounted over an empty store, the dataset arrives, no curated
    move list does, and the mode is chosen from the menu. *)
Definition sessionOver (catalog : list Pokemon) (m : Mode) : State :=
  (run asciiLower [EvLoad (Some catalog); EvMovePoolEffect; EvModeChange m]
     (initialState noStorage) rngZero).1.

Definition roundAB : MoveCompareRound :=
  {| mc_left := monA; mc_right := monB; mc_move := "tackle"; mc_guard := 0 |}.

Definition falseRoundA : TrueFalseRound :=
  {| tf_focus := monA; tf_move := "growl"; tf_isTrue := false |}.

(** A random source whose every draw is just below 1. *)
Definition rngAlwaysHigh : Rng :=
  {| draws := λ _, 2 ^ 53 - 1; cursor := 0 |}.

(** A random source that replays [script] and then draws [0]. *)
Definition rngScript (script : list Z) : Rng :=
  {| draws := λ n, default 0 (script !! n); cursor := 0 |}.

Definition low : Z := 0.
Definition high : Z := 2 ^ 52.

(** Draws for stat rounds over the catalog [[monA; monB]]: three draws for a
    round started from scratch (left, right, stat), two for a round started
    with a carried creature (right, stat). *)
Definition duelScript : Rng :=
  rngScript [low; high; high; low; low; high; low; low; high; low].

Definition duelStart : State := sessionOver [monA; monB] Stat.

(** Round 1 shown, [right] (monB) picked and confirmed, round 2 shown,
    [left] (monB again) picked, the reveal finished: the session waits in
    ['result'] on round 2. *)
Definition duelRound2Result : State :=
  (run asciiLower
     [EvReadyEffect; EvGuess SelRight; EvRevealDone; EvResultTimeout;
      EvGuess SelLeft; EvRevealDone]
     duelStart duelScript).1.

Definition duelRound2Rng : Rng :=
  (run asciiLower
     [EvReadyEffect; EvGuess SelRight; EvRevealDone; EvResultTimeout;
      EvGuess SelLeft; EvRevealDone]
     duelStart duelScript).2.

(** Spec section 8, property 7: on [A (attack=50)], [B (attack=80)] and the
    stat [attack], picking [A] has been confirmed with a score of 3. *)
Definition duelWrongPick : State :=
  setScore 3
    (setStatus Result
       (setGuess (Some SelLeft)
          (setStat Attack
             (setRight (Some monB) (setLeft (Some monA) duelStart))))).

(** A lost stat session: round 1 [(monA, monB)] is won by picking [right],
    round 2 [(monB, monA)] is lost by picking [right]. *)
Definition duelLost : State * Rng :=
  run asciiLower
    [EvReadyEffect; EvGuess SelRight; EvRevealDone; EvResultTimeout;
     EvGuess SelRight; EvRevealDone; EvResultTimeout]
    duelStart duelScript.

(** The player goes back to the menu and enters the stat mode again. *)
Definition duelEnteredAgain : State * Rng :=
  run asciiLower [EvModeChange Menu; EvModeChange Stat; EvReadyEffect]
    duelLost.1 duelLost.2.

(** The new round [(monB, monA)] is won by picking [left], the next one
    [(monA, monB)] is lost by picking [left]. *)
Definition duelWonAgain : State * Rng :=
  run asciiLower [EvGuess SelLeft; EvRevealDone; EvResultTimeout]
    duelEnteredAgain.1 duelEnteredAgain.2.

Definition duelLostAgain : State * Rng :=
  run asciiLower [EvGuess SelLeft; EvRevealDone; EvResultTimeout]
    duelWonAgain.1 duelWonAgain.2.

(* ================================================================== *)
(** * Vocabulary of the statements *)
(* ================================================================== *)

(** The cells no round generator writes. *)
Definition SameBooks (s s' : State) : Prop :=
  mode s' = mode s ∧ pokemon s' = pokemon s
  ∧ score s' = score s ∧ compareScore s' = compareScore s
  ∧ trueFalseScore s' = trueFalseScore s ∧ dexScore s' = dexScore s
  ∧ lastKeptId s' = lastKeptId s
  ∧ highScore s' = highScore s ∧ localStorage s' = localStorage s.

(** The pool [pickMoveFrom] draws from: the creature's moves, filtered by
    the move set when there is one. *)
Definition filteredMoves (mon : Pokemon) (moveSet : option (gset string))
    : list string :=
  match moveSet with
  | Some set => filter (λ move, move ∈ set) (moves mon)
  | None => moves mon
  end.

(** What a generator leaves on display, from the state [s] it was called
    in to the state [s'] after it: the round it drew, with the pick
    cleared, or, when it gave up and returned without a round, the question
    and the pick that were there. *)
Definition StatRoundShown (drawn : option StatRound) (s s' : State) : Prop :=
  match drawn with
  | Some round =>
      left s' = Some (sr_left round) ∧ right s' = sr_right round
      ∧ stat s' = sr_stat round ∧ guess s' = None
  | None =>
      left s' = left s ∧ right s' = right s ∧ stat s' = stat s
      ∧ guess s' = guess s
  end.

Definition MoveCompareRoundShown (drawn : option MoveCompareRound)
    (s s' : State) : Prop :=
  match drawn with
  | Some round =>
      left s' = Some (mc_left round) ∧ right s' = Some (mc_right round)
      ∧ moveName s' = mc_move round ∧ guess s' = None
  | None =>
      left s' = left s ∧ right s' = right s ∧ moveName s' = moveName s
      ∧ guess s' = guess s
  end.

Definition TrueFalseRoundShown (drawn : option TrueFalseRound)
    (s s' : State) : Prop :=
  match drawn with
  | Some round =>
      focus s' = Some (tf_focus round) ∧ moveName s' = tf_move round
      ∧ guess s' = None
  | None =>
      focus s' = focus s ∧ moveName s' = moveName s ∧ guess s' = guess s
  end.

(** What the 1200 ms callback leaves behind, from the state [s] it fires in
    to the state [s'] after it, per mode and verdict.  On a correct guess
    the mode's score goes up by one, the mode's generator runs and the
    status is ['ready'].  The round the generator drew is then on display
    with the pick cleared: in stat mode, over two creatures or more, always
    a duel whose left is the creature carried over.  When the generator
    gave up, as the two move generators do whenever no creature has a move
    of the active pool, the answered question and its pick stay.  On a
    wrong guess the mode's high score becomes the larger of itself and the
    score, the status is ['gameover'], and the write effect of
    [useHighScore] stores the value when it is positive. *)
Definition ResultPauseOutcome (s : State) (g : Rng) (s' : State) : Prop :=
  match mode s with
  | Stat =>
      if isStatCorrect s
      then score s' = score s + 1 ∧ status s' = Ready
           ∧ highScore s' = highScore s
           ∧ ∃ l r selection keep,
               left s = Some l ∧ right s = Some r
               ∧ guess s = Some selection
               ∧ keep = carry (lastKeptId s) selection l r
               ∧ s' = setStatus Ready
                        (startStatRound (Some keep)
                           (setLastKeptId (Some (id keep))
                              (setScore (score s + 1) s)) g).1
               ∧ StatRoundShown (drawStatRound (pokemon s) (Some keep) g).1
                   s s'
               ∧ ((2 ≤ length (pokemon s))%nat →
                  left s' = Some keep ∧ is_Some (right s') ∧ guess s' = None)
      else highScore s' KStat = Z.max (highScore s KStat) (score s)
           ∧ status s' = GameOver ∧ score s' = score s
           ∧ localStorage (persist KStat s') KStat
             = if bool_decide (Z.max (highScore s KStat) (score s) > 0)
               then Some (Z.max (highScore s KStat) (score s))
               else localStorage s KStat
  | MoveCompare =>
      if isMoveCompareCorrect s
      then compareScore s' = compareScore s + 1 ∧ status s' = Ready
           ∧ highScore s' = highScore s
           ∧ s' = setStatus Ready
                    (startMoveCompareRound
                       (setCompareScore (compareScore s + 1) s) g).1
           ∧ MoveCompareRoundShown
               (drawMoveCompareRound (pokemon s) (activeMoveSet s) g).1 s s'
           ∧ ((∀ p, p ∈ pokemon s → filteredMoves p (activeMoveSet s) = []) →
              left s' = left s ∧ right s' = right s
              ∧ moveName s' = moveName s ∧ guess s' = guess s)
      else highScore s' KCompare
             = Z.max (highScore s KCompare) (compareScore s)
           ∧ status s' = GameOver ∧ compareScore s' = compareScore s
           ∧ localStorage (persist KCompare s') KCompare
             = if bool_decide
                    (Z.max (highScore s KCompare) (compareScore s) > 0)
               then Some (Z.max (highScore s KCompare) (compareScore s))
               else localStorage s KCompare
  | MoveTrueFalse =>
      if isTrueFalseCorrect s
      then trueFalseScore s' = trueFalseScore s + 1 ∧ status s' = Ready
           ∧ highScore s' = highScore s
           ∧ s' = setStatus Ready
                    (startTrueFalseRound
                       (setTrueFalseScore (trueFalseScore s + 1) s) g).1
           ∧ TrueFalseRoundShown
               (drawTrueFalseRound (pokemon s) (activeMoveSet s) g).1 s s'
           ∧ ((∀ p, p ∈ pokemon s → filteredMoves p (activeMoveSet s) = []) →
              focus s' = focus s ∧ moveName s' = moveName s
              ∧ guess s' = guess s)
      else highScore s' KTrueFalse
             = Z.max (highScore s KTrueFalse) (trueFalseScore s)
           ∧ status s' = GameOver ∧ trueFalseScore s' = trueFalseScore s
           ∧ localStorage (persist KTrueFalse s') KTrueFalse
             = if bool_decide
                    (Z.max (highScore s KTrueFalse) (trueFalseScore s) > 0)
               then Some (Z.max (highScore s KTrueFalse) (trueFalseScore s))
               else localStorage s KTrueFalse
  | Menu | DexGuess => s' = s
  end.

(** The four running scores are not negative. *)
Definition ScoresNonNeg (s : State) : Prop :=
  0 ≤ score s ∧ 0 ≤ compareScore s ∧ 0 ≤ trueFalseScore s ∧ 0 ≤ dexScore s.

(** The store holds each high score: the value read back by a mount is the
    value of the cell, and none is negative. *)
Definition StoreAgrees (s : State) : Prop :=
  ∀ k, 0 ≤ highScore s k ∧ default 0 (localStorage s k) = highScore s k.

(** A store that holds no negative number. *)
Definition NonNegStore (storage : HighScoreKey → option Z) : Prop :=
  ∀ k v, storage k = Some v → 0 ≤ v.

(** What one event may do to the books: no high score goes down, the
    scores stay non-negative, and the store changes only by a write of the
    current, positive high score. *)
Definition LedgerStep (s s' : State) : Prop :=
  (∀ k, highScore s k ≤ highScore s' k)
  ∧ (ScoresNonNeg s → ScoresNonNeg s')
  ∧ (∀ k, localStorage s' k = localStorage s k
          ∨ (0 < highScore s' k ∧ localStorage s' k = Some (highScore s' k))).

(** Strings over [[a-z0-9]]. *)
Fixpoint allLowerAlnum (s : string) : bool :=
  match s with
  | EmptyString => true
  | String c rest => isLowerAlnum c && allLowerAlnum rest
  end.

(** The running score of the mode the session is in. *)
Definition activeScore (s : State) : Z :=
  match mode s with
  | Menu => 0
  | Stat => score s
  | MoveCompare => compareScore s
  | MoveTrueFalse => trueFalseScore s
  | DexGuess => dexScore s
  end.

(* ================================================================== *)
(** * Display names *)
(* ================================================================== *)

(** [name.split('-')]: the parts between the hyphens, one more than there
    are hyphens. *)
Fixpoint split (s : string) : list string :=
  match s with
  | EmptyString => [EmptyString]
  | String c rest =>
      if bool_decide (c = "-"%char) then EmptyString :: split rest
      else match split rest with
           | part :: parts => String c part :: parts
           | [] => [String c EmptyString]
           end
  end.

(** [parts.join(' ')]. *)
Fixpoint join (parts : list string) : string :=
  match parts with
  | [] => EmptyString
  | [part] => part
  | part :: rest => part +:+ " " +:+ join rest
  end.

(** How many bytes the first character of a string takes, from its first
    byte. *)
Definition firstCharWidth (c : ascii) : nat :=
  let n := nat_of_ascii c in
  if (n <? 192)%nat then 1%nat
  else if (n <? 224)%nat then 2%nat
  else if (n <? 240)%nat then 3%nat
  else 4%nat.

(** What [toUpperCase] does to a string of ASCII characters. *)
Definition asciiUpperChar (c : ascii) : ascii :=
  let n := nat_of_ascii c in
  if ((97 <=? n) && (n <=? 122))%nat then ascii_of_nat (n - 32) else c.

Fixpoint asciiUpper (s : string) : string :=
  match s with
  | EmptyString => EmptyString
  | String c rest => String (asciiUpperChar c) (asciiUpper rest)
  end.

(** The contract of [String.prototype.toUpperCase] that the display names
    rely on; as for [toLowerCase], the function is a parameter. *)
Definition UppersAscii (toUpperCase : string → string) : Prop :=
  ∀ s, isAsciiString s = true → toUpperCase s = asciiUpper s.

Section Display.
Variable toUpperCase : string → string.

(** [part.charAt(0).toUpperCase() + part.slice(1)].  [charAt(0)] is the
    first UTF-16 code unit: the whole first character when it takes up to
    three bytes, and half of a surrogate pair, which [toUpperCase] leaves
    alone, when it takes four. *)
Definition capitalize (part : string) : string :=
  match part with
  | EmptyString => EmptyString
  | String c _ =>
      let w := firstCharWidth c in
      if (w =? 4)%nat then part
      else toUpperCase (String.substring 0 w part)
           +:+ String.substring w (String.length part - w) part
  end.

(** [formatName(name)]. *)
Definition formatName (name : string) : string :=
  join (capitalize <$> split name).

(** [formatMove(name)]: the same body as [formatName]. *)
Definition formatMove (name : string) : string :=
  join (capitalize <$> split name).
End Display.

(* ================================================================== *)
(** * [scripts/fetch-popular-moves.mjs] *)
(* ================================================================== *)

Module FetchPopularMoves.

(** [unique(list) = [...new Set(list)]]: a [Set] keeps its elements in
    insertion order and ignores the insertion of an element it holds. *)
Definition unique (items : list string) : list string :=
  foldl (λ set x, if bool_decide (x ∈ set) then set else set ++ [x]) [] items.

(** [file.startsWith(prefix)] and [file.endsWith(suffix)]. *)
Definition startsWith (file pre : string) : bool := String.prefix pre file.

Definition endsWith (file suffix : string) : bool :=
  let n := String.length file in
  let m := String.length suffix in
  bool_decide (m ≤ n)%nat
  && bool_decide (String.substring (n - m) m file = suffix).

Definition preferred : list string :=
  ["gen9ou-1695.json"; "gen9ou-1630.json"; "gen9ou-1500.json"; "gen9ou-0.json"].

Definition isGen9OuFile (file : string) : bool :=
  startsWith file "gen9ou-" && endsWith file ".json".

(** [pickSmogonFormat(files)]; [None] is [null]. *)
Definition pickSmogonFormat (files : list string) : option string :=
  match List.find (λ name, includes files name) preferred with
  | Some name => Some name
  | None => List.find isGen9OuFile files
  end.

(** The [moves] object of the payload [main] writes, from the two lists
    [computePopularMoves] returned. *)
Definition payloadMoves (smogonMoves vgcMoves : list string) : PopularMoves :=
  {| smogon := smogonMoves; vgc := vgcMoves;
     combined := unique (smogonMoves ++ vgcMoves) |}.

End FetchPopularMoves.

(* ================================================================== *)
(** * [scripts/fetch-pokemon.mjs] *)
(* ================================================================== *)

Module FetchPokemon.

(** Flavor text is processed character by character, with classes that
    reach beyond ASCII, so here a string is the list of its UTF-16 code
    units. *)
Definition Text : Type := list N.

Definition SPACE : N := 32.

(** The class [[\f\n\r\u000c]]. *)
Definition isBreak (c : N) : bool :=
  ((c =? 12) || (c =? 10) || (c =? 13))%N.

(** The class [\s], which is also what [trim] strips: the white space and
    line terminators of ECMAScript. *)
Definition isSpace (c : N) : bool :=
  ((9 <=? c) && (c <=? 13) || (c =? 32) || (c =? 160) || (c =? 5760)
   || (8192 <=? c) && (c <=? 8202) || (c =? 8232) || (c =? 8233)
   || (c =? 8239) || (c =? 8287) || (c =? 12288) || (c =? 65279))%N.

(** [.replace(/[\f\n\r\u000c]/g, ' ')]. *)
Definition replaceBreaks (text : Text) : Text :=
  (λ c, if isBreak c then SPACE else c) <$> text.

(** [.replace(/\s+/g, ' ')]: every maximal run of [\s] becomes one space.
    The scan writes the space at the first character of a run; [inRun]
    tells whether the previous character belonged to one. *)
Fixpoint collapseSpaces_from (inRun : bool) (text : Text) : Text :=
  match text with
  | [] => []
  | c :: rest =>
      if isSpace c
      then if inRun then collapseSpaces_from true rest
           else SPACE :: collapseSpaces_from true rest
      else c :: collapseSpaces_from false rest
  end.

Definition collapseSpaces (text : Text) : Text :=
  collapseSpaces_from false text.

(** [.trim()]. *)
Fixpoint trimStart (text : Text) : Text :=
  match text with
  | [] => []
  | c :: rest => if isSpace c then trimStart rest else text
  end.

Fixpoint trimEnd (text : Text) : Text :=
  match text with
  | [] => []
  | c :: rest =>
      match trimEnd rest with
      | [] => if isSpace c then [] else [c]
      | rest' => c :: rest'
      end
  end.

Definition trim (text : Text) : Text := trimEnd (trimStart text).

(** [normalizeText(text = '')]; [None] is a missing argument. *)
Definition normalizeText (text : option Text) : Text :=
  trim (collapseSpaces (replaceBreaks (default [] text))).

(** An element of [species.flavor_text_entries], as far as it is read:
    [entry?.language?.name] and [entry.flavor_text]. *)
Record FlavorEntry := {
  language : option string;
  flavor_text : option Text;
}.

Definition isEnglish (entry : FlavorEntry) : bool :=
  bool_decide (language entry = Some "en").

(** [pickEnglishFlavor(entries = [])]. *)
Definition pickEnglishFlavor (entries : list FlavorEntry) : Text :=
  let english := filter (λ entry, isEnglish entry = true) entries in
  match last english with
  | None => []
  | Some entry => normalizeText (flavor_text entry)
  end.

(** The set [STAT_KEYS] of the script. *)
Definition STAT_KEYS : gset string :=
  list_to_set ["hp"; "attack"; "defense"; "special-attack";
               "special-defense"; "speed"].

(** An element of [data.stats]: [entry?.stat?.name] and
    [entry.base_stat]. *)
Record StatEntry := {
  stat_name : option string;
  base_stat : Z;
}.

(** What [normalizePokemon] and [getArtwork] read of the API answer:
    [sprites.other['official-artwork'].front_default],
    [sprites.front_default], and for each element of [data.moves] its
    [entry?.move?.name]. *)
Record ApiPokemon := {
  api_id : Z;
  api_name : string;
  official_artwork : option string;
  front_default : option string;
  api_stats : list StatEntry;
  api_moves : list (option string);
}.

(** What [normalizePokemon] returns. *)
Record DatasetPokemon := {
  ds_id : Z;
  ds_name : string;
  ds_artwork : string;
  ds_stats : gmap string Z;
  ds_moves : list string;
  ds_flavorText : Text;
}.

(** [getArtwork(data)]: the first of the two addresses that is truthy,
    else the empty string. *)
Definition getArtwork (data : ApiPokemon) : string :=
  if truthyOptString (official_artwork data)
  then default "" (official_artwork data)
  else if truthyOptString (front_default data)
       then default "" (front_default data)
       else "".

Definition initialStats : gmap string Z :=
  list_to_map [("hp", 0); ("attack", 0); ("defense", 0);
               ("special-attack", 0); ("special-defense", 0); ("speed", 0)].

(** One turn of the loop over [data.stats]. *)
Definition recordStat (stats : gmap string Z) (entry : StatEntry)
    : gmap string Z :=
  match stat_name entry with
  | Some key =>
      if bool_decide (key ∈ STAT_KEYS) then <[key := base_stat entry]> stats
      else stats
  | None => stats
  end.

(** [normalizePokemon(data, flavorText)]. *)
Definition normalizePokemon (data : ApiPokemon) (flavorText : Text)
    : DatasetPokemon :=
  {| ds_id := api_id data;
     ds_name := api_name data;
     ds_artwork := getArtwork data;
     ds_stats := foldl recordStat initialStats (api_stats data);
     ds_moves := omap (λ name, if truthyOptString name then name else None)
                   (api_moves data);
     ds_flavorText := flavorText |}.

End FetchPokemon.

(* ================================================================== *)
(** * Vocabulary of the further statements *)
(* ================================================================== *)

(** A text in which every white-space character is a lone U+0020 between
    two other characters: none leads when [atStart] holds, none follows
    another. *)
Fixpoint singleSpaced (atStart : bool) (text : FetchPokemon.Text) : bool :=
  match text with
  | [] => true
  | c :: rest =>
      if FetchPokemon.isSpace c
      then (c =? FetchPokemon.SPACE)%N && negb atStart && singleSpaced true rest
      else singleSpaced false rest
  end.

Definition endsWithSpace (text : FetchPokemon.Text) : bool :=
  match last text with
  | Some c => FetchPokemon.isSpace c
  | None => false
  end.

(** The normal form of [normalizeText]. *)
Definition tidy (text : FetchPokemon.Text) : bool :=
  singleSpaced true text && negb (endsWithSpace text).

(** A creature of the dataset as the page reads it back from
    [pokemon.json], as far as its moves go. *)
Definition knowsNoEmptyMove (mon : Pokemon) : Prop := ""%string ∉ moves mon.

(** A curated move list that names no move of [monA] or [monB], and a
    session over the two entered with that list loaded. *)
Definition surfOnly : PopularMoves :=
  {| smogon := ["surf"]; vgc := ["surf"]; combined := ["surf"] |}.

Definition surfSession (m : Mode) : State :=
  (run asciiLower
     [EvLoad (Some [monA; monB]); EvLoadPopularMoves (Some surfOnly);
      EvModeChange m]
     (initialState noStorage) rngZero).1.

(** A true/false session over [monA] and [monB] with that list loaded: the
    pool is set to ['all'], the statement "[monB] learns growl" is shown and
    answered with "true", and during the pause the pool is set to
    ['popular']. *)
Definition poolSwitched : State * Rng :=
  run asciiLower
    [EvLoad (Some [monA; monB]); EvLoadPopularMoves (Some surfOnly);
     EvSelectMovePool All; EvModeChange MoveTrueFalse; EvReadyEffect;
     EvGuess SelTrue; EvSelectMovePool Popular]
    (initialState noStorage) rngAlwaysHigh.

(** A dex round on ["Mr. Mime"] with the guess ["mr mime"] typed in. *)
Definition mrMime : Pokemon :=
  {| id := 122; name := "mr-mime"; artwork := ""; stats := flatStats 40;
     moves := ["confusion"]; flavorText := Some "It is a pantomime expert." |}.

Definition dexMrMimeTyped : State :=
  (run asciiLower [EvReadyEffect; EvDexInput "Mr Mime"]
     (sessionOver [mrMime] DexGuess) rngZero).1.

(** The curated lists the script writes for two overlapping rankings, and
    a session that has loaded them. *)
Definition rankedMoves : PopularMoves :=
  FetchPopularMoves.payloadMoves ["surf"; "protect"] ["protect"; "fake-out"].

Definition rankedSession : State :=
  loadPopularMoves (Some rankedMoves) (initialState noStorage).

(* ================================================================== *)
(** * Running the [Rand] monad *)
(* ================================================================== *)

Lemma run_bind {A B} (m : Rand A) (f : A → Rand B) (g : Rng) :
  (m ≫= f) g = f (m g).1 (m g).2.
Proof. unfold mbind, Rand_bind. by destruct (m g). Qed.

Lemma run_ret {A} (a : A) (g : Rng) : mret (M := Rand) a g = (a, g).
Proof. done. Qed.

Ltac run_rand := rewrite ?run_bind, ?run_ret; cbn [fst snd].

(** A draw is a proper fraction, so a scaled draw is a valid index. *)
Lemma Math_random_range (g : Rng) :
  0 ≤ (Math_random g).1 < RANDOM_DEN.
Proof. simpl. apply Z.mod_pos_bound. by vm_compute. Qed.

Lemma randomIndex_lt (n : nat) (g : Rng) :
  (0 < n)%nat → ((randomIndex n g).1 < n)%nat.
Proof.
  intros Hn. unfold randomIndex. rewrite run_bind, run_ret. simpl.
  pose proof (Math_random_range g) as [Hlo Hhi]. simpl in Hlo, Hhi.
  set (u := draws g (cursor g) `mod` RANDOM_DEN) in *.
  assert (0 < RANDOM_DEN) as Hden by (by vm_compute).
  assert (0 ≤ (u * Z.of_nat n) `div` RANDOM_DEN < Z.of_nat n) as [? ?].
  { split.
    - apply Z.div_pos; lia.
    - apply Z.div_lt_upper_bound; nia. }
  lia.
Qed.

Lemma randomElement_in_range {A} (arr : list A) (g : Rng) :
  arr ≠ [] → ∃ x, (randomElement arr g).1 = Some x ∧ x ∈ arr.
Proof.
  intros Hne. unfold randomElement. rewrite run_bind, run_ret. cbn [fst].
  assert (0 < length arr)%nat as Hlen by (destruct arr; simpl; [done | lia]).
  pose proof (randomIndex_lt (length arr) g Hlen) as Hi.
  unfold randomIndex in Hi. rewrite run_bind in Hi. simpl in Hi.
  destruct (lookup_lt_is_Some_2 arr _ Hi) as [x Hx].
  exists x. split; [done |]. by eapply list_elem_of_lookup_2.
Qed.

Lemma randomElement_elem {A} (arr : list A) (g : Rng) (x : A) :
  (randomElement arr g).1 = Some x → x ∈ arr.
Proof.
  unfold randomElement. rewrite run_bind, run_ret. cbn [fst].
  apply list_elem_of_lookup_2.
Qed.

(* ================================================================== *)
(** * Sampler facts *)
(* ================================================================== *)

Lemma pickRandomPokemon_loop_elem pokemon first excludeId fuel candidate g :
  first ∈ pokemon → candidate ∈ pokemon →
  (pickRandomPokemon_loop pokemon first excludeId fuel candidate g).1 ∈ pokemon.
Proof.
  intros Hfirst. revert candidate g.
  induction fuel as [| fuel IH]; intros candidate g Hc; simpl; [done |].
  destruct (_ && _); [| done].
  rewrite run_bind. apply IH.
  destruct ((randomElement pokemon g).1) as [x |] eqn:Hx; simpl; [| done].
  by eapply randomElement_elem.
Qed.

(** On a non-empty catalog [pickRandomPokemon] returns a catalog member,
    whatever id it was asked to avoid. *)
Lemma pickRandomPokemon_Some pokemon excludeId g :
  pokemon ≠ [] →
  ∃ p, (pickRandomPokemon pokemon excludeId g).1 = Some p ∧ p ∈ pokemon.
Proof.
  intros Hne. unfold pickRandomPokemon.
  destruct pokemon as [| first rest]; [done |].
  rewrite !run_bind. eexists. split; [done |].
  apply pickRandomPokemon_loop_elem; [by left |].
  destruct (randomElement_in_range (first :: rest) g Hne) as (x & Hx & Hin).
  by rewrite Hx.
Qed.

(** It fails only on the empty catalog. *)
Lemma pickRandomPokemon_None excludeId g :
  (pickRandomPokemon [] excludeId g).1 = None.
Proof. done. Qed.

(** A truthy result of [pickMoveFrom] is one of the creature's moves, and
    passes the filter when there is one. *)
Lemma pickMoveFrom_truthy mon moveSet g :
  truthyString (pickMoveFrom mon moveSet g).1 = true →
  (pickMoveFrom mon moveSet g).1 ∈ moves mon
  ∧ ∀ set, moveSet = Some set → (pickMoveFrom mon moveSet g).1 ∈ set.
Proof.
  unfold pickMoveFrom.
  set (pool := match moveSet with
               | Some set => filter (λ move, move ∈ set) (moves mon)
               | None => moves mon
               end).
  assert (∀ m, m ∈ pool →
            m ∈ moves mon ∧ ∀ set, moveSet = Some set → m ∈ set) as Hpool.
  { intros m Hm. subst pool. destruct moveSet as [set |].
    - apply list_elem_of_filter in Hm as [? ?]. split; [done |].
      by intros ? [= <-].
    - by split. }
  destruct pool as [| m0 rest] eqn:Hp; [done |].
  run_rand. intros Htruthy.
  destruct ((randomElement (m0 :: rest) g).1) as [m |] eqn:Hm;
    simpl in Htruthy; [| done].
  apply Hpool. by eapply randomElement_elem.
Qed.

(* ================================================================== *)
(** * Stat duel rounds *)
(* ================================================================== *)

(** The redraw loop keeps a right-hand creature, counts its redraws in
    [guard], and can only stop early on a pair that differs on the chosen
    stat. *)
Lemma startStatRound_loop_spec pokemon nextLeft fuel guard nextRight nextStat g :
  pokemon ≠ [] → is_Some nextRight →
  ∃ r st guard',
    (startStatRound_loop pokemon nextLeft fuel guard nextRight nextStat g).1
      = (Some r, st, guard')
    ∧ (guard ≤ guard' ≤ guard + fuel)%nat
    ∧ ((guard' < guard + fuel)%nat → stats nextLeft st ≠ stats r st).
Proof.
  intros Hne. revert guard nextRight nextStat g.
  induction fuel as [| fuel IH]; intros guard nextRight nextStat g [r Hr];
    subst nextRight; simpl.
  - exists r, nextStat, guard. split; [done |]. split; lia.
  - case_bool_decide as Heq.
    + rewrite !run_bind.
      destruct (pickRandomPokemon_Some pokemon (Some (id nextLeft)) g Hne)
        as (p & Hp & _).
      rewrite Hp.
      edestruct (IH (S guard) (Some p)) as (r' & st & guard' & Hrun & Hg & Hd);
        [by eexists |].
      exists r', st, guard'. split; [exact Hrun |]. split; [lia |].
      intros Hlt. apply Hd. lia.
    + exists r, nextStat, guard. split; [done |]. split; [lia | done].
Qed.

(** The generator produces a round on every catalog of two or more. *)
Lemma drawStatRound_spec pokemon keep g :
  (2 ≤ length pokemon)%nat →
  ∃ nextLeft r st guard,
    (drawStatRound pokemon keep g).1
      = Some {| sr_left := nextLeft; sr_right := Some r; sr_stat := st;
                sr_guard := guard |}
    ∧ (∀ k, keep = Some k → nextLeft = k)
    ∧ (guard ≤ 40)%nat
    ∧ ((guard < 40)%nat → stats nextLeft st ≠ stats r st).
Proof.
  intros Hlen. unfold drawStatRound.
  assert (pokemon ≠ []) as Hne by (intros ->; simpl in Hlen; lia).
  case_bool_decide; [lia |].
  rewrite run_bind.
  assert (∃ nl, ((match keep with
                  | Some k => mret (Some k)
                  | None => pickRandomPokemon pokemon None
                  end) g).1 = Some nl
                ∧ ∀ k, keep = Some k → nl = k) as (nl & Hnl & Hkeep).
  { destruct keep as [k |]; [exists k; split; [done | by intros ? [= <-]] |].
    destruct (pickRandomPokemon_Some pokemon None g Hne) as (p & Hp & _).
    by exists p. }
  rewrite Hnl. rewrite run_bind.
  match goal with
  | |- context [pickRandomPokemon pokemon (Some (id nl)) ?g1] =>
      destruct (pickRandomPokemon_Some pokemon (Some (id nl)) g1 Hne)
        as (p & Hp & _)
  end.
  rewrite Hp. rewrite !run_bind.
  match goal with
  | |- context [startStatRound_loop pokemon nl 40 0 (Some p) ?st0 ?g2] =>
      destruct (startStatRound_loop_spec pokemon nl 40 0 (Some p) st0 g2 Hne)
        as (r & st & guard & Hrun & Hg & Hd); [by eexists |]
  end.
  rewrite Hrun. rewrite run_ret. cbn [fst].
  exists nl, r, st, guard. split; [done |]. split; [done |]. split; [lia |].
  intros Hlt. apply Hd. lia.
Qed.

(** C1, as the code has it.  On every catalog of two or more creatures
    [startStatRound] presents a round.  The two creatures differ on the
    chosen stat whenever the redraw loop stopped before its guard reached
    40; once the 40 redraws are used up the last pair drawn is presented as
    it is. *)
Theorem stat_round_differs_unless_guard_exhausted
    (keep : option Pokemon) (s : State) (g : Rng) :
  (2 ≤ length (pokemon s))%nat →
  ∃ round l r,
    (drawStatRound (pokemon s) keep g).1 = Some round
    ∧ left (startStatRound keep s g).1 = Some l
    ∧ right (startStatRound keep s g).1 = Some r
    ∧ (sr_guard round ≤ 40)%nat
    ∧ ((sr_guard round < 40)%nat →
       stats l (stat (startStatRound keep s g).1)
       ≠ stats r (stat (startStatRound keep s g).1)).
Proof.
  intros Hlen.
  destruct (drawStatRound_spec (pokemon s) keep g Hlen)
    as (nl & r & st & guard & Hdraw & _ & Hg & Hd).
  eexists _, nl, r. split; [exact Hdraw |].
  unfold startStatRound. rewrite run_bind, Hdraw, run_ret. simpl.
  repeat split; [lia | done].
Qed.

Lemma stat_round_differs_unless_guard_exhausted_witness :
  ∃ round l r,
    (drawStatRound [monA; monB] None rngZeroThenHalf).1 = Some round
    ∧ left (startStatRound None (sessionOver [monA; monB] Stat)
              rngZeroThenHalf).1 = Some l
    ∧ right (startStatRound None (sessionOver [monA; monB] Stat)
               rngZeroThenHalf).1 = Some r
    ∧ (sr_guard round ≤ 40)%nat
    ∧ ((sr_guard round < 40)%nat →
       stats l (stat (startStatRound None (sessionOver [monA; monB] Stat)
                        rngZeroThenHalf).1)
       ≠ stats r (stat (startStatRound None (sessionOver [monA; monB] Stat)
                          rngZeroThenHalf).1)).
Proof.
  apply (stat_round_differs_unless_guard_exhausted None
           (sessionOver [monA; monB] Stat) rngZeroThenHalf).
  simpl. lia.
Defined.

(** C1 as stated fails: on a catalog of two creatures that agree on every
    stat the generator uses its 40 redraws and then presents the pair. *)
Lemma stat_round_equal_stats_counterexample :
  (2 ≤ length (pokemon (sessionOver [plusle; minun] Stat)))%nat
  ∧ left (startStatRound None (sessionOver [plusle; minun] Stat)
            rngZeroThenHalf).1 = Some plusle
  ∧ right (startStatRound None (sessionOver [plusle; minun] Stat)
             rngZeroThenHalf).1 = Some minun
  ∧ stats plusle
      (stat (startStatRound None (sessionOver [plusle; minun] Stat)
               rngZeroThenHalf).1)
    = stats minun
        (stat (startStatRound None (sessionOver [plusle; minun] Stat)
                 rngZeroThenHalf).1).
Proof. split; [simpl; lia |]. by vm_compute. Qed.

(* ================================================================== *)
(** * Move match rounds *)
(* ================================================================== *)

Lemma includes_true arr x : includes arr x = true ↔ x ∈ arr.
Proof. unfold includes. by rewrite bool_decide_eq_true. Qed.

Lemma includes_false arr x : includes arr x = false ↔ x ∉ arr.
Proof. unfold includes. by rewrite bool_decide_eq_false. Qed.

(** The inner loop counts its redraws in [guard] and can only stop early
    on a creature that does not know the move. *)
Lemma startMoveCompareRound_inner_spec pokemon leftPick movePick fuel guard
    rightPick g :
  let res := (startMoveCompareRound_inner pokemon leftPick movePick fuel guard
                rightPick g).1 in
  (guard ≤ res.2 ≤ guard + fuel)%nat
  ∧ ∀ r, res.1 = Some r → (res.2 < guard + fuel)%nat →
         includes (moves r) movePick = false.
Proof.
  revert guard rightPick g.
  induction fuel as [| fuel IH]; intros guard rightPick g; simpl.
  - destruct rightPick; simpl; (split; [lia | intros; lia]).
  - destruct rightPick as [r |]; simpl; [| split; [lia | done]].
    destruct (includes (moves r) movePick) eqn:Hinc.
    + rewrite run_bind.
      match goal with
      | |- context [startMoveCompareRound_inner _ _ _ _ _ ?rp ?g1] =>
          destruct (IH (S guard) rp g1) as [Hg Hd]
      end.
      split; [lia |]. intros r' Hr' Hlt. apply (Hd r' Hr'). lia.
    + simpl. split; [lia |]. by intros r' [= <-] _.
Qed.

Lemma startMoveCompareRound_loop_spec pokemon moveSet fuel g round :
  (startMoveCompareRound_loop pokemon moveSet fuel g).1 = Some round →
  truthyString (mc_move round) = true
  ∧ mc_move round ∈ moves (mc_left round)
  ∧ (∀ set, moveSet = Some set → mc_move round ∈ set)
  ∧ (mc_guard round ≤ 40)%nat
  ∧ ((mc_guard round < 40)%nat → mc_move round ∉ moves (mc_right round)).
Proof.
  revert g. induction fuel as [| fuel IH]; intros g;
    cbn [startMoveCompareRound_loop]; [done |].
  rewrite run_bind.
  destruct ((pickRandomPokemon pokemon None g).1) as [leftPick |]; [| done].
  rewrite run_bind.
  set (g1 := (pickRandomPokemon pokemon None g).2).
  destruct (truthyString (pickMoveFrom leftPick moveSet g1).1) eqn:Htruthy;
    cbn [negb]; [| apply IH].
  destruct (pickMoveFrom_truthy leftPick moveSet g1 Htruthy) as [Hin Hset].
  set (movePick := (pickMoveFrom leftPick moveSet g1).1) in *.
  rewrite !run_bind.
  match goal with
  | |- context [startMoveCompareRound_inner _ _ _ 40 0 ?rp ?g2] =>
      pose proof (startMoveCompareRound_inner_spec pokemon leftPick movePick
                    40 0 rp g2) as [Hg Hd];
      destruct (startMoveCompareRound_inner pokemon leftPick movePick 40 0
                  rp g2) as [[rightPick guard] g3]
  end.
  cbn [fst snd] in Hg, Hd |- *.
  destruct rightPick as [r |]; [| apply IH].
  rewrite run_ret. cbn [fst]. intros [= <-]. cbn [mc_move mc_left mc_right mc_guard].
  repeat split; [done | done | done | lia |].
  intros Hlt. apply includes_false, (Hd r); [done | lia].
Qed.

(** C2, as the code has it.  In every move-match round the generator
    produces, [left] knows the chosen move (and the move passes the active
    filter).  [right] does not know it whenever the inner retry loop stopped
    before its guard reached 40; once the 40 redraws are used up the last
    [right] drawn is presented as it is. *)
Theorem move_round_one_owner_unless_guard_exhausted
    (s : State) (g : Rng) (round : MoveCompareRound) :
  (drawMoveCompareRound (pokemon s) (activeMoveSet s) g).1 = Some round →
  left (startMoveCompareRound s g).1 = Some (mc_left round)
  ∧ right (startMoveCompareRound s g).1 = Some (mc_right round)
  ∧ moveName (startMoveCompareRound s g).1 = mc_move round
  ∧ includes (moves (mc_left round)) (mc_move round) = true
  ∧ (∀ set, activeMoveSet s = Some set → mc_move round ∈ set)
  ∧ (mc_guard round ≤ 40)%nat
  ∧ ((mc_guard round < 40)%nat →
     includes (moves (mc_right round)) (mc_move round) = false).
Proof.
  intros Hdraw.
  unfold startMoveCompareRound. rewrite run_bind, Hdraw, run_ret. simpl.
  unfold drawMoveCompareRound in Hdraw.
  case_bool_decide; [done |].
  apply startMoveCompareRound_loop_spec in Hdraw
    as (_ & Hin & Hset & Hg & Hd).
  repeat split; [by apply includes_true | done | done |].
  intros Hlt. by apply includes_false, Hd.
Qed.

Lemma move_round_one_owner_unless_guard_exhausted_witness :
  left (startMoveCompareRound (sessionOver [monA; monB] MoveCompare)
          rngZeroThenHalf).1 = Some monA
  ∧ right (startMoveCompareRound (sessionOver [monA; monB] MoveCompare)
             rngZeroThenHalf).1 = Some monB
  ∧ moveName (startMoveCompareRound (sessionOver [monA; monB] MoveCompare)
                rngZeroThenHalf).1 = "tackle"
  ∧ includes (moves monA) "tackle" = true
  ∧ (∀ set, activeMoveSet (sessionOver [monA; monB] MoveCompare) = Some set →
            "tackle" ∈ set)
  ∧ (0 ≤ 40)%nat
  ∧ ((0 < 40)%nat → includes (moves monB) "tackle" = false).
Proof.
  apply (move_round_one_owner_unless_guard_exhausted
           (sessionOver [monA; monB] MoveCompare) rngZeroThenHalf roundAB).
  by vm_compute.
Defined.

(** C2 as stated fails: when every other creature knows the move too, the
    inner loop uses its 40 redraws and the round presents two owners. *)
Lemma move_round_two_owners_counterexample :
  left (startMoveCompareRound (sessionOver [plusle; minun] MoveCompare)
          rngZeroThenHalf).1 = Some plusle
  ∧ right (startMoveCompareRound (sessionOver [plusle; minun] MoveCompare)
             rngZeroThenHalf).1 = Some minun
  ∧ moveName (startMoveCompareRound (sessionOver [plusle; minun] MoveCompare)
                rngZeroThenHalf).1 = "spark"
  ∧ includes (moves plusle) "spark" = true
  ∧ includes (moves minun) "spark" = true.
Proof. by vm_compute. Qed.

(* ================================================================== *)
(** * Move true/false rounds *)
(* ================================================================== *)

Lemma startTrueFalseRound_loop_spec pokemon moveSet fuel g round :
  (startTrueFalseRound_loop pokemon moveSet fuel g).1 = Some round →
  truthyString (tf_move round) = true
  ∧ includes (moves (tf_focus round)) (tf_move round) = tf_isTrue round.
Proof.
  revert g. induction fuel as [| fuel IH]; intros g;
    cbn [startTrueFalseRound_loop]; [done |].
  rewrite run_bind.
  destruct ((pickRandomPokemon pokemon None g).1) as [pick |]; [| done].
  rewrite run_bind.
  set (g1 := (pickRandomPokemon pokemon None g).2).
  destruct (truthyString (pickMoveFrom pick moveSet g1).1) eqn:Htruthy;
    cbn [negb]; [| apply IH].
  destruct (pickMoveFrom_truthy pick moveSet g1 Htruthy) as [Hin _].
  rewrite run_bind.
  destruct ((randomAboveHalf (pickMoveFrom pick moveSet g1).2).1).
  - rewrite run_ret. cbn [fst]. intros [= <-]. cbn [tf_move tf_focus tf_isTrue].
    split; [done |]. by apply includes_true.
  - rewrite run_bind.
    match goal with
    | |- context [pickRandomPokemon pokemon (Some (id pick)) ?g2] =>
        destruct (pickRandomPokemon pokemon (Some (id pick)) g2)
          as [[other |] g3]
    end; cbn [fst snd]; [| apply IH].
    rewrite run_bind.
    destruct (truthyString (pickMoveFrom other moveSet g3).1) eqn:Hfalse;
      cbn [negb orb]; [| apply IH].
    destruct (includes (moves pick) (pickMoveFrom other moveSet g3).1) eqn:Hinc;
      [apply IH |].
    rewrite run_ret. cbn [fst]. intros [= <-]. cbn [tf_move tf_focus tf_isTrue].
    by split.
Qed.

(** C3.  In every true/false round the generator produces, a true statement
    names a move in [focus.moves] and a false statement names a move that is
    not in it.  No cell stores the truth value: [isTrueFalseCorrect]
    recomputes it from [focus.moves.includes(moveName)] for whatever guess
    is submitted. *)
Theorem truefalse_round_statement_matches_membership
    (s : State) (g : Rng) (round : TrueFalseRound) :
  (drawTrueFalseRound (pokemon s) (activeMoveSet s) g).1 = Some round →
  focus (startTrueFalseRound s g).1 = Some (tf_focus round)
  ∧ moveName (startTrueFalseRound s g).1 = tf_move round
  ∧ (tf_isTrue round = true → tf_move round ∈ moves (tf_focus round))
  ∧ (tf_isTrue round = false → tf_move round ∉ moves (tf_focus round))
  ∧ ∀ selection,
      isTrueFalseCorrect (setGuess (Some selection) (startTrueFalseRound s g).1)
      = bool_decide
          (selection
           = if includes (moves (tf_focus round)) (tf_move round)
             then SelTrue else SelFalse).
Proof.
  intros Hdraw.
  unfold startTrueFalseRound. rewrite run_bind, Hdraw, run_ret. cbn [fst].
  unfold drawTrueFalseRound in Hdraw.
  case_bool_decide; [done |].
  apply startTrueFalseRound_loop_spec in Hdraw as [Htruthy Hmem].
  split; [done |]. split; [done |].
  split; [| split].
  - intros Ht. apply includes_true. by rewrite Hmem.
  - intros Hf. apply includes_false. by rewrite Hmem.
  - intros selection. unfold isTrueFalseCorrect. simpl.
    by rewrite Htruthy.
Qed.

Lemma truefalse_round_statement_matches_membership_witness :
  focus (startTrueFalseRound (sessionOver [monA; monB] MoveTrueFalse)
           rngZeroThenHalf).1 = Some monA
  ∧ moveName (startTrueFalseRound (sessionOver [monA; monB] MoveTrueFalse)
                rngZeroThenHalf).1 = "growl"
  ∧ (false = true → "growl" ∈ moves monA)
  ∧ (false = false → "growl" ∉ moves monA)
  ∧ ∀ selection,
      isTrueFalseCorrect
        (setGuess (Some selection)
           (startTrueFalseRound (sessionOver [monA; monB] MoveTrueFalse)
              rngZeroThenHalf).1)
      = bool_decide
          (selection = if includes (moves monA) "growl"
                       then SelTrue else SelFalse).
Proof.
  apply (truefalse_round_statement_matches_membership
           (sessionOver [monA; monB] MoveTrueFalse) rngZeroThenHalf falseRoundA).
  by vm_compute.
Defined.

(** A true statement is generated as well: with every draw above one half
    the round keeps the creature's own move. *)
Example truefalse_round_true_statement :
  (drawTrueFalseRound [monA; monB] None rngAlwaysHigh).1
  = Some {| tf_focus := monB; tf_move := "growl"; tf_isTrue := true |}.
Proof. by vm_compute. Qed.

(* ================================================================== *)
(** * What the generators leave alone *)
(* ================================================================== *)

Lemma startStatRound_books keep s g : SameBooks s (startStatRound keep s g).1.
Proof.
  unfold startStatRound. rewrite run_bind, run_ret. cbn [fst].
  destruct ((drawStatRound (pokemon s) keep g).1); by repeat split.
Qed.

Lemma startMoveCompareRound_books s g :
  SameBooks s (startMoveCompareRound s g).1.
Proof.
  unfold startMoveCompareRound. rewrite run_bind, run_ret. cbn [fst].
  destruct ((drawMoveCompareRound (pokemon s) (activeMoveSet s) g).1);
    by repeat split.
Qed.

Lemma startTrueFalseRound_books s g :
  SameBooks s (startTrueFalseRound s g).1.
Proof.
  unfold startTrueFalseRound. rewrite run_bind, run_ret. cbn [fst].
  destruct ((drawTrueFalseRound (pokemon s) (activeMoveSet s) g).1);
    by repeat split.
Qed.

Lemma startDexRound_books s g : SameBooks s (startDexRound s g).1.
Proof.
  unfold startDexRound. rewrite run_bind, run_ret. cbn [fst].
  destruct ((pickDexPokemon (pokemon s) g).1); by repeat split.
Qed.

Lemma highScore_updateHighScore key f s k :
  highScore (updateHighScore key f s) k
  = if bool_decide (k = key) then f (highScore s k) else highScore s k.
Proof. done. Qed.

(* ================================================================== *)
(** * The result pause *)
(* ================================================================== *)

Lemma persist_after_update key f s :
  localStorage (persist key (setStatus GameOver (updateHighScore key f s))) key
  = if bool_decide (f (highScore s key) > 0) then Some (f (highScore s key))
    else localStorage s key.
Proof.
  unfold persist. simpl.
  rewrite !(bool_decide_eq_true_2 (key = key)) by done.
  case_bool_decide; simpl; [| done].
  by rewrite (bool_decide_eq_true_2 (key = key)).
Qed.

(** ** When the move generators give up *)

Lemma pickRandomPokemon_elem pokemon excludeId g p :
  (pickRandomPokemon pokemon excludeId g).1 = Some p → p ∈ pokemon.
Proof.
  destruct pokemon as [| first rest] eqn:Hcat; [done |].
  rewrite <- Hcat.
  destruct (pickRandomPokemon_Some pokemon excludeId g) as (q & Hq & Hin);
    [by rewrite Hcat |].
  rewrite Hq. by intros [= <-].
Qed.

Lemma pickMoveFrom_no_move mon moveSet g :
  filteredMoves mon moveSet = [] → pickMoveFrom mon moveSet g = (""%string, g).
Proof. unfold pickMoveFrom. fold (filteredMoves mon moveSet). by intros ->. Qed.

Lemma startMoveCompareRound_loop_stalls pokemon moveSet fuel g :
  (∀ p, p ∈ pokemon → filteredMoves p moveSet = []) →
  (startMoveCompareRound_loop pokemon moveSet fuel g).1 = None.
Proof.
  intros Hnone. revert g. induction fuel as [| fuel IH]; intros g;
    cbn [startMoveCompareRound_loop]; [done |].
  rewrite run_bind.
  destruct ((pickRandomPokemon pokemon None g).1) as [leftPick |] eqn:Hpick;
    [| done].
  apply pickRandomPokemon_elem in Hpick.
  rewrite run_bind, (pickMoveFrom_no_move _ _ _ (Hnone _ Hpick)).
  cbn [fst snd truthyString negb]. apply IH.
Qed.

Lemma startTrueFalseRound_loop_stalls pokemon moveSet fuel g :
  (∀ p, p ∈ pokemon → filteredMoves p moveSet = []) →
  (startTrueFalseRound_loop pokemon moveSet fuel g).1 = None.
Proof.
  intros Hnone. revert g. induction fuel as [| fuel IH]; intros g;
    cbn [startTrueFalseRound_loop]; [done |].
  rewrite run_bind.
  destruct ((pickRandomPokemon pokemon None g).1) as [pick |] eqn:Hpick;
    [| done].
  apply pickRandomPokemon_elem in Hpick.
  rewrite run_bind, (pickMoveFrom_no_move _ _ _ (Hnone _ Hpick)).
  cbn [fst snd truthyString negb]. apply IH.
Qed.

Section ResultPause.
Variable toLowerCase : string → string.

Lemma startStatRound_shown (keep : option Pokemon) (s0 s : State) (g : Rng) :
  pokemon s0 = pokemon s → left s0 = left s → right s0 = right s →
  stat s0 = stat s → guess s0 = guess s →
  StatRoundShown (drawStatRound (pokemon s) keep g).1 s
    (setStatus Ready (startStatRound keep s0 g).1).
Proof.
  intros Hcat Hl Hr Hst Hg.
  unfold startStatRound. rewrite run_bind, run_ret, Hcat. cbn [fst].
  destruct ((drawStatRound (pokemon s) keep g).1) as [round |];
    by repeat split.
Qed.

Lemma startMoveCompareRound_shown (s0 s : State) (g : Rng) :
  pokemon s0 = pokemon s → activeMoveSet s0 = activeMoveSet s →
  left s0 = left s → right s0 = right s →
  moveName s0 = moveName s → guess s0 = guess s →
  MoveCompareRoundShown
    (drawMoveCompareRound (pokemon s) (activeMoveSet s) g).1 s
    (setStatus Ready (startMoveCompareRound s0 g).1).
Proof.
  intros Hcat Hset Hl Hr Hmove Hg.
  unfold startMoveCompareRound. rewrite run_bind, run_ret, Hcat, Hset.
  cbn [fst].
  destruct ((drawMoveCompareRound (pokemon s) (activeMoveSet s) g).1)
    as [round |]; by repeat split.
Qed.

Lemma startTrueFalseRound_shown (s0 s : State) (g : Rng) :
  pokemon s0 = pokemon s → activeMoveSet s0 = activeMoveSet s →
  focus s0 = focus s → moveName s0 = moveName s → guess s0 = guess s →
  TrueFalseRoundShown
    (drawTrueFalseRound (pokemon s) (activeMoveSet s) g).1 s
    (setStatus Ready (startTrueFalseRound s0 g).1).
Proof.
  intros Hcat Hset Hf Hmove Hg.
  unfold startTrueFalseRound. rewrite run_bind, run_ret, Hcat, Hset.
  cbn [fst].
  destruct ((drawTrueFalseRound (pokemon s) (activeMoveSet s) g).1)
    as [round |]; by repeat split.
Qed.

(** C4.  When the session is in the ['result'] state, the pause callback
    ends it as [ResultPauseOutcome] says, in stat, move-compare and
    move-truefalse mode alike: a correct guess adds one to the score and
    sets the status to ['ready'], with the round the generator drew on
    display and the pick cleared, or, when the generator gave up, with the
    answered question and its pick left in place; a wrong guess sets the
    high score to the larger of itself and the score and ends the game. *)
Theorem result_pause_outcome (s : State) (g : Rng) :
  status s = Result →
  ResultPauseOutcome s g (step toLowerCase EvResultTimeout s g).1.
Proof.
  intros Hst. unfold step. rewrite bool_decide_eq_true_2 by done.
  unfold ResultPauseOutcome, resultTimeout.
  destruct (mode s); [done | | | | done].
  - destruct (isStatCorrect s) eqn:Hc.
    + unfold isStatCorrect in Hc.
      destruct (guess s) as [sel |] eqn:Hguess, (left s) as [l |] eqn:Hleft,
        (right s) as [r |] eqn:Hright; try done.
      rewrite run_bind, run_ret. cbn [fst].
      match goal with
      | |- context [startStatRound ?k ?s0 g] =>
          destruct (startStatRound_books k s0 g)
            as (_ & _ & Hscore & _ & _ & _ & _ & Hhs & _);
          pose proof (startStatRound_shown k s0 s g eq_refl eq_refl eq_refl
                        eq_refl eq_refl) as Hshown
      end.
      simpl in Hscore, Hhs.
      repeat split; [simpl; by rewrite Hscore | simpl; by rewrite Hhs |].
      exists l, r, sel, (carry (lastKeptId s) sel l r).
      do 4 (split; [done |]). split; [done |]. split; [exact Hshown |].
      intros Hlen.
      destruct (drawStatRound_spec (pokemon s)
                  (Some (carry (lastKeptId s) sel l r)) g Hlen)
        as (nl & nr & st & guard & Hdraw & Hkeep & _).
      rewrite Hdraw in Hshown. destruct Hshown as (Hl & Hr & _ & Hg).
      rewrite Hl, Hr, Hg. cbn [sr_left sr_right].
      rewrite (Hkeep _ eq_refl). by repeat split.
    + destruct (left s), (right s), (guess s); cbn [negb fst];
        rewrite ?run_ret; cbn [fst];
        (repeat split; [done .. |]);
        apply (persist_after_update KStat (λ prev, Z.max prev (score s)) s).
  - destruct (isMoveCompareCorrect s) eqn:Hc.
    + unfold isMoveCompareCorrect in Hc.
      destruct (guess s) as [sel |] eqn:Hguess, (left s) as [l |] eqn:Hleft,
        (right s) as [r |] eqn:Hright; try done.
      rewrite run_bind, run_ret. cbn [fst].
      match goal with
      | |- context [startMoveCompareRound ?s0 g] =>
          destruct (startMoveCompareRound_books s0 g)
            as (_ & _ & _ & Hscore & _ & _ & _ & Hhs & _);
          pose proof (startMoveCompareRound_shown s0 s g eq_refl eq_refl
                        eq_refl eq_refl eq_refl eq_refl) as Hshown
      end.
      simpl in Hscore, Hhs.
      split; [simpl; by rewrite Hscore |]. split; [reflexivity |].
      split; [simpl; by rewrite Hhs |]. split; [reflexivity |].
      split; [exact Hshown |].
      intros Hnone.
      assert ((drawMoveCompareRound (pokemon s) (activeMoveSet s) g).1 = None)
        as Hgaveup.
      { unfold drawMoveCompareRound.
        destruct (bool_decide (length (pokemon s) < 2)%nat); [reflexivity |].
        by apply startMoveCompareRound_loop_stalls. }
      rewrite Hgaveup in Hshown. unfold MoveCompareRoundShown in Hshown.
      rewrite Hleft, Hright, Hguess in Hshown. exact Hshown.
    + destruct (left s), (right s), (guess s); cbn [negb fst];
        rewrite ?run_ret; cbn [fst];
        (repeat split; [done .. |]);
        apply (persist_after_update KCompare
                 (λ prev, Z.max prev (compareScore s)) s).
  - destruct (isTrueFalseCorrect s) eqn:Hc.
    + unfold isTrueFalseCorrect in Hc.
      destruct (guess s) as [sel |] eqn:Hguess, (focus s) as [f |] eqn:Hfocus;
        try done.
      rewrite run_bind, run_ret. cbn [fst].
      match goal with
      | |- context [startTrueFalseRound ?s0 g] =>
          destruct (startTrueFalseRound_books s0 g)
            as (_ & _ & _ & _ & Hscore & _ & _ & Hhs & _);
          pose proof (startTrueFalseRound_shown s0 s g eq_refl eq_refl
                        eq_refl eq_refl eq_refl) as Hshown
      end.
      simpl in Hscore, Hhs.
      split; [simpl; by rewrite Hscore |]. split; [reflexivity |].
      split; [simpl; by rewrite Hhs |]. split; [reflexivity |].
      split; [exact Hshown |].
      intros Hnone.
      assert ((drawTrueFalseRound (pokemon s) (activeMoveSet s) g).1 = None)
        as Hgaveup.
      { unfold drawTrueFalseRound.
        destruct (bool_decide (length (pokemon s) = 0)%nat); [reflexivity |].
        by apply startTrueFalseRound_loop_stalls. }
      rewrite Hgaveup in Hshown. unfold TrueFalseRoundShown in Hshown.
      rewrite Hfocus, Hguess in Hshown. exact Hshown.
    + destruct (focus s), (guess s); cbn [negb fst];
        rewrite ?run_ret; cbn [fst];
        (repeat split; [done .. |]);
        apply (persist_after_update KTrueFalse
                 (λ prev, Z.max prev (trueFalseScore s)) s).
Qed.
End ResultPause.

(* ================================================================== *)
(** * High scores never go down *)
(* ================================================================== *)

Lemma updateHighScore_max_mono key v s k :
  highScore s k ≤ highScore (updateHighScore key (λ prev, Z.max prev v) s) k.
Proof. rewrite highScore_updateHighScore. case_bool_decide; lia. Qed.

Lemma LedgerStep_same s s' :
  highScore s' = highScore s → localStorage s' = localStorage s →
  (ScoresNonNeg s → ScoresNonNeg s') → LedgerStep s s'.
Proof.
  intros Hhs Hls Hsc. split; [| split; [done |]].
  - intros k. rewrite Hhs. lia.
  - intros k. left. by rewrite Hls.
Qed.

(** A generator run after the updates of a handler changes nothing in the
    books. *)
Lemma LedgerStep_books s0 s s' :
  SameBooks s0 s' → LedgerStep s s0 → LedgerStep s s'.
Proof.
  intros (_ & _ & H1 & H2 & H3 & H4 & _ & Hhs & Hls) (Hmono & Hsc & Hst).
  unfold LedgerStep, ScoresNonNeg in *.
  by rewrite H1, H2, H3, H4, Hhs, Hls.
Qed.

Lemma LedgerStep_status s0 st s :
  LedgerStep s s0 → LedgerStep s (setStatus st s0).
Proof. done. Qed.

(** The only writers of a high score: [setHighScore((prev) =>
    Math.max(prev, score))] on the way to ['gameover']. *)
Lemma LedgerStep_max key v s :
  LedgerStep s
    (setStatus GameOver (updateHighScore key (λ prev, Z.max prev v) s)).
Proof.
  split; [| split; [done |]].
  - intros k. apply (updateHighScore_max_mono key v s k).
  - intros k. by left.
Qed.

(** Settles the [LedgerStep] of one branch of a handler: a high-score
    update, a generator behind some setters, or setters alone. *)
Ltac ledger :=
  rewrite ?run_bind, ?run_ret; cbn [fst];
  first
    [ apply LedgerStep_max
    | apply LedgerStep_status;
      first
        [ eapply LedgerStep_books; [apply startStatRound_books |]
        | eapply LedgerStep_books; [apply startMoveCompareRound_books |]
        | eapply LedgerStep_books; [apply startTrueFalseRound_books |]
        | eapply LedgerStep_books; [apply startDexRound_books |] ]
    | eapply LedgerStep_books; [apply startStatRound_books |]
    | eapply LedgerStep_books; [apply startMoveCompareRound_books |]
    | eapply LedgerStep_books; [apply startTrueFalseRound_books |]
    | eapply LedgerStep_books; [apply startDexRound_books |]
    | idtac ];
  try (apply LedgerStep_same; [done | done |];
       unfold ScoresNonNeg; simpl; intros (? & ? & ? & ?);
       repeat split; lia).

Lemma resultTimeout_ledger s g : LedgerStep s (resultTimeout s g).1.
Proof.
  unfold resultTimeout.
  destruct (mode s); [ledger | | | | ledger].
  - destruct (left s), (right s), (guess s), (isStatCorrect s); ledger.
  - destruct (left s), (right s), (guess s), (isMoveCompareCorrect s); ledger.
  - destruct (focus s), (guess s), (isTrueFalseCorrect s); ledger.
Qed.

Lemma persistAll_books s k :
  highScore (persistAll s) k = highScore s k
  ∧ localStorage (persistAll s) k
    = (if bool_decide (highScore s k > 0) then Some (highScore s k)
       else localStorage s k)
  ∧ (ScoresNonNeg s → ScoresNonNeg (persistAll s)).
Proof.
  unfold persistAll, persist, ScoresNonNeg.
  destruct k; repeat case_bool_decide; simpl; repeat split; try done;
    repeat case_bool_decide; try done; lia.
Qed.

(** A mount over a store without negative entries starts with books that
    agree with the store. *)
Lemma initialState_agrees storage :
  NonNegStore storage →
  StoreAgrees (initialState storage) ∧ ScoresNonNeg (initialState storage).
Proof.
  intros Hstore. split; [| by repeat split].
  intros k. simpl. split; [| done].
  destruct (storage k) as [v |] eqn:Hk; simpl; [by eapply Hstore | lia].
Qed.

(** A positive high score, once written by the effect of [useHighScore], is
    what a later mount of the page reads back. *)
Lemma persisted_highScore_read_back s k :
  highScore s k > 0 →
  highScore (initialState (localStorage (persist k s))) k = highScore s k.
Proof.
  intros Hpos. unfold persist. rewrite bool_decide_eq_true_2 by done.
  simpl. by rewrite bool_decide_eq_true_2.
Qed.

Section HighScores.
Variable toLowerCase : string → string.

Lemma step_ledger e s g : LedgerStep s (step toLowerCase e s g).1.
Proof.
  destruct e; unfold step.
  - destruct data; ledger.
  - destruct data; ledger.
  - unfold movePoolEffect. destruct (popularMoves s); ledger.
  - unfold readyEffect.
    destruct (_ || _); [ledger |].
    destruct (mode s), (left s), (right s), (focus s); ledger.
  - unfold revealDone.
    destruct (status s), (left s), (right s), (mode s); ledger.
  - case_bool_decide; [apply resultTimeout_ledger | ledger].
  - destruct (dexTimer s); [| ledger].
    unfold dexTimeout. ledger.
  - unfold persist. rewrite run_ret. cbn [fst].
    case_bool_decide as Hpos; [| ledger].
    split; [| split; [done |]].
    + intros k. simpl. lia.
    + intros k. simpl.
      case_bool_decide as Hk; [subst k; right; split; [lia | done] | by left].
  - unfold handleGuess. case_bool_decide; ledger.
  - case_bool_decide; ledger.
  - unfold handleDexSubmit.
    destruct (_ || _); [ledger |].
    destruct (isDexCorrect toLowerCase s); ledger.
  - unfold handleRestart. destruct (mode s); ledger.
  - ledger.
  - destruct pool, (popularMoves s); ledger.
Qed.

Lemma run_highScore_mono es s g k :
  highScore s k ≤ highScore (run toLowerCase es s g).1 k.
Proof.
  revert s g. induction es as [| e es IH]; intros s g; simpl; [lia |].
  rewrite run_bind.
  etrans; [apply (step_ledger e s g) | apply IH].
Qed.

(** Between two events of the page, or across a reload, the books keep
    agreeing with the store and no high score goes down. *)
Lemma pageStep_agrees pe s g :
  StoreAgrees s → ScoresNonNeg s →
  StoreAgrees (pageStep toLowerCase pe s g).1
  ∧ ScoresNonNeg (pageStep toLowerCase pe s g).1
  ∧ ∀ k, highScore s k ≤ highScore (pageStep toLowerCase pe s g).1 k.
Proof.
  intros Hagree Hscores. destruct pe as [e |]; unfold pageStep.
  - rewrite run_bind, run_ret. cbn [fst].
    destruct (step_ledger e s g) as (Hmono & Hsc & Hst).
    set (s1 := (step toLowerCase e s g).1) in *.
    split; [| split].
    + intros k.
      destruct (persistAll_books s1 k) as (-> & -> & _).
      destruct (Hagree k) as [Hpos Hread]. specialize (Hmono k).
      split; [lia |].
      case_bool_decide as Hk; [done |].
      destruct (Hst k) as [Hsame | [Hlt _]]; [rewrite Hsame |]; lia.
    + destruct (persistAll_books s1 KStat) as (_ & _ & Hkeep).
      by apply Hkeep, Hsc.
    + intros k. destruct (persistAll_books s1 k) as (-> & _). apply Hmono.
  - rewrite run_ret. cbn [fst]. split; [| split].
    + intros k. simpl. by destruct (Hagree k) as [Hpos ->].
    + by repeat split.
    + intros k. simpl. destruct (Hagree k) as [_ ->]. lia.
Qed.

Lemma pageRun_agrees pes s g :
  StoreAgrees s → ScoresNonNeg s →
  StoreAgrees (pageRun toLowerCase pes s g).1
  ∧ ScoresNonNeg (pageRun toLowerCase pes s g).1
  ∧ ∀ k, highScore s k ≤ highScore (pageRun toLowerCase pes s g).1 k.
Proof.
  revert s g. induction pes as [| pe pes IH]; intros s g Hagree Hscores;
    simpl.
  - split; [done | split; [done |]]. intros k. lia.
  - rewrite run_bind.
    destruct (pageStep_agrees pe s g Hagree Hscores)
      as (Hagree' & Hscores' & Hmono).
    destruct (IH _ (pageStep toLowerCase pe s g).2 Hagree' Hscores')
      as (? & ? & Hmono').
    split; [done | split; [done |]].
    intros k. etrans; [apply Hmono | apply Hmono'].
Qed.

Lemma pageRun_app pes1 pes2 s g :
  pageRun toLowerCase (pes1 ++ pes2) s g
  = pageRun toLowerCase pes2 (pageRun toLowerCase pes1 s g).1
      (pageRun toLowerCase pes1 s g).2.
Proof.
  revert s g. induction pes1 as [| pe pes1 IH]; intros s g; simpl.
  - done.
  - by rewrite !run_bind, IH.
Qed.

(** C5.  For every mode's key the high score never goes down.  Inside a
    visit of the page this holds from any state and across any sequence of
    events: guesses, submissions, restarts, mode changes, timers, effects.
    Across visits it holds as well, reloads included, when the page was
    first mounted over a store that holds no negative number: the high
    score after a longer history is at least the one after any shorter
    one. *)
Theorem highScore_never_decreases (k : HighScoreKey) :
  (∀ es s g, highScore s k ≤ highScore (run toLowerCase es s g).1 k)
  ∧ (∀ storage earlier later g,
       NonNegStore storage →
       highScore (pageRun toLowerCase earlier (initialState storage) g).1 k
       ≤ highScore
           (pageRun toLowerCase (earlier ++ later) (initialState storage) g).1 k).
Proof.
  split.
  - intros es s g. apply run_highScore_mono.
  - intros storage earlier later g Hstore.
    destruct (initialState_agrees storage Hstore) as [Hagree Hscores].
    destruct (pageRun_agrees earlier _ g Hagree Hscores) as (Hagree' & Hscores' & _).
    rewrite pageRun_app.
    by apply pageRun_agrees.
Qed.
End HighScores.

(** A visit that loses a stat session with a score of 1, then a reload:
    the high score read back is 1. *)
Example highScore_survives_reload :
  highScore
    (pageRun asciiLower
       (InPage <$> [EvLoad (Some [monA; monB]); EvMovePoolEffect;
                    EvModeChange Stat; EvReadyEffect;
                    EvGuess SelRight; EvRevealDone; EvResultTimeout;
                    EvGuess SelRight; EvRevealDone; EvResultTimeout])
       (initialState noStorage) duelScript).1 KStat = 1
  ∧ highScore
      (pageRun asciiLower
         ((InPage <$> [EvLoad (Some [monA; monB]); EvMovePoolEffect;
                       EvModeChange Stat; EvReadyEffect;
                       EvGuess SelRight; EvRevealDone; EvResultTimeout;
                       EvGuess SelRight; EvRevealDone; EvResultTimeout])
          ++ [Reload])
         (initialState noStorage) duelScript).1 KStat = 1.
Proof. by vm_compute. Qed.

(* ================================================================== *)
(** * Stat duel carry-over *)
(* ================================================================== *)

Lemma carry_cases lastKept sel l r :
  (Some (id (winner sel l r)) ≠ lastKept ∧ carry lastKept sel l r = winner sel l r)
  ∨ (Some (id (winner sel l r)) = lastKept ∧ carry lastKept sel l r = loser sel l r).
Proof. unfold carry. case_bool_decide; [by right | by left]. Qed.

Lemma winner_loser_ids sel l r :
  id l ≠ id r → id (winner sel l r) ≠ id (loser sel l r).
Proof. unfold winner, loser. case_bool_decide; [done | by intros ? ?]. Qed.

Section CarryOver.
Variable toLowerCase : string → string.

(** C6, as the code has it.  After a correct stat-duel guess the winner is
    carried over, unless the winner's id is [lastKeptId], in which case
    the loser is.  The id of the creature carried over (not always the
    winner's) becomes the new [lastKeptId], and on a pair of distinct ids
    it differs from the old one.  The creature carried over is the next
    round's [left] whenever the catalog still holds two or more. *)
Theorem stat_carry_over (s : State) (g : Rng) (l r : Pokemon)
    (sel : Selection) :
  status s = Result → mode s = Stat →
  left s = Some l → right s = Some r → guess s = Some sel →
  isStatCorrect s = true →
  lastKeptId (step toLowerCase EvResultTimeout s g).1
    = Some (id (carry (lastKeptId s) sel l r))
  ∧ carry (lastKeptId s) sel l r
    = (if bool_decide (Some (id (winner sel l r)) = lastKeptId s)
       then loser sel l r else winner sel l r)
  ∧ ((2 ≤ length (pokemon s))%nat →
     left (step toLowerCase EvResultTimeout s g).1
       = Some (carry (lastKeptId s) sel l r))
  ∧ (id l ≠ id r → Some (id (carry (lastKeptId s) sel l r)) ≠ lastKeptId s).
Proof.
  intros Hst Hmode Hl Hr Hg Hc.
  unfold step, resultTimeout.
  rewrite bool_decide_eq_true_2 by done.
  rewrite Hmode, Hl, Hr, Hg, Hc.
  rewrite !run_bind, !run_ret. cbn [fst].
  set (c := carry (lastKeptId s) sel l r).
  set (s0 := setLastKeptId (Some (id c)) (setScore (score s + 1) s)).
  split; [| split; [done | split]].
  - destruct (startStatRound_books (Some c) s0 g)
      as (_ & _ & _ & _ & _ & _ & Hkept & _).
    cbn [setStatus lastKeptId]. by rewrite Hkept.
  - intros Hlen.
    destruct (drawStatRound_spec (pokemon s0) (Some c) g Hlen)
      as (nl & r' & st & guard & Hdraw & Hkeep & _).
    unfold startStatRound. rewrite run_bind, Hdraw, run_ret. cbn [fst].
    simpl. f_equal. by apply Hkeep.
  - intros Hids.
    destruct (carry_cases (lastKeptId s) sel l r) as [[Hne Hcarry] | [Heq Hcarry]];
      subst c; rewrite Hcarry; [done |].
    rewrite <- Heq. intros [= Hsame].
    by apply (winner_loser_ids sel l r Hids).
Qed.
End CarryOver.

(* ================================================================== *)
(** * Answer normalisation *)
(* ================================================================== *)

Lemma isLowerAlnum_char c :
  isLowerAlnum c = true →
  (nat_of_ascii c <? 128)%nat = true
  ∧ asciiLowerChar c = c
  ∧ isWhiteSpace c = false.
Proof.
  destruct c as [[] [] [] [] [] [] [] []]; vm_compute; intros H;
    (discriminate H || by repeat split).
Qed.

Lemma replaceNonAlnum_allLowerAlnum s :
  allLowerAlnum (replaceNonAlnum s) = true.
Proof.
  induction s as [| c rest IH]; simpl; [done |].
  destruct (isLowerAlnum c) eqn:Hc; simpl; [| done].
  by rewrite Hc.
Qed.

Lemma allLowerAlnum_isAscii s : allLowerAlnum s = true → isAsciiString s = true.
Proof.
  induction s as [| c rest IH]; simpl; [done |].
  intros [Hc Hrest]%andb_prop.
  destruct (isLowerAlnum_char c Hc) as (-> & _ & _). by apply IH.
Qed.

Lemma allLowerAlnum_asciiLower s : allLowerAlnum s = true → asciiLower s = s.
Proof.
  induction s as [| c rest IH]; simpl; [done |].
  intros [Hc Hrest]%andb_prop.
  destruct (isLowerAlnum_char c Hc) as (_ & -> & _). by rewrite IH.
Qed.

Lemma allLowerAlnum_replace s : allLowerAlnum s = true → replaceNonAlnum s = s.
Proof.
  induction s as [| c rest IH]; simpl; [done |].
  intros [Hc Hrest]%andb_prop. by rewrite Hc, IH.
Qed.

Lemma allLowerAlnum_trimEnd s : allLowerAlnum s = true → trimEnd s = s.
Proof.
  induction s as [| c rest IH]; simpl; [done |].
  intros [Hc Hrest]%andb_prop. rewrite IH by done.
  destruct (isLowerAlnum_char c Hc) as (_ & _ & ->). by destruct rest.
Qed.

Lemma allLowerAlnum_trim s : allLowerAlnum s = true → trim s = s.
Proof.
  intros Hs. unfold trim.
  assert (trimStart s = s) as ->.
  { destruct s as [| c rest]; simpl; [done |].
    apply andb_prop in Hs as [Hc _].
    by destruct (isLowerAlnum_char c Hc) as (_ & _ & ->). }
  by apply allLowerAlnum_trimEnd.
Qed.

Section Normalize.
Variable toLowerCase : string → string.
Hypothesis toLowerCase_ascii : LowersAscii toLowerCase.

(** The result of [normalizeAnswer] holds characters of [[a-z0-9]] only,
    whatever [toLowerCase] does. *)
Lemma normalizeAnswer_allLowerAlnum s :
  allLowerAlnum (normalizeAnswer toLowerCase s) = true
  ∧ normalizeAnswer toLowerCase s = replaceNonAlnum (toLowerCase s).
Proof using Type.
  unfold normalizeAnswer.
  rewrite allLowerAlnum_trim by apply replaceNonAlnum_allLowerAlnum.
  split; [apply replaceNonAlnum_allLowerAlnum | done].
Qed.

Lemma normalizeAnswer_fixes_alnum s :
  allLowerAlnum s = true → normalizeAnswer toLowerCase s = s.
Proof using toLowerCase_ascii.
  intros Hs. unfold normalizeAnswer.
  rewrite toLowerCase_ascii by by apply allLowerAlnum_isAscii.
  rewrite allLowerAlnum_asciiLower, allLowerAlnum_replace by done.
  by apply allLowerAlnum_trim.
Qed.

Lemma normalizeAnswer_ascii s :
  isAsciiString s = true →
  normalizeAnswer toLowerCase s = replaceNonAlnum (asciiLower s).
Proof using toLowerCase_ascii.
  intros Hs. destruct (normalizeAnswer_allLowerAlnum s) as [_ ->].
  by rewrite toLowerCase_ascii.
Qed.
End Normalize.

(** C7.  [normalizeAnswer] is idempotent on every string.  Of an ASCII
    string it keeps exactly the letters and digits, lower-cased, so case and
    punctuation do not matter; in particular ["Mr. Mime"] and ["mr-mime"]
    normalise to the same string. *)
Theorem normalizeAnswer_idempotent (toLowerCase : string → string) :
  LowersAscii toLowerCase →
  (∀ s, normalizeAnswer toLowerCase (normalizeAnswer toLowerCase s)
        = normalizeAnswer toLowerCase s)
  ∧ (∀ s, isAsciiString s = true →
          normalizeAnswer toLowerCase s = replaceNonAlnum (asciiLower s))
  ∧ normalizeAnswer toLowerCase "Mr. Mime" = normalizeAnswer toLowerCase "mr-mime".
Proof.
  intros Hlower. split; [| split].
  - intros s. apply normalizeAnswer_fixes_alnum; [done |].
    apply normalizeAnswer_allLowerAlnum.
  - intros s. by apply normalizeAnswer_ascii.
  - by rewrite !normalizeAnswer_ascii by done.
Qed.

Lemma asciiLower_LowersAscii : LowersAscii asciiLower.
Proof. by intros s _. Qed.

Lemma normalizeAnswer_idempotent_witness :
  (∀ s, normalizeAnswer asciiLower (normalizeAnswer asciiLower s)
        = normalizeAnswer asciiLower s)
  ∧ (∀ s, isAsciiString s = true →
          normalizeAnswer asciiLower s = replaceNonAlnum (asciiLower s))
  ∧ normalizeAnswer asciiLower "Mr. Mime" = normalizeAnswer asciiLower "mr-mime".
Proof.
  apply (normalizeAnswer_idempotent asciiLower). intros s _. reflexivity.
Defined.

(** Spec section 8, property 8: the three spellings validate against
    ["Mr. Mime"], the misspelling does not. *)
Example dex_guess_mr_mime :
  let answered guess :=
    isDexCorrect asciiLower
      (setDexGuess guess (setDexAnswer "Mr. Mime" (sessionOver [] DexGuess))) in
  answered "mr mime" = true ∧ answered "MR-MIME" = true
  ∧ answered "mrmime" = true ∧ answered "mr mimee" = false.
Proof. by vm_compute. Qed.

(* ================================================================== *)
(** * Dex autocomplete *)
(* ================================================================== *)

Section Suggestions.
Variable toLowerCase : string → string.

(** C8, as the code has it.  The autocomplete helper returns at most
    eight names, each the name of a catalog creature whose normalised
    form starts with the normalised partial guess. *)
Theorem dexSuggestions_start_with_guess (s : State) :
  (length (dexSuggestions toLowerCase s) ≤ 8)%nat
  ∧ Forall
      (λ n, ∃ mon, mon ∈ pokemon s ∧ name mon = n
                   ∧ String.prefix (normalizeAnswer toLowerCase (dexGuess s))
                       (normalizeAnswer toLowerCase n) = true)
      (dexSuggestions toLowerCase s).
Proof.
  unfold dexSuggestions.
  destruct (negb _); [split; [simpl; lia | constructor] |].
  split.
  - rewrite length_fmap, length_take. lia.
  - apply Forall_fmap, Forall_take, Forall_forall.
    intros mon [Hpre Hin]%list_elem_of_filter. simpl. by exists mon.
Qed.
End Suggestions.

(** C8 as stated fails: for the partial guess ["pi"] the helper offers
    ["pikachu"], whose normalised form is not a prefix of the guess's (it is
    the other way round). *)
Lemma dexSuggestions_prefix_counterexample :
  dexSuggestions asciiLower
    (setDexGuess "pi" (sessionOver [pikachu; monA] DexGuess)) = ["pikachu"]
  ∧ String.prefix (normalizeAnswer asciiLower "pikachu")
      (normalizeAnswer asciiLower "pi") = false
  ∧ String.prefix (normalizeAnswer asciiLower "pi")
      (normalizeAnswer asciiLower "pikachu") = true.
Proof. by vm_compute. Qed.

(* ================================================================== *)
(** * A played session *)
(* ================================================================== *)

Lemma result_pause_outcome_witness :
  ResultPauseOutcome duelWrongPick rngZero
    (step asciiLower EvResultTimeout duelWrongPick rngZero).1.
Proof. apply (result_pause_outcome asciiLower duelWrongPick rngZero). reflexivity. Defined.

(** C4 as stated fails on a played session.  The statement "[monB] learns
    growl" is answered correctly and the pool is switched to a list that
    names no move of the catalog.  The callback adds one to the score and
    sets the status to ['ready'], but no new round is there: the same
    statement stays with the pick "true" still recorded, and picking
    "true" again scores once more. *)
Lemma result_pause_no_new_round_counterexample :
  let asked := poolSwitched.1 in
  let after := (step asciiLower EvResultTimeout asked poolSwitched.2).1 in
  let again :=
    (run asciiLower [EvGuess SelTrue; EvResultTimeout] after rngZero).1 in
  mode asked = MoveTrueFalse ∧ status asked = Result
  ∧ isTrueFalseCorrect asked = true
  ∧ status after = Ready
  ∧ trueFalseScore asked = 0 ∧ trueFalseScore after = 1
  ∧ focus after = focus asked ∧ focus asked = Some monB
  ∧ moveName after = moveName asked ∧ moveName asked = "growl"%string
  ∧ guess after = Some SelTrue
  ∧ status again = Ready ∧ trueFalseScore again = 2
  ∧ focus again = Some monB ∧ moveName again = "growl"%string.
Proof. by vm_compute. Qed.

(** Spec section 8, property 7, end to end. *)
Example duel_wrong_pick_ends_game :
  isStatCorrect duelWrongPick = false
  ∧ isStatCorrect (setGuess (Some SelRight) duelWrongPick) = true
  ∧ status (step asciiLower EvResultTimeout duelWrongPick rngZero).1 = GameOver
  ∧ highScore (step asciiLower EvResultTimeout duelWrongPick rngZero).1 KStat = 3.
Proof. by vm_compute. Qed.

Lemma stat_carry_over_witness :
  lastKeptId (step asciiLower EvResultTimeout duelRound2Result duelRound2Rng).1
    = Some (id (carry (lastKeptId duelRound2Result) SelLeft monB monA))
  ∧ carry (lastKeptId duelRound2Result) SelLeft monB monA
    = (if bool_decide
            (Some (id (winner SelLeft monB monA)) = lastKeptId duelRound2Result)
       then loser SelLeft monB monA else winner SelLeft monB monA)
  ∧ ((2 ≤ length (pokemon duelRound2Result))%nat →
     left (step asciiLower EvResultTimeout duelRound2Result duelRound2Rng).1
       = Some (carry (lastKeptId duelRound2Result) SelLeft monB monA))
  ∧ (id monB ≠ id monA →
     Some (id (carry (lastKeptId duelRound2Result) SelLeft monB monA))
     ≠ lastKeptId duelRound2Result).
Proof.
  apply (stat_carry_over asciiLower duelRound2Result duelRound2Rng monB monA
           SelLeft); reflexivity.
Defined.

(** C6 as stated fails on a played session.  Round 2 presents the pair of
    round 1 again, and so does round 3.  After the correct guess on round 2
    the winner is [monB] (id 2), yet the new [lastKeptId] is the loser's
    id 1. *)
Lemma stat_carry_counterexample :
  let round1 := (run asciiLower [EvReadyEffect] duelStart duelScript).1 in
  let round2 := duelRound2Result in
  let round3 :=
    (step asciiLower EvResultTimeout duelRound2Result duelRound2Rng).1 in
  (id <$> left round1, id <$> right round1) = (Some 1, Some 2)
  ∧ (id <$> left round2, id <$> right round2) = (Some 2, Some 1)
  ∧ (id <$> left round3, id <$> right round3) = (Some 1, Some 2)
  ∧ status round2 = Result ∧ isStatCorrect round2 = true
  ∧ guess round2 = Some SelLeft
  ∧ id (winner SelLeft monB monA) = 2
  ∧ lastKeptId round2 = Some 2
  ∧ lastKeptId round3 = Some 1
  ∧ status round3 = Ready.
Proof. by vm_compute. Qed.

(* ================================================================== *)
(** * Score resets *)
(* ================================================================== *)

(** [handleRestart] puts the active mode's score back to 0. *)
Lemma handleRestart_resets_score (s : State) (g : Rng) :
  activeScore (handleRestart s g).1 = 0
  ∧ status (handleRestart s g).1 = Ready.
Proof.
  unfold handleRestart, activeScore.
  destruct (mode s) eqn:Hmode.
  - rewrite run_ret. simpl. by rewrite Hmode.
  - destruct (startStatRound_books None
                (setLastKeptId None
                   (setScore 0 (setDexTimer false (setGuess None (setStatus Ready s)))))
                g) as (-> & _ & -> & _).
    simpl. rewrite Hmode. split; [done |].
    unfold startStatRound. rewrite run_bind, run_ret. cbn [fst].
    by destruct ((drawStatRound _ _ _).1).
  - destruct (startMoveCompareRound_books
                (setCompareScore 0
                   (setDexTimer false (setGuess None (setStatus Ready s))))
                g) as (-> & _ & _ & -> & _).
    simpl. rewrite Hmode. split; [done |].
    unfold startMoveCompareRound. rewrite run_bind, run_ret. cbn [fst].
    by destruct ((drawMoveCompareRound _ _ _).1).
  - destruct (startTrueFalseRound_books
                (setTrueFalseScore 0
                   (setDexTimer false (setGuess None (setStatus Ready s))))
                g) as (-> & _ & _ & _ & -> & _).
    simpl. rewrite Hmode. split; [done |].
    unfold startTrueFalseRound. rewrite run_bind, run_ret. cbn [fst].
    by destruct ((drawTrueFalseRound _ _ _).1).
  - destruct (startDexRound_books
                (setDexScore 0
                   (setDexTimer false (setGuess None (setStatus Ready s))))
                g) as (-> & _ & _ & _ & _ & -> & _).
    simpl. rewrite Hmode. split; [done |].
    unfold startDexRound. rewrite run_bind, run_ret. cbn [fst].
    by destruct ((pickDexPokemon _ _).1).
Qed.

(** [handleModeChange] writes none of the four scores. *)
Lemma handleModeChange_keeps_scores (nextMode : Mode) (s : State) :
  score (handleModeChange nextMode s) = score s
  ∧ compareScore (handleModeChange nextMode s) = compareScore s
  ∧ trueFalseScore (handleModeChange nextMode s) = trueFalseScore s
  ∧ dexScore (handleModeChange nextMode s) = dexScore s
  ∧ lastKeptId (handleModeChange nextMode s) = lastKeptId s.
Proof. done. Qed.

(** C9 at its failing input: a stat session is lost with a score of 1, left
    for the menu and entered again.  The session is playable again and its
    score is still 1, not 0; one more correct guess makes it 2, and the next
    miss records a high score of 2 for a player who never had two correct
    guesses in a row.  [handleRestart], from the same lost session, does
    put the score back to 0. *)
Lemma mode_entry_keeps_score_after_gameover :
  status duelLost.1 = GameOver
  ∧ activeScore duelLost.1 = 1 ∧ highScore duelLost.1 KStat = 1
  ∧ mode duelEnteredAgain.1 = Stat ∧ status duelEnteredAgain.1 = Ready
  ∧ (id <$> left duelEnteredAgain.1, id <$> right duelEnteredAgain.1)
    = (Some 2, Some 1)
  ∧ activeScore duelEnteredAgain.1 = 1
  ∧ status duelWonAgain.1 = Ready ∧ activeScore duelWonAgain.1 = 2
  ∧ status duelLostAgain.1 = GameOver ∧ highScore duelLostAgain.1 KStat = 2
  ∧ activeScore (handleRestart duelLost.1 duelLost.2).1 = 0.
Proof. by vm_compute. Qed.

(* ================================================================== *)
(** * Guesses outside ['ready'] *)
(* ================================================================== *)

Section Guards.
Variable toLowerCase : string → string.

(** C10.  While the status is not ['ready'], [handleGuess] and
    [handleDexSubmit] change no cell at all: status, scores, round and
    guess stay as they are, and no random draw is consumed. *)
Theorem guess_ignored_unless_ready (selection : Selection) (s : State)
    (g : Rng) :
  status s ≠ Ready →
  handleGuess selection s = s
  ∧ handleDexSubmit toLowerCase s = s
  ∧ step toLowerCase (EvGuess selection) s g = (s, g)
  ∧ step toLowerCase EvDexSubmit s g = (s, g).
Proof.
  intros Hst.
  assert (handleGuess selection s = s) as Hguess.
  { unfold handleGuess. by rewrite bool_decide_eq_true_2. }
  assert (handleDexSubmit toLowerCase s = s) as Hdex.
  { unfold handleDexSubmit.
    rewrite (bool_decide_eq_true_2 (status s ≠ Ready)) by done.
    by rewrite orb_true_r. }
  unfold step. by rewrite Hguess, Hdex.
Qed.
End Guards.

Lemma guess_ignored_unless_ready_witness :
  handleGuess SelRight duelWrongPick = duelWrongPick
  ∧ handleDexSubmit asciiLower duelWrongPick = duelWrongPick
  ∧ step asciiLower (EvGuess SelRight) duelWrongPick rngZero
    = (duelWrongPick, rngZero)
  ∧ step asciiLower EvDexSubmit duelWrongPick rngZero = (duelWrongPick, rngZero).
Proof.
  apply (guess_ignored_unless_ready asciiLower SelRight duelWrongPick rngZero).
  vm_compute. discriminate.
Defined.

(* ================================================================== *)
(** * The sampler, draw by draw *)
(* ================================================================== *)

Lemma randomElement_cursor {A} (arr : list A) g :
  cursor (randomElement arr g).2 = S (cursor g).
Proof. done. Qed.

Lemma pickRandomPokemon_loop_draws pokemon first excludeId fuel candidate g :
  (cursor g
   ≤ cursor (pickRandomPokemon_loop pokemon first excludeId fuel candidate g).2
   ≤ cursor g + fuel)%nat
  ∧ (truthyNumber excludeId = true →
     (cursor (pickRandomPokemon_loop pokemon first excludeId fuel candidate g).2
      < cursor g + fuel)%nat →
     Some (id (pickRandomPokemon_loop pokemon first excludeId fuel candidate g).1)
     ≠ excludeId)
  ∧ (truthyNumber excludeId = false →
     pickRandomPokemon_loop pokemon first excludeId fuel candidate g
     = (candidate, g)).
Proof.
  revert candidate g.
  induction fuel as [| fuel IH]; intros candidate g;
    cbn [pickRandomPokemon_loop].
  - rewrite run_ret. cbn [fst snd]. split; [lia |]. split; [intros; lia | done].
  - destruct (truthyNumber excludeId) eqn:Htruthy; cbn [andb].
    + case_bool_decide as Heq.
      * rewrite run_bind.
        destruct (IH (default first (randomElement pokemon g).1)
                    (randomElement pokemon g).2) as (Hc & Hne & _).
        rewrite randomElement_cursor in Hc, Hne.
        split; [lia |]. split; [| done].
        intros _ Hlt. apply Hne; [done | lia].
      * rewrite run_ret. cbn [fst snd]. split; [lia |]. by split.
    + rewrite run_ret. cbn [fst snd]. split; [lia |]. by split.
Qed.

(** [pickRandomPokemon] on a non-empty catalog: the result is a catalog
    member, found in at most 41 draws.  When an id is to be avoided and
    fewer than 41 draws were needed, the result avoids it; with 41 draws
    the last one is returned whatever its id.  An [excludeId] that is
    missing or 0 is not avoided at all: one draw, returned as it is. *)
Theorem pickRandomPokemon_within_41_draws
    (pokemon : list Pokemon) (excludeId : option Z) (g : Rng) :
  pokemon ≠ [] →
  ∃ p,
    (pickRandomPokemon pokemon excludeId g).1 = Some p
    ∧ p ∈ pokemon
    ∧ (cursor g < cursor (pickRandomPokemon pokemon excludeId g).2
       ≤ cursor g + 41)%nat
    ∧ (truthyNumber excludeId = true →
       (cursor (pickRandomPokemon pokemon excludeId g).2 < cursor g + 41)%nat →
       Some (id p) ≠ excludeId)
    ∧ (truthyNumber excludeId = false →
       cursor (pickRandomPokemon pokemon excludeId g).2 = S (cursor g)).
Proof.
  intros Hne.
  destruct (pickRandomPokemon_Some pokemon excludeId g Hne) as (p & Hp & Hin).
  exists p. split; [done |]. split; [done |].
  revert Hp. unfold pickRandomPokemon.
  destruct pokemon as [| first rest]; [done |].
  rewrite !run_bind, run_ret. cbn [fst snd].
  set (c := default first (randomElement (first :: rest) g).1).
  set (g1 := (randomElement (first :: rest) g).2).
  destruct (pickRandomPokemon_loop_draws (first :: rest) first excludeId 40
              c g1) as (Hc & Hav & Hnone).
  assert (cursor g1 = S (cursor g)) as Hg1 by done.
  intros [= <-]. split; [lia |]. split.
  - intros Ht Hlt. apply Hav; [done | lia].
  - intros Hf. by rewrite (Hnone Hf).
Qed.

Lemma pickRandomPokemon_within_41_draws_witness :
  ∃ p,
    (pickRandomPokemon [monA; monB] (Some 1%Z) rngZeroThenHalf).1 = Some p
    ∧ p ∈ [monA; monB]
    ∧ (cursor rngZeroThenHalf
       < cursor (pickRandomPokemon [monA; monB] (Some 1%Z) rngZeroThenHalf).2
       ≤ cursor rngZeroThenHalf + 41)%nat
    ∧ (truthyNumber (Some 1%Z) = true →
       (cursor (pickRandomPokemon [monA; monB] (Some 1%Z) rngZeroThenHalf).2
        < cursor rngZeroThenHalf + 41)%nat →
       Some (id p) ≠ Some 1%Z)
    ∧ (truthyNumber (Some 1%Z) = false →
       cursor (pickRandomPokemon [monA; monB] (Some 1%Z) rngZeroThenHalf).2
       = S (cursor rngZeroThenHalf)).
Proof.
  apply (pickRandomPokemon_within_41_draws [monA; monB] (Some 1%Z)
           rngZeroThenHalf).
  discriminate.
Defined.

(** The guard is hit: asked to avoid the only id there is, the sampler
    returns it after 41 draws. *)
Example pickRandomPokemon_guard_exhausted :
  (pickRandomPokemon [monA] (Some 1%Z) rngZero).1 = Some monA
  ∧ cursor (pickRandomPokemon [monA] (Some 1%Z) rngZero).2 = 41%nat.
Proof. by vm_compute. Qed.

Lemma pickDexPokemon_loop_draws pokemon fuel candidate g :
  (cursor g ≤ cursor (pickDexPokemon_loop pokemon fuel candidate g).2
   ≤ cursor g + fuel)%nat
  ∧ ((cursor (pickDexPokemon_loop pokemon fuel candidate g).2
      < cursor g + fuel)%nat →
     truthyOptString
       ((pickDexPokemon_loop pokemon fuel candidate g).1 ≫= flavorText) = true).
Proof.
  revert candidate g.
  induction fuel as [| fuel IH]; intros candidate g;
    cbn [pickDexPokemon_loop].
  - rewrite run_ret. cbn [fst snd]. split; [lia | intros; lia].
  - destruct (truthyOptString (candidate ≫= flavorText)) eqn:Hflavor;
      cbn [negb].
    + rewrite run_ret. cbn [fst snd]. split; [lia | done].
    + rewrite run_bind.
      destruct (IH (randomElement pokemon g).1 (randomElement pokemon g).2)
        as (Hc & Hfl).
      rewrite randomElement_cursor in Hc, Hfl.
      split; [lia |]. intros Hlt. apply Hfl. lia.
Qed.

Lemma pickDexPokemon_loop_elem pokemon fuel candidate g p :
  (∀ c, candidate = Some c → c ∈ pokemon) →
  (pickDexPokemon_loop pokemon fuel candidate g).1 = Some p → p ∈ pokemon.
Proof.
  revert candidate g.
  induction fuel as [| fuel IH]; intros candidate g Hc;
    cbn [pickDexPokemon_loop].
  - rewrite run_ret. cbn [fst]. apply Hc.
  - destruct (negb _).
    + rewrite run_bind. apply IH. intros c. apply randomElement_elem.
    + rewrite run_ret. cbn [fst]. apply Hc.
Qed.

Lemma pickDexPokemon_loop_Some pokemon fuel candidate g :
  pokemon ≠ [] → is_Some candidate →
  is_Some (pickDexPokemon_loop pokemon fuel candidate g).1.
Proof.
  intros Hne. revert candidate g.
  induction fuel as [| fuel IH]; intros candidate g Hc;
    cbn [pickDexPokemon_loop].
  - by rewrite run_ret.
  - destruct (negb _).
    + rewrite run_bind. apply IH.
      destruct (randomElement_in_range pokemon g Hne) as (x & -> & _).
      by eexists.
    + by rewrite run_ret.
Qed.

Lemma pickDexPokemon_spec (pokemon : list Pokemon) (g : Rng) :
  pokemon ≠ [] →
  ∃ p,
    (pickDexPokemon pokemon g).1 = Some p
    ∧ p ∈ pokemon
    ∧ (cursor g < cursor (pickDexPokemon pokemon g).2 ≤ cursor g + 41)%nat
    ∧ ((cursor (pickDexPokemon pokemon g).2 < cursor g + 41)%nat →
       truthyOptString (flavorText p) = true).
Proof.
  intros Hne. unfold pickDexPokemon.
  destruct pokemon as [| first rest]; [done |].
  rewrite run_bind.
  set (c := (randomElement (first :: rest) g).1).
  set (g1 := (randomElement (first :: rest) g).2).
  assert (cursor g1 = S (cursor g)) as Hg1 by done.
  assert (is_Some c) as Hc.
  { destruct (randomElement_in_range (first :: rest) g Hne) as (x & Hx & _).
    subst c. rewrite Hx. by eexists. }
  destruct (pickDexPokemon_loop_Some (first :: rest) 40 c g1 Hne Hc) as [p Hp].
  pose proof (pickDexPokemon_loop_elem (first :: rest) 40 c g1 p
                (λ x, randomElement_elem (first :: rest) g x) Hp) as Hin.
  destruct (pickDexPokemon_loop_draws (first :: rest) 40 c g1) as (Hcur & Hfl).
  rewrite Hp in Hfl |- *. exists p. cbn [mbind option_bind] in Hfl.
  split; [done |]. split; [done |].
  split; [lia |].
  intros Hlt. apply Hfl. lia.
Qed.

(** [startDexRound] on a non-empty catalog: a catalog member becomes the
    focus, its name the expected answer, the typed guess is cleared and the
    status is ['ready'].  At most 41 draws are made, and when fewer were
    needed the focus has a flavor text to show; with 41 draws the last
    creature drawn is shown, flavor text or not. *)
Theorem startDexRound_shows_entry (s : State) (g : Rng) :
  pokemon s ≠ [] →
  ∃ p,
    focus (startDexRound s g).1 = Some p
    ∧ p ∈ pokemon s
    ∧ dexAnswer (startDexRound s g).1 = name p
    ∧ dexGuess (startDexRound s g).1 = ""
    ∧ guess (startDexRound s g).1 = None
    ∧ status (startDexRound s g).1 = Ready
    ∧ (cursor g < cursor (startDexRound s g).2 ≤ cursor g + 41)%nat
    ∧ ((cursor (startDexRound s g).2 < cursor g + 41)%nat →
       truthyOptString (flavorText p) = true).
Proof.
  intros Hne.
  destruct (pickDexPokemon_spec (pokemon s) g Hne)
    as (p & Hpick & Hin & Hdraws & Hflavor).
  unfold startDexRound. rewrite run_bind, run_ret, Hpick. cbn [fst snd].
  exists p. split; [done |]. split; [done |].
  do 4 (split; [done |]).
  split; [exact Hdraws | exact Hflavor].
Qed.

Lemma startDexRound_shows_entry_witness :
  ∃ p,
    focus (startDexRound (sessionOver [pikachu] DexGuess) rngZero).1 = Some p
    ∧ p ∈ pokemon (sessionOver [pikachu] DexGuess)
    ∧ dexAnswer (startDexRound (sessionOver [pikachu] DexGuess) rngZero).1
      = name p
    ∧ dexGuess (startDexRound (sessionOver [pikachu] DexGuess) rngZero).1 = ""
    ∧ guess (startDexRound (sessionOver [pikachu] DexGuess) rngZero).1 = None
    ∧ status (startDexRound (sessionOver [pikachu] DexGuess) rngZero).1 = Ready
    ∧ (cursor rngZero
       < cursor (startDexRound (sessionOver [pikachu] DexGuess) rngZero).2
       ≤ cursor rngZero + 41)%nat
    ∧ ((cursor (startDexRound (sessionOver [pikachu] DexGuess) rngZero).2
        < cursor rngZero + 41)%nat →
       truthyOptString (flavorText p) = true).
Proof.
  apply (startDexRound_shows_entry (sessionOver [pikachu] DexGuess) rngZero).
  discriminate.
Defined.

(** The guard is hit: no creature of this catalog has a flavor text, and
    after 41 draws one of them is shown with nothing to read. *)
Example startDexRound_without_flavor_text :
  focus (startDexRound (sessionOver [monA; monB] DexGuess) rngZero).1
  = Some monA
  ∧ flavorText monA = None
  ∧ cursor (startDexRound (sessionOver [monA; monB] DexGuess) rngZero).2
    = 41%nat.
Proof. by vm_compute. Qed.

(** [pickMoveFrom]: on an empty pool the result is the empty string and no
    draw is made; otherwise one draw picks a member of the pool.  For a
    creature without an empty move name, the empty string therefore means
    exactly that no move of the creature passes the filter. *)
Theorem pickMoveFrom_empty_iff_no_move
    (mon : Pokemon) (moveSet : option (gset string)) (g : Rng) :
  (filteredMoves mon moveSet = [] → pickMoveFrom mon moveSet g = (""%string, g))
  ∧ (filteredMoves mon moveSet ≠ [] →
     (pickMoveFrom mon moveSet g).1 ∈ filteredMoves mon moveSet
     ∧ cursor (pickMoveFrom mon moveSet g).2 = S (cursor g))
  ∧ (knowsNoEmptyMove mon →
     ((pickMoveFrom mon moveSet g).1 = ""%string
      ↔ filteredMoves mon moveSet = [])).
Proof.
  assert (filteredMoves mon moveSet ≠ [] →
          (pickMoveFrom mon moveSet g).1 ∈ filteredMoves mon moveSet
          ∧ cursor (pickMoveFrom mon moveSet g).2 = S (cursor g)) as Hpick.
  { unfold pickMoveFrom. fold (filteredMoves mon moveSet).
    destruct (filteredMoves mon moveSet) as [| m0 rest] eqn:Hpool; [done |].
    intros Hne. rewrite run_bind, run_ret. cbn [fst snd].
    destruct (randomElement_in_range (m0 :: rest) g Hne) as (x & Hx & Hin).
    rewrite Hx. by split. }
  assert (filteredMoves mon moveSet = [] →
          pickMoveFrom mon moveSet g = (""%string, g)) as Hempty.
  { unfold pickMoveFrom. fold (filteredMoves mon moveSet). by intros ->. }
  split; [done |]. split; [done |].
  intros Hmon. split.
  - intros Hres.
    destruct (decide (filteredMoves mon moveSet = [])) as [| Hne]; [done |].
    destruct (Hpick Hne) as [Hin _]. rewrite Hres in Hin.
    exfalso. apply Hmon.
    unfold filteredMoves in Hin. destruct moveSet; [| done].
    by apply list_elem_of_filter in Hin as [_ ?].
  - intros Hpool. by rewrite (Hempty Hpool).
Qed.

(* ================================================================== *)
(** * One correct answer at most *)
(* ================================================================== *)

(** [isStatCorrect] on a displayed duel: picking [left] is correct exactly
    when the left value is strictly larger, picking [right] exactly when
    the right one is.  So one side is correct when the values differ, and
    no pick at all is correct when they are equal. *)
Theorem isStatCorrect_larger_side (s : State) (l r : Pokemon) :
  left s = Some l → right s = Some r →
  isStatCorrect (setGuess (Some SelLeft) s)
    = bool_decide (stats l (stat s) > stats r (stat s))
  ∧ isStatCorrect (setGuess (Some SelRight) s)
    = bool_decide (stats r (stat s) > stats l (stat s))
  ∧ (stats l (stat s) ≠ stats r (stat s) →
     isStatCorrect (setGuess (Some SelLeft) s)
     = negb (isStatCorrect (setGuess (Some SelRight) s)))
  ∧ (stats l (stat s) = stats r (stat s) →
     ∀ selection, isStatCorrect (setGuess (Some selection) s) = false)
  ∧ isStatCorrect (setGuess None s) = false.
Proof.
  intros Hl Hr.
  unfold isStatCorrect, currentLeftValue, currentRightValue.
  simpl. rewrite Hl, Hr.
  set (lv := stats l (stat s)). set (rv := stats r (stat s)).
  repeat split.
  - repeat case_bool_decide; try done; lia.
  - repeat case_bool_decide; try done; lia.
  - intros Hne. repeat case_bool_decide; try done; lia.
  - intros Heq selection. by rewrite (bool_decide_eq_true_2 (lv = rv)).
Qed.

Lemma isStatCorrect_larger_side_witness :
  isStatCorrect (setGuess (Some SelLeft) duelWrongPick)
    = bool_decide (stats monA (stat duelWrongPick)
                   > stats monB (stat duelWrongPick))
  ∧ isStatCorrect (setGuess (Some SelRight) duelWrongPick)
    = bool_decide (stats monB (stat duelWrongPick)
                   > stats monA (stat duelWrongPick))
  ∧ (stats monA (stat duelWrongPick) ≠ stats monB (stat duelWrongPick) →
     isStatCorrect (setGuess (Some SelLeft) duelWrongPick)
     = negb (isStatCorrect (setGuess (Some SelRight) duelWrongPick)))
  ∧ (stats monA (stat duelWrongPick) = stats monB (stat duelWrongPick) →
     ∀ selection,
       isStatCorrect (setGuess (Some selection) duelWrongPick) = false)
  ∧ isStatCorrect (setGuess None duelWrongPick) = false.
Proof.
  apply (isStatCorrect_larger_side duelWrongPick monA monB); reflexivity.
Defined.

(** [isMoveCompareCorrect] on a displayed move match: a pick is correct
    exactly when the picked creature knows the move and the other one does
    not.  When both know it, or neither, no pick is correct. *)
Theorem isMoveCompareCorrect_sole_owner (s : State) (l r : Pokemon) :
  left s = Some l → right s = Some r → truthyString (moveName s) = true →
  isMoveCompareCorrect (setGuess (Some SelLeft) s)
    = includes (moves l) (moveName s) && negb (includes (moves r) (moveName s))
  ∧ isMoveCompareCorrect (setGuess (Some SelRight) s)
    = includes (moves r) (moveName s) && negb (includes (moves l) (moveName s))
  ∧ (includes (moves l) (moveName s) = includes (moves r) (moveName s) →
     ∀ selection, isMoveCompareCorrect (setGuess (Some selection) s) = false).
Proof.
  intros Hl Hr Hmove.
  unfold isMoveCompareCorrect. simpl. rewrite Hl, Hr, Hmove. simpl.
  destruct (includes (moves l) (moveName s)),
           (includes (moves r) (moveName s)); simpl; repeat split; try done;
    intros _ selection; done.
Qed.

Lemma isMoveCompareCorrect_sole_owner_witness :
  isMoveCompareCorrect
    (setGuess (Some SelLeft)
       (startMoveCompareRound (sessionOver [plusle; minun] MoveCompare)
          rngZeroThenHalf).1)
    = includes (moves plusle) "spark" && negb (includes (moves minun) "spark")
  ∧ isMoveCompareCorrect
      (setGuess (Some SelRight)
         (startMoveCompareRound (sessionOver [plusle; minun] MoveCompare)
            rngZeroThenHalf).1)
    = includes (moves minun) "spark" && negb (includes (moves plusle) "spark")
  ∧ (includes (moves plusle) "spark" = includes (moves minun) "spark" →
     ∀ selection,
       isMoveCompareCorrect
         (setGuess (Some selection)
            (startMoveCompareRound (sessionOver [plusle; minun] MoveCompare)
               rngZeroThenHalf).1) = false).
Proof.
  apply (isMoveCompareCorrect_sole_owner
           (startMoveCompareRound (sessionOver [plusle; minun] MoveCompare)
              rngZeroThenHalf).1 plusle minun); reflexivity.
Defined.

(* ================================================================== *)
(** * A stat duel from pick to verdict *)
(* ================================================================== *)

Lemma run_cons toLowerCase e es s g :
  run toLowerCase (e :: es) s g
  = run toLowerCase es (step toLowerCase e s g).1 (step toLowerCase e s g).2.
Proof. cbn [run]. by rewrite run_bind. Qed.

Section PlayedRound.
Variable toLowerCase : string → string.

(** A pick on a displayed duel, the end of the reveal and the result pause,
    one after the other.  If the picked side has the strictly larger value
    the session is back in ['ready'] with the score up by one and the high
    score untouched.  Otherwise, ties included, the game is over: the score
    stays, the high score becomes the larger of itself and the score, and
    the lost duel stays on display. *)
Theorem stat_duel_played (s : State) (g : Rng) (l r : Pokemon)
    (selection : Selection) :
  mode s = Stat → status s = Ready → left s = Some l → right s = Some r →
  if (if bool_decide (selection = SelLeft)
      then bool_decide (stats l (stat s) > stats r (stat s))
      else bool_decide (stats r (stat s) > stats l (stat s)))
  then status (run toLowerCase
                 [EvGuess selection; EvRevealDone; EvResultTimeout] s g).1
       = Ready
       ∧ score (run toLowerCase
                  [EvGuess selection; EvRevealDone; EvResultTimeout] s g).1
         = score s + 1
       ∧ highScore (run toLowerCase
                      [EvGuess selection; EvRevealDone; EvResultTimeout] s g).1
         = highScore s
  else run toLowerCase [EvGuess selection; EvRevealDone; EvResultTimeout] s g
       = (setStatus GameOver
            (updateHighScore KStat (λ prev, Z.max prev (score s))
               (setStatus Result
                  (setStatus Revealing (setGuess (Some selection) s)))),
          g).
Proof.
  intros Hmode Hst Hl Hr.
  set (s1 := setStatus Revealing (setGuess (Some selection) s)).
  set (s2 := setStatus Result s1).
  assert (step toLowerCase (EvGuess selection) s g = (s1, g)) as Hguess.
  { unfold step, handleGuess. rewrite run_ret.
    rewrite (bool_decide_eq_false_2 (status s ≠ Ready)) by
      (by intros H; apply H).
    by rewrite (bool_decide_eq_true_2 (mode s = Stat)). }
  assert (step toLowerCase EvRevealDone s1 g = (s2, g)) as Hreveal.
  { unfold step, revealDone. rewrite run_ret. simpl. by rewrite Hl, Hr, Hmode. }
  rewrite !run_cons, Hguess. cbn [fst snd]. rewrite Hreveal. cbn [fst snd].
  cbn [run]. rewrite run_ret.
  assert (∀ x : State * Rng, (x.1, x.2) = x) as Hpair by (by intros []).
  rewrite Hpair.
  unfold step. rewrite (bool_decide_eq_true_2 (status s2 = Result)) by done.
  unfold resultTimeout. simpl. rewrite Hmode, Hl, Hr.
  assert (isStatCorrect s2
          = (if bool_decide (selection = SelLeft)
             then bool_decide (stats l (stat s) > stats r (stat s))
             else bool_decide (stats r (stat s) > stats l (stat s)))) as ->.
  { unfold isStatCorrect, currentLeftValue, currentRightValue. simpl.
    rewrite Hl, Hr. repeat case_bool_decide; try done; lia. }
  destruct (if bool_decide (selection = SelLeft) then _ else _).
  - rewrite !run_bind, !run_ret. cbn [fst snd].
    match goal with
    | |- context [startStatRound ?k ?s0 g] =>
        destruct (startStatRound_books k s0 g)
          as (_ & _ & Hscore & _ & _ & _ & _ & Hhs & _);
        assert (status (setStatus Ready (startStatRound k s0 g).1) = Ready)
          as Hready by done
    end.
    simpl in Hscore, Hhs.
    split; [done |]. split; [simpl; by rewrite Hscore | simpl; by rewrite Hhs].
  - done.
Qed.
End PlayedRound.

Lemma stat_duel_played_witness :
  if (if bool_decide (SelRight = SelLeft)
      then bool_decide (stats monA (stat (setStatus Ready duelWrongPick))
                        > stats monB (stat (setStatus Ready duelWrongPick)))
      else bool_decide (stats monB (stat (setStatus Ready duelWrongPick))
                        > stats monA (stat (setStatus Ready duelWrongPick))))
  then status (run asciiLower
                 [EvGuess SelRight; EvRevealDone; EvResultTimeout]
                 (setStatus Ready duelWrongPick) rngZeroThenHalf).1
       = Ready
       ∧ score (run asciiLower
                  [EvGuess SelRight; EvRevealDone; EvResultTimeout]
                  (setStatus Ready duelWrongPick) rngZeroThenHalf).1
         = score (setStatus Ready duelWrongPick) + 1
       ∧ highScore (run asciiLower
                      [EvGuess SelRight; EvRevealDone; EvResultTimeout]
                      (setStatus Ready duelWrongPick) rngZeroThenHalf).1
         = highScore (setStatus Ready duelWrongPick)
  else run asciiLower [EvGuess SelRight; EvRevealDone; EvResultTimeout]
         (setStatus Ready duelWrongPick) rngZeroThenHalf
       = (setStatus GameOver
            (updateHighScore KStat
               (λ prev, Z.max prev (score (setStatus Ready duelWrongPick)))
               (setStatus Result
                  (setStatus Revealing
                     (setGuess (Some SelRight)
                        (setStatus Ready duelWrongPick))))),
          rngZeroThenHalf).
Proof.
  apply (stat_duel_played asciiLower (setStatus Ready duelWrongPick)
           rngZeroThenHalf monA monB SelRight); reflexivity.
Defined.

(* ================================================================== *)
(** * More on the move generators *)
(* ================================================================== *)

Lemma startTrueFalseRound_loop_origin pokemon moveSet fuel g round :
  (startTrueFalseRound_loop pokemon moveSet fuel g).1 = Some round →
  tf_focus round ∈ pokemon
  ∧ (∀ set, moveSet = Some set → tf_move round ∈ set)
  ∧ (tf_isTrue round = false →
     ∃ other, other ∈ pokemon ∧ tf_move round ∈ moves other).
Proof.
  revert g. induction fuel as [| fuel IH]; intros g;
    cbn [startTrueFalseRound_loop]; [done |].
  rewrite run_bind.
  destruct ((pickRandomPokemon pokemon None g).1) as [pick |] eqn:Hpick;
    [| done].
  apply pickRandomPokemon_elem in Hpick.
  rewrite run_bind.
  set (g1 := (pickRandomPokemon pokemon None g).2).
  destruct (truthyString (pickMoveFrom pick moveSet g1).1) eqn:Htruthy;
    cbn [negb]; [| apply IH].
  destruct (pickMoveFrom_truthy pick moveSet g1 Htruthy) as [_ Hset].
  rewrite run_bind.
  destruct ((randomAboveHalf (pickMoveFrom pick moveSet g1).2).1).
  - rewrite run_ret. cbn [fst]. intros [= <-]. cbn [tf_move tf_focus tf_isTrue].
    by repeat split.
  - rewrite run_bind.
    match goal with
    | |- context [pickRandomPokemon pokemon (Some (id pick)) ?g2] =>
        destruct (pickRandomPokemon pokemon (Some (id pick)) g2)
          as [[other |] g3] eqn:Hother
    end; cbn [fst snd]; [| apply IH].
    assert (other ∈ pokemon) as Hin.
    { eapply pickRandomPokemon_elem. by erewrite Hother. }
    rewrite run_bind.
    destruct (truthyString (pickMoveFrom other moveSet g3).1) eqn:Hfalse;
      cbn [negb orb]; [| apply IH].
    destruct (pickMoveFrom_truthy other moveSet g3 Hfalse) as [Hmem Hset'].
    destruct (includes (moves pick) (pickMoveFrom other moveSet g3).1);
      [apply IH |].
    rewrite run_ret. cbn [fst]. intros [= <-]. cbn [tf_move tf_focus tf_isTrue].
    split; [done |]. split; [done |]. intros _. by exists other.
Qed.

(** Where the statements of a true/false round come from.  The focus is a
    catalog member and the move passes the active filter.  A false
    statement names a move that another catalog creature does know; so on
    a catalog of a single creature only true statements are made. *)
Theorem truefalse_false_statement_is_borrowed
    (s : State) (g : Rng) (round : TrueFalseRound) :
  (drawTrueFalseRound (pokemon s) (activeMoveSet s) g).1 = Some round →
  tf_focus round ∈ pokemon s
  ∧ (∀ set, activeMoveSet s = Some set → tf_move round ∈ set)
  ∧ (tf_isTrue round = false →
     ∃ other, other ∈ pokemon s ∧ other ≠ tf_focus round
              ∧ tf_move round ∈ moves other)
  ∧ (length (pokemon s) = 1%nat → tf_isTrue round = true).
Proof.
  intros Hdraw. unfold drawTrueFalseRound in Hdraw.
  case_bool_decide; [done |].
  pose proof (startTrueFalseRound_loop_spec _ _ _ _ _ Hdraw) as [_ Hmem].
  apply startTrueFalseRound_loop_origin in Hdraw as (Hfocus & Hset & Hother).
  assert (tf_isTrue round = false →
          ∃ other, other ∈ pokemon s ∧ other ≠ tf_focus round
                   ∧ tf_move round ∈ moves other) as Hborrow.
  { intros Hfalse. destruct (Hother Hfalse) as (other & Hin & Hknows).
    exists other. split; [done |]. split; [| done].
    intros ->. rewrite Hfalse in Hmem. by apply includes_false in Hmem. }
  split; [done |]. split; [done |]. split; [done |].
  intros Hone. destruct (tf_isTrue round) eqn:Ht; [done |].
  destruct (Hborrow eq_refl) as (other & Hin & Hne & _).
  destruct (pokemon s) as [| only [| ? ?]]; try done.
  apply list_elem_of_singleton in Hin, Hfocus. congruence.
Qed.

Lemma truefalse_false_statement_is_borrowed_witness :
  tf_focus falseRoundA ∈ pokemon (sessionOver [monA; monB] MoveTrueFalse)
  ∧ (∀ set, activeMoveSet (sessionOver [monA; monB] MoveTrueFalse) = Some set →
            tf_move falseRoundA ∈ set)
  ∧ (tf_isTrue falseRoundA = false →
     ∃ other, other ∈ pokemon (sessionOver [monA; monB] MoveTrueFalse)
              ∧ other ≠ tf_focus falseRoundA
              ∧ tf_move falseRoundA ∈ moves other)
  ∧ (length (pokemon (sessionOver [monA; monB] MoveTrueFalse)) = 1%nat →
     tf_isTrue falseRoundA = true).
Proof.
  apply (truefalse_false_statement_is_borrowed
           (sessionOver [monA; monB] MoveTrueFalse) rngZeroThenHalf falseRoundA).
  by vm_compute.
Defined.

(** The silent stall of the move modes.  When no creature of the catalog
    knows a move of the active filter, [startMoveCompareRound] and
    [startTrueFalseRound] give up and change no cell, and so does the ready
    effect in these two modes: the session stays as it is, without a
    question when it had none. *)
Theorem move_modes_stall_without_moves (s : State) (g : Rng) :
  (∀ p, p ∈ pokemon s → filteredMoves p (activeMoveSet s) = []) →
  (startMoveCompareRound s g).1 = s
  ∧ (startTrueFalseRound s g).1 = s
  ∧ (mode s = MoveCompare ∨ mode s = MoveTrueFalse → (readyEffect s g).1 = s).
Proof.
  intros Hnone.
  assert ((startMoveCompareRound s g).1 = s) as Hcompare.
  { unfold startMoveCompareRound, drawMoveCompareRound.
    rewrite run_bind, run_ret. cbn [fst].
    case_bool_decide; [done |].
    by rewrite startMoveCompareRound_loop_stalls. }
  assert ((startTrueFalseRound s g).1 = s) as Htf.
  { unfold startTrueFalseRound, drawTrueFalseRound.
    rewrite run_bind, run_ret. cbn [fst].
    case_bool_decide; [done |].
    by rewrite startTrueFalseRound_loop_stalls. }
  split; [done |]. split; [done |].
  intros Hmode. unfold readyEffect.
  destruct (_ || _); [done |].
  destruct Hmode as [-> | ->];
    destruct (left s), (right s), (focus s); done.
Qed.

Lemma move_modes_stall_without_moves_witness :
  (startMoveCompareRound (surfSession MoveCompare) rngZeroThenHalf).1
  = surfSession MoveCompare
  ∧ (startTrueFalseRound (surfSession MoveCompare) rngZeroThenHalf).1
    = surfSession MoveCompare
  ∧ (mode (surfSession MoveCompare) = MoveCompare
     ∨ mode (surfSession MoveCompare) = MoveTrueFalse →
     (readyEffect (surfSession MoveCompare) rngZeroThenHalf).1
     = surfSession MoveCompare).
Proof.
  apply (move_modes_stall_without_moves (surfSession MoveCompare)
           rngZeroThenHalf).
  intros p Hp. change (p ∈ [monA; monB]) in Hp.
  apply elem_of_cons in Hp as [-> | Hp]; [reflexivity |].
  apply list_elem_of_singleton in Hp as ->. reflexivity.
Defined.

(* ================================================================== *)
(** * The dex round from submission to the next entry *)
(* ================================================================== *)

(** The cells around a round that no generator writes either. *)
Lemma generators_keep_timer keep s g :
  dexTimer (startStatRound keep s g).1 = dexTimer s
  ∧ dexTimer (startMoveCompareRound s g).1 = dexTimer s
  ∧ dexTimer (startTrueFalseRound s g).1 = dexTimer s
  ∧ dexTimer (startDexRound s g).1 = dexTimer s.
Proof.
  unfold startStatRound, startMoveCompareRound, startTrueFalseRound,
    startDexRound.
  rewrite !run_bind, !run_ret. cbn [fst].
  destruct ((drawStatRound (pokemon s) keep g).1),
           ((drawMoveCompareRound (pokemon s) (activeMoveSet s) g).1),
           ((drawTrueFalseRound (pokemon s) (activeMoveSet s) g).1),
           ((pickDexPokemon (pokemon s) g).1); done.
Qed.

Lemma generators_keep_status keep s g :
  status (startStatRound keep s g).1 = status s
  ∧ status (startMoveCompareRound s g).1 = status s
  ∧ status (startTrueFalseRound s g).1 = status s
  ∧ (status s = Ready → status (startDexRound s g).1 = Ready).
Proof.
  unfold startStatRound, startMoveCompareRound, startTrueFalseRound,
    startDexRound.
  rewrite !run_bind, !run_ret. cbn [fst].
  destruct ((drawStatRound (pokemon s) keep g).1),
           ((drawMoveCompareRound (pokemon s) (activeMoveSet s) g).1),
           ((drawTrueFalseRound (pokemon s) (activeMoveSet s) g).1),
           ((pickDexPokemon (pokemon s) g).1); done.
Qed.

Section DexRound.
Variable toLowerCase : string → string.

(** [handleDexSubmit] in ['ready'] on a round with an answer.  A guess that
    normalises to the answer's normal form scores at once: the dex score
    goes up by one, the status is ['result'] and the advance timer is
    armed; when it fires the session is ['ready'] again, the score kept.
    Any other guess ends the game: the dex high score becomes the larger of
    itself and the score, and the answer stays for display. *)
Theorem dex_submit_outcome (s : State) (g : Rng) :
  status s = Ready → truthyString (dexAnswer s) = true →
  if bool_decide (normalizeAnswer toLowerCase (dexGuess s)
                  = normalizeAnswer toLowerCase (dexAnswer s))
  then dexScore (handleDexSubmit toLowerCase s) = dexScore s + 1
       ∧ status (handleDexSubmit toLowerCase s) = Result
       ∧ dexTimer (handleDexSubmit toLowerCase s) = true
       ∧ highScore (handleDexSubmit toLowerCase s) = highScore s
       ∧ status (step toLowerCase EvDexTimeout
                   (handleDexSubmit toLowerCase s) g).1 = Ready
       ∧ dexScore (step toLowerCase EvDexTimeout
                     (handleDexSubmit toLowerCase s) g).1 = dexScore s + 1
       ∧ dexTimer (step toLowerCase EvDexTimeout
                     (handleDexSubmit toLowerCase s) g).1 = false
  else status (handleDexSubmit toLowerCase s) = GameOver
       ∧ highScore (handleDexSubmit toLowerCase s) KDex
         = Z.max (highScore s KDex) (dexScore s)
       ∧ dexScore (handleDexSubmit toLowerCase s) = dexScore s
       ∧ dexAnswer (handleDexSubmit toLowerCase s) = dexAnswer s
       ∧ dexTimer (handleDexSubmit toLowerCase s) = dexTimer s.
Proof.
  intros Hst Hanswer.
  unfold handleDexSubmit, isDexCorrect.
  rewrite Hanswer, (bool_decide_eq_false_2 (status s ≠ Ready)) by
    (by intros H; apply H).
  cbn [negb orb].
  case_bool_decide as Hcorrect.
  - set (s' := setDexTimer true
                 (setStatus Result (setDexScore (dexScore s + 1) s))).
    do 4 (split; [done |]).
    unfold step. change (dexTimer s') with true. cbv iota.
    unfold dexTimeout. rewrite run_bind, run_ret. cbn [fst].
    destruct (startDexRound_books (setDexTimer false s') g)
      as (_ & _ & _ & _ & _ & Hscore & _).
    destruct (generators_keep_timer None (setDexTimer false s') g)
      as (_ & _ & _ & Htimer).
    split; [done |]. split; [simpl; by rewrite Hscore |].
    simpl. by rewrite Htimer.
  - by repeat split.
Qed.
End DexRound.

Lemma dex_submit_outcome_witness :
  if bool_decide (normalizeAnswer asciiLower (dexGuess dexMrMimeTyped)
                  = normalizeAnswer asciiLower (dexAnswer dexMrMimeTyped))
  then dexScore (handleDexSubmit asciiLower dexMrMimeTyped)
       = dexScore dexMrMimeTyped + 1
       ∧ status (handleDexSubmit asciiLower dexMrMimeTyped) = Result
       ∧ dexTimer (handleDexSubmit asciiLower dexMrMimeTyped) = true
       ∧ highScore (handleDexSubmit asciiLower dexMrMimeTyped)
         = highScore dexMrMimeTyped
       ∧ status (step asciiLower EvDexTimeout
                   (handleDexSubmit asciiLower dexMrMimeTyped) rngZero).1
         = Ready
       ∧ dexScore (step asciiLower EvDexTimeout
                     (handleDexSubmit asciiLower dexMrMimeTyped) rngZero).1
         = dexScore dexMrMimeTyped + 1
       ∧ dexTimer (step asciiLower EvDexTimeout
                     (handleDexSubmit asciiLower dexMrMimeTyped) rngZero).1
         = false
  else status (handleDexSubmit asciiLower dexMrMimeTyped) = GameOver
       ∧ highScore (handleDexSubmit asciiLower dexMrMimeTyped) KDex
         = Z.max (highScore dexMrMimeTyped KDex) (dexScore dexMrMimeTyped)
       ∧ dexScore (handleDexSubmit asciiLower dexMrMimeTyped)
         = dexScore dexMrMimeTyped
       ∧ dexAnswer (handleDexSubmit asciiLower dexMrMimeTyped)
         = dexAnswer dexMrMimeTyped
       ∧ dexTimer (handleDexSubmit asciiLower dexMrMimeTyped)
         = dexTimer dexMrMimeTyped.
Proof.
  apply (dex_submit_outcome asciiLower dexMrMimeTyped rngZero); reflexivity.
Defined.

(** The typed guess ["Mr Mime"] is correct for the answer ["mr-mime"]. *)
Example dex_submit_mr_mime :
  dexAnswer dexMrMimeTyped = "mr-mime"
  ∧ status (handleDexSubmit asciiLower dexMrMimeTyped) = Result
  ∧ dexScore (handleDexSubmit asciiLower dexMrMimeTyped) = 1.
Proof. by vm_compute. Qed.

(* ================================================================== *)
(** * Changing mode, restarting, and the end of a game *)
(* ================================================================== *)

Lemma handleRestart_guess s g : guess (handleRestart s g).1 = None.
Proof.
  unfold handleRestart, startStatRound, startMoveCompareRound,
    startTrueFalseRound, startDexRound.
  destruct (mode s); rewrite ?run_bind, ?run_ret; cbn [fst].
  - reflexivity.
  - by destruct ((drawStatRound _ _ _).1).
  - by destruct ((drawMoveCompareRound _ _ _).1).
  - by destruct ((drawTrueFalseRound _ _ _).1).
  - by destruct ((pickDexPokemon _ _).1).
Qed.

Lemma handleRestart_timer s g : dexTimer (handleRestart s g).1 = false.
Proof.
  unfold handleRestart. destruct (mode s).
  - reflexivity.
  - by rewrite (proj1 (generators_keep_timer None _ g)).
  - by rewrite (proj1 (proj2 (generators_keep_timer None _ g))).
  - by rewrite (proj1 (proj2 (proj2 (generators_keep_timer None _ g)))).
  - by rewrite (proj2 (proj2 (proj2 (generators_keep_timer None _ g)))).
Qed.

Lemma handleRestart_books s g :
  mode (handleRestart s g).1 = mode s
  ∧ pokemon (handleRestart s g).1 = pokemon s
  ∧ lastKeptId (handleRestart s g).1
    = (if bool_decide (mode s = Stat) then None else lastKeptId s)
  ∧ highScore (handleRestart s g).1 = highScore s.
Proof.
  unfold handleRestart. set (s1 := setDexTimer false _).
  destruct (mode s) eqn:Hmode.
  - by rewrite run_ret.
  - destruct (startStatRound_books None (setLastKeptId None (setScore 0 s1)) g)
      as (H1 & H2 & _ & _ & _ & _ & H3 & H4 & _).
    by rewrite H1, H2, H3, H4.
  - destruct (startMoveCompareRound_books (setCompareScore 0 s1) g)
      as (H1 & H2 & _ & _ & _ & _ & H3 & H4 & _).
    by rewrite H1, H2, H3, H4.
  - destruct (startTrueFalseRound_books (setTrueFalseScore 0 s1) g)
      as (H1 & H2 & _ & _ & _ & _ & H3 & H4 & _).
    by rewrite H1, H2, H3, H4.
  - destruct (startDexRound_books (setDexScore 0 s1) g)
      as (H1 & H2 & _ & _ & _ & _ & H3 & H4 & _).
    by rewrite H1, H2, H3, H4.
Qed.

Section Sessions.
Variable toLowerCase : string → string.

Lemma step_dexTimeout_idle s g :
  dexTimer s = false → step toLowerCase EvDexTimeout s g = (s, g).
Proof. intros H. unfold step. by rewrite H. Qed.

Lemma step_resultTimeout_idle s g :
  status s ≠ Result → step toLowerCase EvResultTimeout s g = (s, g).
Proof. intros H. unfold step. by rewrite bool_decide_eq_false_2. Qed.

Lemma step_revealDone_idle s g :
  status s ≠ Revealing → step toLowerCase EvRevealDone s g = (s, g).
Proof. intros H. unfold step, revealDone. by destruct (status s). Qed.

(** Nothing armed before a mode change or a restart fires into the new
    session: the dex advance timer is cleared, and with the status back at
    ['ready'] the result pause and the reveal animation are not live. *)
Theorem mode_change_and_restart_cancel_timers (nextMode : Mode) (s : State)
    (g g' : Rng) :
  step toLowerCase EvDexTimeout (handleModeChange nextMode s) g'
    = (handleModeChange nextMode s, g')
  ∧ step toLowerCase EvResultTimeout (handleModeChange nextMode s) g'
    = (handleModeChange nextMode s, g')
  ∧ step toLowerCase EvRevealDone (handleModeChange nextMode s) g'
    = (handleModeChange nextMode s, g')
  ∧ step toLowerCase EvDexTimeout (handleRestart s g).1 g'
    = ((handleRestart s g).1, g')
  ∧ step toLowerCase EvResultTimeout (handleRestart s g).1 g'
    = ((handleRestart s g).1, g')
  ∧ step toLowerCase EvRevealDone (handleRestart s g).1 g'
    = ((handleRestart s g).1, g').
Proof.
  destruct (handleRestart_resets_score s g) as [_ Hst].
  pose proof (handleRestart_timer s g) as Htimer.
  split; [by apply step_dexTimeout_idle |].
  split; [by apply step_resultTimeout_idle |].
  split; [by apply step_revealDone_idle |].
  split; [by apply step_dexTimeout_idle |].
  split; [apply step_resultTimeout_idle | apply step_revealDone_idle];
    by rewrite Hst.
Qed.

(** Once the game is over, with no advance timer pending, it stays over:
    every event other than a restart, a mode change or the arrival of the
    dataset leaves the status at ['gameover'] and the scores, the high
    scores and the lost round as they are. *)
Theorem gameover_lasts_until_restart (e : Event) (s : State) (g : Rng) :
  status s = GameOver → dexTimer s = false →
  e ≠ EvRestart → (∀ nextMode, e ≠ EvModeChange nextMode) →
  (∀ data, e ≠ EvLoad data) →
  status (step toLowerCase e s g).1 = GameOver
  ∧ score (step toLowerCase e s g).1 = score s
  ∧ compareScore (step toLowerCase e s g).1 = compareScore s
  ∧ trueFalseScore (step toLowerCase e s g).1 = trueFalseScore s
  ∧ dexScore (step toLowerCase e s g).1 = dexScore s
  ∧ highScore (step toLowerCase e s g).1 = highScore s
  ∧ left (step toLowerCase e s g).1 = left s
  ∧ right (step toLowerCase e s g).1 = right s
  ∧ focus (step toLowerCase e s g).1 = focus s
  ∧ (step toLowerCase e s g).2 = g.
Proof.
  intros Hst Htimer Hrestart Hmode Hload.
  destruct e; unfold step.
  - by destruct (Hload data).
  - destruct data; by repeat split.
  - unfold movePoolEffect. destruct (popularMoves s); by repeat split.
  - unfold readyEffect. rewrite Hst.
    rewrite (bool_decide_eq_true_2 (GameOver ≠ Ready)) by done.
    by repeat split.
  - unfold revealDone. rewrite Hst. by repeat split.
  - rewrite Hst. rewrite (bool_decide_eq_false_2 (GameOver = Result)) by done.
    by repeat split.
  - rewrite Htimer. by repeat split.
  - unfold persist. case_bool_decide; by repeat split.
  - unfold handleGuess. rewrite Hst.
    rewrite (bool_decide_eq_true_2 (GameOver ≠ Ready)) by done.
    by repeat split.
  - rewrite Hst. rewrite (bool_decide_eq_false_2 (GameOver = Ready)) by done.
    by repeat split.
  - unfold handleDexSubmit. rewrite Hst.
    rewrite (bool_decide_eq_true_2 (GameOver ≠ Ready)) by done.
    rewrite orb_true_r. by repeat split.
  - done.
  - by destruct (Hmode nextMode).
  - destruct pool, (popularMoves s); by repeat split.
Qed.

Lemma step_modeChange nextMode s g :
  step toLowerCase (EvModeChange nextMode) s g = (handleModeChange nextMode s, g).
Proof. by unfold step. Qed.

Lemma readyEffect_idle s g :
  status s ≠ Ready ∨ pokemon s = [] ∨ mode s = Menu → readyEffect s g = (s, g).
Proof.
  intros H. unfold readyEffect.
  destruct (bool_decide (status s ≠ Ready)) eqn:Hst; [done |].
  destruct (bool_decide (length (pokemon s) = 0%nat)) eqn:Hlen; [done |].
  cbn [orb].
  apply bool_decide_eq_false in Hst, Hlen.
  destruct H as [H | [H | H]].
  - done.
  - by rewrite H in Hlen.
  - by rewrite H.
Qed.

Lemma readyEffect_asks s g :
  status s = Ready → pokemon s ≠ [] →
  left s = None → right s = None → focus s = None →
  readyEffect s g
  = match mode s with
    | Menu => (s, g)
    | Stat => startStatRound None s g
    | MoveCompare => startMoveCompareRound s g
    | MoveTrueFalse => startTrueFalseRound s g
    | DexGuess => startDexRound s g
    end.
Proof.
  intros Hst Hne Hl Hr Hf. unfold readyEffect.
  rewrite (bool_decide_eq_false_2 (status s ≠ Ready)) by (by intros H; apply H).
  rewrite (bool_decide_eq_false_2 (length (pokemon s) = 0%nat))
    by (by destruct (pokemon s)).
  cbn [orb]. rewrite Hl, Hr, Hf. by destruct (mode s).
Qed.

(** Entering a mode asks its generator for a question.  Over a catalog of
    two or more the stat mode shows a duel, and over any non-empty catalog
    the dex mode shows an entry; in the menu nothing is generated. *)
Theorem entering_a_mode_shows_a_question (s : State) (g : Rng) :
  ((2 ≤ length (pokemon s))%nat →
   status (run toLowerCase [EvModeChange Stat; EvReadyEffect] s g).1 = Ready
   ∧ is_Some (left (run toLowerCase [EvModeChange Stat; EvReadyEffect] s g).1)
   ∧ is_Some (right (run toLowerCase [EvModeChange Stat; EvReadyEffect] s g).1)
   ∧ guess (run toLowerCase [EvModeChange Stat; EvReadyEffect] s g).1 = None)
  ∧ (pokemon s ≠ [] →
     status (run toLowerCase [EvModeChange DexGuess; EvReadyEffect] s g).1
       = Ready
     ∧ ∃ p, p ∈ pokemon s
            ∧ focus (run toLowerCase
                       [EvModeChange DexGuess; EvReadyEffect] s g).1 = Some p
            ∧ dexAnswer (run toLowerCase
                           [EvModeChange DexGuess; EvReadyEffect] s g).1
              = name p)
  ∧ run toLowerCase [EvModeChange Menu; EvReadyEffect] s g
    = (handleModeChange Menu s, g).
Proof.
  assert (∀ m, run toLowerCase [EvModeChange m; EvReadyEffect] s g
               = readyEffect (handleModeChange m s) g) as Hrun.
  { intros m. rewrite !run_cons, step_modeChange. cbn [fst snd run].
    rewrite run_ret. unfold step. by destruct (readyEffect _ _). }
  rewrite !Hrun. split; [| split].
  - intros Hlen.
    rewrite readyEffect_asks;
      [| done
       | change (pokemon s ≠ []); intros E; rewrite E in Hlen; simpl in Hlen; lia
       | done ..].
    change (mode (handleModeChange Stat s)) with Stat. cbv iota.
    destruct (drawStatRound_spec (pokemon (handleModeChange Stat s)) None g
                Hlen) as (nl & r & st & guard & Hdraw & _).
    unfold startStatRound. rewrite run_bind, Hdraw, run_ret. cbn [fst].
    by repeat split.
  - intros Hne.
    rewrite readyEffect_asks; [| done ..].
    change (mode (handleModeChange DexGuess s)) with DexGuess. cbv iota.
    destruct (pickDexPokemon_spec (pokemon (handleModeChange DexGuess s)) g Hne)
      as (p & Hpick & Hin & _).
    unfold startDexRound. rewrite run_bind, run_ret, Hpick. cbn [fst].
    split; [done |]. by exists p.
  - apply readyEffect_idle. by right; right.
Qed.
End Sessions.



(** [handleRestart] starts a fresh streak: the active score is 0, the
    status ['ready'], no guess recorded, no advance timer pending, the mode
    and the high scores as before.  In stat mode no creature counts as kept
    and, over two creatures or more, a new duel is on display. *)
Theorem restart_starts_fresh_streak (s : State) (g : Rng) :
  activeScore (handleRestart s g).1 = 0
  ∧ status (handleRestart s g).1 = Ready
  ∧ guess (handleRestart s g).1 = None
  ∧ mode (handleRestart s g).1 = mode s
  ∧ highScore (handleRestart s g).1 = highScore s
  ∧ (mode s = Stat →
     lastKeptId (handleRestart s g).1 = None
     ∧ ((2 ≤ length (pokemon s))%nat →
        is_Some (left (handleRestart s g).1)
        ∧ is_Some (right (handleRestart s g).1))).
Proof.
  destruct (handleRestart_resets_score s g) as [Hscore Hst].
  destruct (handleRestart_books s g) as (Hm & _ & Hk & Hh).
  split; [done |]. split; [done |].
  split; [apply handleRestart_guess |].
  split; [done |]. split; [done |].
  intros Hmode. split.
  { by rewrite Hk, (bool_decide_eq_true_2 (mode s = Stat)). }
  intros Hlen. unfold handleRestart. rewrite Hmode.
  set (s2 := setLastKeptId None _).
  destruct (drawStatRound_spec (pokemon s2) None g Hlen)
    as (nl & r & st & guard & Hdraw & _).
  unfold startStatRound. rewrite run_bind, Hdraw, run_ret. cbn [fst].
  by split.
Qed.

Lemma gameover_lasts_until_restart_witness :
  status (step asciiLower (EvGuess SelLeft) duelLost.1 duelLost.2).1 = GameOver
  ∧ score (step asciiLower (EvGuess SelLeft) duelLost.1 duelLost.2).1
    = score duelLost.1
  ∧ compareScore (step asciiLower (EvGuess SelLeft) duelLost.1 duelLost.2).1
    = compareScore duelLost.1
  ∧ trueFalseScore (step asciiLower (EvGuess SelLeft) duelLost.1 duelLost.2).1
    = trueFalseScore duelLost.1
  ∧ dexScore (step asciiLower (EvGuess SelLeft) duelLost.1 duelLost.2).1
    = dexScore duelLost.1
  ∧ highScore (step asciiLower (EvGuess SelLeft) duelLost.1 duelLost.2).1
    = highScore duelLost.1
  ∧ left (step asciiLower (EvGuess SelLeft) duelLost.1 duelLost.2).1
    = left duelLost.1
  ∧ right (step asciiLower (EvGuess SelLeft) duelLost.1 duelLost.2).1
    = right duelLost.1
  ∧ focus (step asciiLower (EvGuess SelLeft) duelLost.1 duelLost.2).1
    = focus duelLost.1
  ∧ (step asciiLower (EvGuess SelLeft) duelLost.1 duelLost.2).2 = duelLost.2.
Proof.
  apply (gameover_lasts_until_restart asciiLower (EvGuess SelLeft)
           duelLost.1 duelLost.2);
    [by vm_compute | by vm_compute | discriminate
    | intros; discriminate | intros; discriminate].
Defined.

(* ================================================================== *)
(** * The high-score store *)
(* ================================================================== *)

(** The write effect of [useHighScore] and the read on mount.  A positive
    high score is stored and read back unchanged by the next mount; a high
    score of zero or less is never written, so the store keeps what it
    had.  Running the effect twice stores what running it once does, and
    the other keys are not touched. *)
Theorem useHighScore_store_round_trip (s : State) (k : HighScoreKey) :
  (highScore s k > 0 →
   localStorage (persist k s) k = Some (highScore s k)
   ∧ highScore (initialState (localStorage (persist k s))) k = highScore s k)
  ∧ (highScore s k ≤ 0 → persist k s = s)
  ∧ (∀ k', localStorage (persist k (persist k s)) k'
           = localStorage (persist k s) k')
  ∧ (∀ k', k' ≠ k → localStorage (persist k s) k' = localStorage s k')
  ∧ highScore (persist k s) = highScore s.
Proof.
  unfold persist.
  destruct (bool_decide (highScore s k > 0)) eqn:Hpos.
  - apply bool_decide_eq_true in Hpos.
    assert (highScore (setItem k (highScore s k) s) k = highScore s k)
      as Hsame by done.
    rewrite Hsame, (bool_decide_eq_true_2 (highScore s k > 0)) by done.
    split; [intros _ |].
    { simpl. by rewrite (bool_decide_eq_true_2 (k = k)). }
    split; [intros; lia |].
    split.
    { intros k'. simpl. by destruct (bool_decide (k' = k)). }
    split; [| done].
    intros k' Hne. simpl. by rewrite (bool_decide_eq_false_2 (k' = k)).
  - apply bool_decide_eq_false in Hpos.
    rewrite (bool_decide_eq_false_2 (highScore s k > 0)) by done.
    split; [intros; lia |]. by repeat split.
Qed.

Section StoreInvariant.
Variable toLowerCase : string → string.

(** From a mount over a store without negative entries, and after any
    history of events and reloads, the store holds every high score as the
    cell has it (a mount would read back exactly the value on display), and
    no score or high score is negative. *)
Theorem store_agrees_after_every_event
    (storage : HighScoreKey → option Z) (history : list PageEvent) (g : Rng) :
  NonNegStore storage →
  StoreAgrees (pageRun toLowerCase history (initialState storage) g).1
  ∧ ScoresNonNeg (pageRun toLowerCase history (initialState storage) g).1.
Proof.
  intros Hstore.
  destruct (initialState_agrees storage Hstore) as [Hagree Hscores].
  destruct (pageRun_agrees toLowerCase history _ g Hagree Hscores)
    as (? & ? & _).
  by split.
Qed.
End StoreInvariant.

Lemma store_agrees_after_every_event_witness :
  StoreAgrees
    (pageRun asciiLower [InPage (EvLoad (Some [monA; monB])); Reload]
       (initialState noStorage) rngZero).1
  ∧ ScoresNonNeg
      (pageRun asciiLower [InPage (EvLoad (Some [monA; monB])); Reload]
         (initialState noStorage) rngZero).1.
Proof.
  apply (store_agrees_after_every_event asciiLower noStorage
           [InPage (EvLoad (Some [monA; monB])); Reload] rngZero).
  intros k v H. discriminate H.
Defined.

(* ================================================================== *)
(** * Display names and the dex guess *)
(* ================================================================== *)

Lemma string_app_cons c (a b : string) : String c a +:+ b = String c (a +:+ b).
Proof. reflexivity. Qed.

Lemma string_app_nil_l (b : string) : "" +:+ b = b.
Proof. reflexivity. Qed.

Lemma string_app_nil_r (s : string) : s +:+ "" = s.
Proof.
  induction s as [| c s IH]; [done |]. by rewrite string_app_cons, IH.
Qed.

Lemma replaceNonAlnum_app a b :
  replaceNonAlnum (a +:+ b) = replaceNonAlnum a +:+ replaceNonAlnum b.
Proof.
  induction a as [| c a IH]; [done |].
  rewrite string_app_cons. cbn [replaceNonAlnum].
  destruct (isLowerAlnum c); by rewrite ?string_app_cons, IH.
Qed.

Lemma asciiLower_app a b : asciiLower (a +:+ b) = asciiLower a +:+ asciiLower b.
Proof.
  induction a as [| c a IH]; [done |].
  rewrite string_app_cons. cbn [asciiLower]. by rewrite string_app_cons, IH.
Qed.

Lemma isAsciiString_app a b :
  isAsciiString (a +:+ b) = isAsciiString a && isAsciiString b.
Proof.
  induction a as [| c a IH]; [done |].
  rewrite string_app_cons. cbn [isAsciiString]. by rewrite IH, andb_assoc.
Qed.

Lemma substring_none s : String.substring 0 0 s = "".
Proof. by destruct s. Qed.

Lemma substring_all s : String.substring 0 (String.length s) s = s.
Proof. induction s as [| c s IH]; simpl; [done |]. by rewrite IH. Qed.

Lemma lower_of_upper_char c :
  asciiLowerChar (asciiUpperChar c) = asciiLowerChar c
  ∧ ((nat_of_ascii c <? 128)%nat = true →
     (nat_of_ascii (asciiUpperChar c) <? 128)%nat = true
     ∧ firstCharWidth c = 1%nat).
Proof.
  destruct c as [[] [] [] [] [] [] [] []]; vm_compute; split; try done;
    intros H; (discriminate H || done).
Qed.

Lemma split_nonempty s : split s ≠ [].
Proof.
  destruct s as [| c s]; simpl; [done |].
  case_bool_decide; [done |]. by destruct (split s).
Qed.

Lemma split_ascii s :
  isAsciiString s = true → Forall (λ part, isAsciiString part = true) (split s).
Proof.
  induction s as [| c s IH]; [by repeat constructor |].
  cbn [isAsciiString split].
  intros [Hc Hs]%andb_prop. specialize (IH Hs).
  case_bool_decide; [by constructor |].
  pose proof (split_nonempty s) as Hne.
  destruct (split s) as [| part parts]; [done |].
  inversion_clear IH as [| ? ? Hpart Hparts].
  constructor; [| done]. cbn [isAsciiString]. by rewrite Hc.
Qed.

(** The letters and digits of a string, lower-cased: what
    [normalizeAnswer] keeps of an ASCII string. *)
Lemma kept_of_join parts :
  replaceNonAlnum (asciiLower (join parts))
  = foldr (λ part acc, replaceNonAlnum (asciiLower part) +:+ acc) "" parts.
Proof.
  induction parts as [| part [| next rest] IH].
  - done.
  - cbn [join foldr]. by rewrite string_app_nil_r.
  - change (join (part :: next :: rest))
      with (part +:+ " " +:+ join (next :: rest)).
    rewrite !asciiLower_app, !replaceNonAlnum_app, IH. done.
Qed.

Lemma kept_of_split s :
  foldr (λ part acc, replaceNonAlnum (asciiLower part) +:+ acc) "" (split s)
  = replaceNonAlnum (asciiLower s).
Proof.
  induction s as [| c s IH]; [done |].
  cbn [split]. case_bool_decide as Hc.
  - subst c. cbn [foldr]. by rewrite IH.
  - pose proof (split_nonempty s) as Hne.
    destruct (split s) as [| part parts]; [done |].
    cbn [foldr] in IH |- *.
    cbn [asciiLower replaceNonAlnum]. rewrite <- IH.
    destruct (isLowerAlnum (asciiLowerChar c)); by rewrite ?string_app_cons.
Qed.

Section DisplayNames.
Variable toLowerCase toUpperCase : string → string.
Hypothesis toLowerCase_ascii : LowersAscii toLowerCase.
Hypothesis toUpperCase_ascii : UppersAscii toUpperCase.

Lemma capitalize_ascii part :
  isAsciiString part = true →
  capitalize toUpperCase part
  = match part with
    | EmptyString => EmptyString
    | String c rest => String (asciiUpperChar c) rest
    end.
Proof using toUpperCase_ascii.
  destruct part as [| c rest]; [done |].
  intros [Hc Hrest]%andb_prop. unfold capitalize.
  destruct (lower_of_upper_char c) as [_ Hw].
  destruct (Hw Hc) as [_ ->]. cbn [Nat.eqb].
  change (String.substring 0 1 (String c rest))
    with (String c (String.substring 0 0 rest)).
  rewrite substring_none.
  rewrite toUpperCase_ascii by (simpl; by rewrite Hc).
  change (String.length (String c rest) - 1)%nat
    with (String.length rest - 0)%nat.
  rewrite Nat.sub_0_r.
  change (String.substring 1 (String.length rest) (String c rest))
    with (String.substring 0 (String.length rest) rest).
  by rewrite substring_all.
Qed.

Lemma capitalize_kept part :
  isAsciiString part = true →
  isAsciiString (capitalize toUpperCase part) = true
  ∧ replaceNonAlnum (asciiLower (capitalize toUpperCase part))
    = replaceNonAlnum (asciiLower part).
Proof using toUpperCase_ascii.
  intros Hpart. rewrite capitalize_ascii by done.
  destruct part as [| c rest]; [done |].
  apply andb_prop in Hpart as [Hc Hrest].
  destruct (lower_of_upper_char c) as [Hlow Hup].
  destruct (Hup Hc) as [Hc' _].
  split; [simpl; by rewrite Hc' |].
  simpl. by rewrite Hlow.
Qed.

Lemma formatName_kept n :
  isAsciiString n = true →
  isAsciiString (formatName toUpperCase n) = true
  ∧ replaceNonAlnum (asciiLower (formatName toUpperCase n))
    = replaceNonAlnum (asciiLower n).
Proof using toUpperCase_ascii.
  intros Hn. unfold formatName.
  pose proof (split_ascii n Hn) as Hparts.
  rewrite kept_of_join, <- (kept_of_split n).
  induction Hparts as [| part parts Hpart Hrest IH].
  - done.
  - destruct IH as [IHascii IHkept].
    destruct (capitalize_kept part Hpart) as [Hcap Hkept].
    split.
    + destruct parts as [| next rest]; [done |].
      change (join (capitalize toUpperCase <$> part :: next :: rest))
        with (capitalize toUpperCase part +:+ " "
              +:+ join (capitalize toUpperCase <$> next :: rest)).
      rewrite !isAsciiString_app, Hcap, IHascii. done.
    + cbn [fmap list_fmap foldr]. by rewrite Hkept, IHkept.
Qed.
End DisplayNames.

(** A suggestion that is clicked fills the guess with [formatName] of a
    catalog name.  For an ASCII name that guess normalises exactly as the
    name itself, so clicking the suggestion that carries the answer's name
    is always judged correct. *)
Theorem clicked_suggestion_validates
    (toLowerCase toUpperCase : string → string) (n : string) :
  LowersAscii toLowerCase → UppersAscii toUpperCase →
  isAsciiString n = true →
  normalizeAnswer toLowerCase (formatName toUpperCase n)
    = normalizeAnswer toLowerCase n
  ∧ ∀ s, dexAnswer s = n → truthyString n = true →
         isDexCorrect toLowerCase (setDexGuess (formatName toUpperCase n) s)
         = true.
Proof.
  intros Hlower Hupper Hn.
  destruct (formatName_kept toUpperCase Hupper n Hn) as [Hascii Hkept].
  assert (normalizeAnswer toLowerCase (formatName toUpperCase n)
          = normalizeAnswer toLowerCase n) as Hsame.
  { by rewrite !(normalizeAnswer_ascii toLowerCase Hlower). }
  split; [done |].
  intros s Hanswer Htruthy. unfold isDexCorrect. simpl.
  rewrite Hanswer, Htruthy. simpl. by rewrite Hsame, bool_decide_eq_true_2.
Qed.

Lemma clicked_suggestion_validates_witness :
  normalizeAnswer asciiLower (formatName asciiUpper "mr-mime")
    = normalizeAnswer asciiLower "mr-mime"
  ∧ ∀ s, dexAnswer s = "mr-mime"%string → truthyString "mr-mime" = true →
         isDexCorrect asciiLower (setDexGuess (formatName asciiUpper "mr-mime") s)
         = true.
Proof.
  apply (clicked_suggestion_validates asciiLower asciiUpper "mr-mime");
    [intros s _; reflexivity | intros s _; reflexivity | reflexivity].
Defined.

Example formatName_examples :
  formatName asciiUpper "mr-mime" = "Mr Mime"
  ∧ formatName asciiUpper "ho-oh" = "Ho Oh"
  ∧ formatMove asciiUpper "thunder-punch" = "Thunder Punch"
  ∧ formatName asciiUpper "" = "".
Proof. by vm_compute. Qed.

(* ================================================================== *)
(** * The curated move lists *)
(* ================================================================== *)

Lemma set_insertion_spec (set items : list string) :
  NoDup set →
  ∃ added,
    foldl (λ set x, if bool_decide (x ∈ set) then set else set ++ [x]) set items
    = set ++ added
    ∧ NoDup (set ++ added)
    ∧ added `sublist_of` items
    ∧ ∀ x, x ∈ set ++ added ↔ x ∈ set ∨ x ∈ items.
Proof.
  revert set. induction items as [| x items IH]; intros set Hset.
  - exists []. rewrite app_nil_r. split; [done |]. split; [done |].
    split; [done |]. intros x. rewrite elem_of_nil. tauto.
  - cbn [foldl]. case_bool_decide as Hx.
    + destruct (IH set Hset) as (added & Hrun & Hnodup & Hsub & Hmem).
      exists added. split; [done |]. split; [done |].
      split; [by apply sublist_cons |].
      intros y. rewrite Hmem, elem_of_cons.
      split; [tauto |]. intros [? | [-> | ?]]; tauto.
    + assert (NoDup (set ++ [x])) as Hset'.
      { apply NoDup_app. split; [done |]. split; [| apply NoDup_singleton].
        intros y Hy ->%list_elem_of_singleton. done. }
      destruct (IH (set ++ [x]) Hset') as (added & Hrun & Hnodup & Hsub & Hmem).
      exists (x :: added). rewrite Hrun, <- app_assoc. cbn [app].
      split; [done |].
      split; [by rewrite <- app_assoc in Hnodup |].
      split; [by apply sublist_skip |].
      intros y. rewrite <- app_assoc in Hmem. cbn [app] in Hmem.
      rewrite Hmem, elem_of_app, list_elem_of_singleton, elem_of_cons. tauto.
Qed.

Lemma set_insertion_nodup (set items : list string) :
  NoDup (set ++ items) →
  foldl (λ set x, if bool_decide (x ∈ set) then set else set ++ [x]) set items
  = set ++ items.
Proof.
  revert set. induction items as [| x items IH]; intros set Hnodup.
  - by rewrite app_nil_r.
  - cbn [foldl].
    assert (x ∉ set) as Hx.
    { apply NoDup_app in Hnodup as (_ & Hdisj & _).
      intros Hin. apply (Hdisj x Hin). by left. }
    rewrite (bool_decide_eq_false_2 _ Hx).
    rewrite IH; rewrite <- app_assoc; done.
Qed.

Lemma unique_members (items : list string) (x : string) :
  x ∈ FetchPopularMoves.unique items ↔ x ∈ items.
Proof.
  unfold FetchPopularMoves.unique.
  destruct (set_insertion_spec [] items (NoDup_nil_2 (A:=string)))
    as (added & -> & _ & _ & Hmem).
  rewrite Hmem, elem_of_nil. tauto.
Qed.

(** [unique]: the result has no duplicates and the same members as the
    list; it keeps the members in the order of their first occurrence, so it
    is a sublist of the list and grows only at the end when the list
    does.  A list without duplicates is returned as it is. *)
Theorem unique_keeps_first_occurrences (items : list string) :
  NoDup (FetchPopularMoves.unique items)
  ∧ (∀ x, x ∈ FetchPopularMoves.unique items ↔ x ∈ items)
  ∧ FetchPopularMoves.unique items `sublist_of` items
  ∧ (∀ more, FetchPopularMoves.unique items
             `prefix_of` FetchPopularMoves.unique (items ++ more))
  ∧ (NoDup items → FetchPopularMoves.unique items = items)
  ∧ FetchPopularMoves.unique (FetchPopularMoves.unique items)
    = FetchPopularMoves.unique items.
Proof.
  unfold FetchPopularMoves.unique.
  destruct (set_insertion_spec [] items (NoDup_nil_2 (A:=string)))
    as (added & Hrun & Hnodup & Hsub & Hmem).
  cbn [app] in Hrun, Hnodup, Hmem.
  assert (∀ l : list string, NoDup l →
            foldl (λ set x, if bool_decide (x ∈ set) then set else set ++ [x])
              [] l = l) as Hid.
  { intros l Hl. by rewrite set_insertion_nodup. }
  split; [by rewrite Hrun |].
  split.
  { intros x. rewrite Hrun, Hmem, elem_of_nil. tauto. }
  split; [by rewrite Hrun |].
  split.
  { intros more. rewrite foldl_app, Hrun.
    destruct (set_insertion_spec added more Hnodup) as (added' & -> & _).
    by exists added'. }
  split; [apply Hid |].
  rewrite Hrun. by apply Hid.
Qed.

(** The pools of the page over a list written by the script: the
    ['popular'] pool accepts exactly the moves that the ['smogon'] pool or
    the ['vgc'] pool accepts, and ['all'] filters nothing. *)
Theorem popular_pool_is_the_union (s : State) (smogonMoves vgcMoves : list string) :
  popularMoves s = Some (FetchPopularMoves.payloadMoves smogonMoves vgcMoves) →
  ∃ popularSet smogonSet vgcSet : gset string,
    activeMoveSet (setMovePool Popular s) = Some popularSet
    ∧ activeMoveSet (setMovePool Smogon s) = Some smogonSet
    ∧ activeMoveSet (setMovePool Vgc s) = Some vgcSet
    ∧ popularSet = smogonSet ∪ vgcSet
    ∧ (∀ move, move ∈ smogonSet ↔ move ∈ smogonMoves)
    ∧ (∀ move, move ∈ vgcSet ↔ move ∈ vgcMoves)
    ∧ activeMoveSet (setMovePool All s) = None.
Proof.
  intros Hpm. unfold activeMoveSet, activeMovePool. simpl. rewrite Hpm. simpl.
  eexists _, _, _. split; [done |]. split; [done |]. split; [done |].
  split; [| split; [| split; [| done]]].
  - apply set_eq. intros move.
    rewrite elem_of_union, !elem_of_list_to_set.
    by rewrite unique_members, elem_of_app.
  - intros move. by rewrite elem_of_list_to_set.
  - intros move. by rewrite elem_of_list_to_set.
Qed.

Lemma popular_pool_is_the_union_witness :
  popularMoves rankedSession
  = Some (FetchPopularMoves.payloadMoves
            ["surf"; "protect"] ["protect"; "fake-out"])
  ∧ ∃ popularSet smogonSet vgcSet : gset string,
      activeMoveSet (setMovePool Popular rankedSession) = Some popularSet
      ∧ activeMoveSet (setMovePool Smogon rankedSession) = Some smogonSet
      ∧ activeMoveSet (setMovePool Vgc rankedSession) = Some vgcSet
      ∧ popularSet = smogonSet ∪ vgcSet
      ∧ (∀ move, move ∈ smogonSet ↔ move ∈ ["surf"; "protect"])
      ∧ (∀ move, move ∈ vgcSet ↔ move ∈ ["protect"; "fake-out"])
      ∧ activeMoveSet (setMovePool All rankedSession) = None.
Proof.
  split; [reflexivity |].
  apply (popular_pool_is_the_union rankedSession
           ["surf"; "protect"] ["protect"; "fake-out"]).
  reflexivity.
Defined.

(** The list written for two overlapping rankings. *)
Example payloadMoves_example :
  combined (FetchPopularMoves.payloadMoves
              ["surf"; "protect"; "surf"] ["protect"; "fake-out"; "surf"])
  = ["surf"; "protect"; "fake-out"].
Proof. by vm_compute. Qed.

(* ================================================================== *)
(** * The choice of the Smogon file *)
(* ================================================================== *)

Lemma find_first_match {A} (f : A → bool) (l : list A) :
  match List.find f l with
  | Some x => ∃ before after,
      l = before ++ x :: after ∧ f x = true
      ∧ ∀ y, y ∈ before → f y = false
  | None => ∀ y, y ∈ l → f y = false
  end.
Proof.
  induction l as [| a l IH]; cbn [List.find].
  - by intros y Hy%elem_of_nil.
  - destruct (f a) eqn:Ha.
    + exists [], l. split; [done |]. split; [done |]. by intros y Hy%elem_of_nil.
    + destruct (List.find f l) as [x |].
      * destruct IH as (before & after & -> & Hx & Hbefore).
        exists (a :: before), after. split; [done |]. split; [done |].
        intros y [-> | Hy]%elem_of_cons; [done | by apply Hbefore].
      * intros y [-> | Hy]%elem_of_cons; [done | by apply IH].
Qed.

Lemma preferred_are_gen9ou (name : string) :
  name ∈ FetchPopularMoves.preferred → FetchPopularMoves.isGen9OuFile name = true.
Proof.
  unfold FetchPopularMoves.preferred.
  rewrite !elem_of_cons, elem_of_nil.
  intros [-> | [-> | [-> | [-> | []]]]]; by vm_compute.
Qed.

(** [pickSmogonFormat]: the answer is one of the files and a
    [gen9ou-*.json] name; there is none exactly when no file has such a
    name.  A preferred name among the files wins over every file that is
    not preferred, the earlier preferred name over the later; without a
    preferred name the first [gen9ou-*.json] file of the listing is the
    answer. *)
Theorem pickSmogonFormat_choice (files : list string) :
  (∀ file, FetchPopularMoves.pickSmogonFormat files = Some file →
     file ∈ files ∧ FetchPopularMoves.isGen9OuFile file = true)
  ∧ (FetchPopularMoves.pickSmogonFormat files = None
     ↔ ∀ file, file ∈ files → FetchPopularMoves.isGen9OuFile file = false)
  ∧ (∀ earlier name later,
       FetchPopularMoves.preferred = earlier ++ name :: later →
       name ∈ files → (∀ other, other ∈ earlier → other ∉ files) →
       FetchPopularMoves.pickSmogonFormat files = Some name)
  ∧ (∀ before file after,
       files = before ++ file :: after →
       (∀ name, name ∈ FetchPopularMoves.preferred → name ∉ files) →
       FetchPopularMoves.isGen9OuFile file = true →
       (∀ other, other ∈ before →
          FetchPopularMoves.isGen9OuFile other = false) →
       FetchPopularMoves.pickSmogonFormat files = Some file).
Proof.
  unfold FetchPopularMoves.pickSmogonFormat.
  pose proof (find_first_match (λ name, includes files name)
                FetchPopularMoves.preferred) as Hpref.
  pose proof (find_first_match FetchPopularMoves.isGen9OuFile files) as Hfall.
  destruct (List.find (λ name, includes files name) FetchPopularMoves.preferred)
    as [name |].
  - destruct Hpref as (earlier & later & Hsplit & Hin & Hearlier).
    apply bool_decide_eq_true_1 in Hin.
    assert (name ∈ FetchPopularMoves.preferred) as Hname.
    { rewrite Hsplit, elem_of_app, elem_of_cons. tauto. }
    split; [| split; [| split]].
    + intros file [= <-]. split; [done | by apply preferred_are_gen9ou].
    + split; [done |]. intros Hnone.
      pose proof (preferred_are_gen9ou name Hname) as Hgen9.
      by rewrite (Hnone name Hin) in Hgen9.
    + intros earlier' name' later' Hsplit' Hin' Hearlier'. f_equal.
      rewrite Hsplit in Hsplit'.
      assert (∀ other, other ∈ earlier → other ∉ files) as Hout.
      { intros other Hother Hfile. specialize (Hearlier other Hother).
        apply bool_decide_eq_false_1 in Hearlier. done. }
      clear Hsplit Hname Hearlier Hfall.
      revert earlier' Hsplit' Hearlier' Hout.
      induction earlier as [| a earlier IH]; intros [| a' earlier'];
        cbn [app]; intros Heq Hearlier' Hout.
      * by injection Heq.
      * injection Heq as -> Heq. exfalso.
        apply (Hearlier' a'); [by left | done].
      * injection Heq as -> Heq. exfalso.
        apply (Hout name'); [by left | done].
      * injection Heq as -> Heq. apply (IH earlier'); [done | |].
        -- intros other Hother. apply Hearlier'. by right.
        -- intros other Hother. apply Hout. by right.
    + intros before file after _ Hnone _ _. exfalso.
      by apply (Hnone name Hname).
  - assert (∀ name, name ∈ FetchPopularMoves.preferred → name ∉ files) as Hout.
    { intros name Hname Hfile. specialize (Hpref name Hname).
      apply bool_decide_eq_false_1 in Hpref. done. }
    split; [| split; [| split]].
    + intros file Hfind. rewrite Hfind in Hfall.
      destruct Hfall as (before & after & -> & Hfile & _).
      split; [| done]. rewrite elem_of_app, elem_of_cons. tauto.
    + split.
      * intros Hfind. by rewrite Hfind in Hfall.
      * intros Hnone.
        destruct (List.find FetchPopularMoves.isGen9OuFile files) as [file |];
          [| done].
        destruct Hfall as (before & after & Hsplit & Hfile & _).
        rewrite Hnone in Hfile; [done |].
        rewrite Hsplit, elem_of_app, elem_of_cons. tauto.
    + intros earlier name later Hsplit Hin _. exfalso.
      apply (Hout name); [| done].
      rewrite Hsplit, elem_of_app, elem_of_cons. tauto.
    + intros before file after Hsplit _ Hfile Hbefore.
      destruct (List.find FetchPopularMoves.isGen9OuFile files) as [file' |].
      * destruct Hfall as (before' & after' & Hsplit' & Hfile' & Hbefore').
        f_equal. rewrite Hsplit in Hsplit'.
        clear Hsplit Hout Hpref.
        revert before' Hsplit' Hbefore'.
        induction before as [| a before IH]; intros [| a' before'];
          cbn [app]; intros Heq Hbefore'.
        -- by injection Heq.
        -- injection Heq as -> Heq.
           rewrite Hbefore' in Hfile; [done | by left].
        -- injection Heq as -> Heq.
           rewrite Hbefore in Hfile'; [done | by left].
        -- injection Heq as -> Heq. apply (IH) with before'; [| done |].
           ++ intros other Hother. apply Hbefore. by right.
           ++ intros other Hother. apply Hbefore'. by right.
      * rewrite Hfall in Hfile; [done |].
        rewrite Hsplit, elem_of_app, elem_of_cons. tauto.
Qed.

(** A listing with a rated and an unrated OU file and one with a
    single OU file of another rating. *)
Example pickSmogonFormat_examples :
  FetchPopularMoves.pickSmogonFormat
    ["gen9ou-0.json"; "gen9vgc2024-1760.json"; "gen9ou-1500.json"]
  = Some "gen9ou-1500.json"%string
  ∧ FetchPopularMoves.pickSmogonFormat
      ["gen9uu-1630.json"; "gen9ou-1825.json"; "gen9ou-1760.json"]
    = Some "gen9ou-1825.json"%string
  ∧ FetchPopularMoves.pickSmogonFormat
      ["gen9uu-1630.json"; "gen9ou-1825.json.gz"; "gen9ou-"] = None.
Proof. by vm_compute. Qed.

(* ================================================================== *)
(** * The flavor text of the dataset *)
(* ================================================================== *)

Section FlavorText.
Import FetchPokemon.

Lemma isSpace_SPACE : isSpace SPACE = true.
Proof. done. Qed.

Lemma isBreak_isSpace (c : N) : isBreak c = true → isSpace c = true.
Proof.
  unfold isBreak. rewrite !orb_true_iff, !N.eqb_eq.
  by intros [[-> | ->] | ->].
Qed.

Lemma singleSpaced_weaken (atStart : bool) (text : list N) :
  singleSpaced true text = true → singleSpaced atStart text = true.
Proof.
  destruct text as [| c rest]; cbn [singleSpaced]; [done |].
  destruct (isSpace c); [| done].
  rewrite andb_false_r. done.
Qed.

(** *** Each stage leaves the other characters alone *)

Lemma replaceBreaks_content (text : list N) :
  filter (λ c, isSpace c = false) (replaceBreaks text)
  = filter (λ c, isSpace c = false) text.
Proof.
  unfold replaceBreaks, Text.
  induction text as [| c rest IH]; [done |].
  rewrite fmap_cons, !filter_cons, IH.
  destruct (isBreak c) eqn:Hbreak; [| done].
  rewrite (isBreak_isSpace c Hbreak), isSpace_SPACE. done.
Qed.

Lemma collapseSpaces_from_content (inRun : bool) (text : list N) :
  filter (λ c, isSpace c = false) (collapseSpaces_from inRun text)
  = filter (λ c, isSpace c = false) text.
Proof.
  unfold Text.
  revert inRun. induction text as [| c rest IH]; intros inRun; [done |].
  cbn [collapseSpaces_from]. rewrite (filter_cons _ c rest).
  destruct (isSpace c) eqn:Hc.
  - rewrite decide_False by done.
    destruct inRun; [apply IH |].
    rewrite filter_cons, decide_False by done. apply IH.
  - rewrite filter_cons, Hc, IH. done.
Qed.

Lemma trimStart_content (text : list N) :
  filter (λ c, isSpace c = false) (trimStart text)
  = filter (λ c, isSpace c = false) text.
Proof.
  unfold Text.
  induction text as [| c rest IH]; [done |].
  cbn [trimStart]. destruct (isSpace c) eqn:Hc; [| done].
  rewrite (filter_cons _ c rest), Hc, decide_False by done. done.
Qed.

Lemma trimEnd_content (text : list N) :
  filter (λ c, isSpace c = false) (trimEnd text)
  = filter (λ c, isSpace c = false) text.
Proof.
  unfold Text.
  induction text as [| c rest IH]; [done |].
  cbn [trimEnd]. rewrite (filter_cons _ c rest), <- IH.
  destruct (trimEnd rest) as [| c' rest']; [| by rewrite filter_cons].
  destruct (isSpace c) eqn:Hc.
  - by rewrite decide_False.
  - by rewrite filter_cons, Hc.
Qed.

(** *** The stages reach the normal form *)

Lemma collapseSpaces_from_singleSpaced (atStart inRun : bool) (text : list N) :
  (atStart = true → inRun = true) →
  singleSpaced atStart (collapseSpaces_from inRun text) = true.
Proof.
  revert atStart inRun.
  induction text as [| c rest IH]; intros atStart inRun Himp; [done |].
  cbn [collapseSpaces_from]. destruct (isSpace c) eqn:Hc.
  - destruct inRun.
    + by apply IH.
    + destruct atStart; [by specialize (Himp eq_refl) |].
      cbn [singleSpaced]. rewrite isSpace_SPACE, N.eqb_refl. cbn [andb negb].
      by apply IH.
  - cbn [singleSpaced]. rewrite Hc. by apply IH.
Qed.

Lemma trimStart_singleSpaced (atStart : bool) (text : list N) :
  singleSpaced atStart text = true → singleSpaced true (trimStart text) = true.
Proof.
  revert atStart. induction text as [| c rest IH]; intros atStart; [done |].
  cbn [trimStart]. destruct (isSpace c) eqn:Hc.
  - cbn [singleSpaced]. rewrite Hc. intros [_ Hrest]%andb_true_iff.
    by apply (IH true).
  - cbn [singleSpaced]. by rewrite Hc.
Qed.

Lemma trimEnd_singleSpaced (atStart : bool) (text : list N) :
  singleSpaced atStart text = true → singleSpaced atStart (trimEnd text) = true.
Proof.
  revert atStart. induction text as [| c rest IH]; intros atStart; [done |].
  cbn [trimEnd singleSpaced].
  destruct (isSpace c) eqn:Hc.
  - intros [Hhead Hrest]%andb_true_iff. specialize (IH _ Hrest).
    destruct (trimEnd rest) as [| c' rest']; [done |].
    cbn [singleSpaced] in IH |- *. rewrite Hc, Hhead. done.
  - intros Hrest. specialize (IH _ Hrest).
    destruct (trimEnd rest) as [| c' rest'].
    + cbn [singleSpaced]. by rewrite Hc.
    + cbn [singleSpaced] in IH |- *. by rewrite Hc.
Qed.

Lemma trimEnd_endsWithSpace (text : list N) :
  endsWithSpace (trimEnd text) = false.
Proof.
  unfold endsWithSpace.
  induction text as [| c rest IH]; [done |].
  cbn [trimEnd]. destruct (trimEnd rest) as [| c' rest'].
  - destruct (isSpace c) eqn:Hc; [done |]. cbn [last]. done.
  - done.
Qed.

(** *** The normal form is left as it is *)

Lemma replaceBreaks_singleSpaced (atStart : bool) (text : list N) :
  singleSpaced atStart text = true → replaceBreaks text = text.
Proof.
  unfold replaceBreaks. revert atStart.
  induction text as [| c rest IH]; intros atStart; [done |].
  cbn [singleSpaced]. rewrite fmap_cons.
  destruct (isBreak c) eqn:Hbreak.
  - rewrite (isBreak_isSpace c Hbreak).
    intros [[Hc%N.eqb_eq _]%andb_true_iff Hrest]%andb_true_iff.
    by rewrite Hc in Hbreak.
  - destruct (isSpace c).
    + intros [_ Hrest]%andb_true_iff. by rewrite (IH _ Hrest).
    + intros Hrest. by rewrite (IH _ Hrest).
Qed.

Lemma collapseSpaces_from_singleSpaced_id (inRun : bool) (text : list N) :
  singleSpaced inRun text = true → collapseSpaces_from inRun text = text.
Proof.
  revert inRun. induction text as [| c rest IH]; intros inRun; [done |].
  cbn [singleSpaced collapseSpaces_from].
  destruct (isSpace c).
  - intros [[Hc%N.eqb_eq Hstart%negb_true_iff]%andb_true_iff Hrest]%andb_true_iff.
    rewrite Hstart, Hc. by rewrite (IH _ Hrest).
  - intros Hrest. by rewrite (IH _ Hrest).
Qed.

Lemma trimStart_singleSpaced_id (text : list N) :
  singleSpaced true text = true → trimStart text = text.
Proof.
  destruct text as [| c rest]; [done |].
  cbn [singleSpaced trimStart]. destruct (isSpace c); [| done].
  by rewrite andb_false_r.
Qed.

Lemma trimEnd_id (text : list N) :
  endsWithSpace text = false → trimEnd text = text.
Proof.
  unfold endsWithSpace.
  induction text as [| c rest IH]; [done |].
  cbn [trimEnd]. destruct rest as [| c' rest'].
  - cbn [trimEnd last]. by intros ->.
  - intros Hlast. rewrite IH; done.
Qed.

Lemma normalizeText_tidy (text : option (list N)) :
  tidy (normalizeText text) = true.
Proof.
  unfold tidy, normalizeText, trim.
  rewrite trimEnd_endsWithSpace, andb_true_r.
  apply trimEnd_singleSpaced.
  apply (trimStart_singleSpaced false).
  by apply collapseSpaces_from_singleSpaced.
Qed.

End FlavorText.

(** [normalizeText]: in the result every white-space character is a lone
    U+0020 between two other characters; the characters that are not white
    space are those of the argument, in their order; and a text of that
    form is returned as it is, so a second pass changes nothing. *)
Theorem normalizeText_normal_form (text : option FetchPokemon.Text) :
  tidy (FetchPokemon.normalizeText text) = true
  ∧ filter (λ c, FetchPokemon.isSpace c = false) (FetchPokemon.normalizeText text)
    = filter (λ c, FetchPokemon.isSpace c = false) (default [] text)
  ∧ (∀ t, tidy t = true → FetchPokemon.normalizeText (Some t) = t)
  ∧ FetchPokemon.normalizeText (Some (FetchPokemon.normalizeText text))
    = FetchPokemon.normalizeText text.
Proof.
  pose proof normalizeText_tidy as Htidy.
  assert (∀ t, tidy t = true → FetchPokemon.normalizeText (Some t) = t) as Hid.
  { intros t [Hspaced Hend%negb_true_iff]%andb_true_iff.
    unfold FetchPokemon.normalizeText, FetchPokemon.trim,
      FetchPokemon.collapseSpaces.
    change (default [] (Some t)) with t.
    rewrite (replaceBreaks_singleSpaced true t Hspaced).
    rewrite (collapseSpaces_from_singleSpaced_id false t)
      by by apply singleSpaced_weaken.
    rewrite (trimStart_singleSpaced_id t Hspaced).
    by apply trimEnd_id. }
  split; [apply Htidy |]. split; [| split; [apply Hid |]].
  - unfold FetchPokemon.normalizeText, FetchPokemon.trim,
      FetchPokemon.collapseSpaces, FetchPokemon.Text.
    rewrite trimEnd_content, trimStart_content,
      collapseSpaces_from_content, replaceBreaks_content.
    done.
  - apply Hid, Htidy.
Qed.

(** A form feed between two words, with blanks around the text. *)
Example normalizeText_example :
  FetchPokemon.normalizeText (Some [32; 72; 105; 12; 10; 116; 111; 160; 9]%N)
  = [72; 105; 32; 116; 111]%N
  ∧ FetchPokemon.normalizeText None = [].
Proof. by vm_compute. Qed.

(** [pickEnglishFlavor]: the text is that of the last English entry,
    normalised; without an English entry it is empty.  In both cases it
    is in the normal form of [normalizeText]. *)
Theorem pickEnglishFlavor_last_english (entries : list FetchPokemon.FlavorEntry) :
  ((∀ entry, entry ∈ entries → FetchPokemon.isEnglish entry = false) →
     FetchPokemon.pickEnglishFlavor entries = [])
  ∧ (∀ before entry after,
       entries = before ++ entry :: after →
       FetchPokemon.isEnglish entry = true →
       (∀ other, other ∈ after → FetchPokemon.isEnglish other = false) →
       FetchPokemon.pickEnglishFlavor entries
       = FetchPokemon.normalizeText (FetchPokemon.flavor_text entry))
  ∧ tidy (FetchPokemon.pickEnglishFlavor entries) = true.
Proof.
  assert (∀ l : list FetchPokemon.FlavorEntry,
            (∀ e, e ∈ l → FetchPokemon.isEnglish e = false) →
            filter (λ e, FetchPokemon.isEnglish e = true) l = []) as Hnone.
  { induction l as [| e l IH]; intros Hl; [done |].
    rewrite filter_cons, decide_False.
    - apply IH. intros e' He'. apply Hl. by right.
    - rewrite (Hl e); [done | by left]. }
  unfold FetchPokemon.pickEnglishFlavor.
  split; [| split].
  - intros Hall. by rewrite (Hnone entries Hall).
  - intros before entry after -> Henglish Hafter.
    rewrite filter_app, filter_cons, decide_True by done.
    rewrite (Hnone after Hafter).
    by rewrite last_snoc.
  - destruct (last _) as [entry |]; [| done].
    apply normalizeText_tidy.
Qed.

(* ================================================================== *)
(** * The creatures of the dataset *)
(* ================================================================== *)

Section DatasetEntry.
Import FetchPokemon.

Lemma initialStats_lookup (key : string) :
  initialStats !! key = if bool_decide (key ∈ STAT_KEYS) then Some 0 else None.
Proof.
  case_bool_decide as Hkey.
  - unfold STAT_KEYS in Hkey. rewrite elem_of_list_to_set in Hkey.
    rewrite !elem_of_cons, elem_of_nil in Hkey.
    destruct Hkey as [-> | [-> | [-> | [-> | [-> | [-> | []]]]]]];
      by vm_compute.
  - unfold initialStats. apply not_elem_of_list_to_map_1.
    intros Hin. apply Hkey. unfold STAT_KEYS.
    rewrite elem_of_list_to_set. exact Hin.
Qed.

Lemma recordStat_loop (stats : gmap string Z) (entries : list StatEntry)
    (key : string) :
  foldl recordStat stats entries !! key
  = match last (filter (λ entry, stat_name entry = Some key) entries) with
    | Some entry =>
        if bool_decide (key ∈ STAT_KEYS) then Some (base_stat entry)
        else stats !! key
    | None => stats !! key
    end.
Proof.
  induction entries as [| entry entries IH] using rev_ind; [done |].
  rewrite foldl_app, filter_app. cbn [foldl].
  rewrite filter_cons, filter_nil.
  unfold recordStat at 1.
  destruct (decide (stat_name entry = Some key)) as [Hname | Hname].
  - rewrite last_snoc, Hname.
    case_bool_decide; [by rewrite lookup_insert_eq |].
    rewrite IH. destruct (last _); done.
  - rewrite app_nil_r, <- IH.
    destruct (stat_name entry) as [key' |]; [| done].
    destruct (bool_decide (key' ∈ STAT_KEYS)); [| done].
    rewrite lookup_insert_ne; [done |]. by intros ->.
Qed.

End DatasetEntry.

(** [normalizePokemon]: the stats have exactly the six keys of
    [STAT_KEYS]; the value at a key is the [base_stat] of the last element
    of [data.stats] with that name, and 0 without one; elements with
    another name or none leave no trace.  The moves are the names present
    in [data.moves], in their order, and never the empty name, which is how
    the page reads them. *)
Theorem normalizePokemon_entry (data : FetchPokemon.ApiPokemon)
    (flavorText : FetchPokemon.Text) :
  let entry := FetchPokemon.normalizePokemon data flavorText in
  (∀ key,
     FetchPokemon.ds_stats entry !! key
     = if bool_decide (key ∈ FetchPokemon.STAT_KEYS)
       then Some (default 0
                    (FetchPokemon.base_stat <$>
                       last (filter (λ e, FetchPokemon.stat_name e = Some key)
                               (FetchPokemon.api_stats data))))
       else None)
  ∧ dom (FetchPokemon.ds_stats entry) = FetchPokemon.STAT_KEYS
  ∧ (∀ move, move ∈ FetchPokemon.ds_moves entry
             ↔ move ≠ ""%string ∧ Some move ∈ FetchPokemon.api_moves data)
  ∧ Some <$> FetchPokemon.ds_moves entry
    = filter (λ name, truthyOptString name = true) (FetchPokemon.api_moves data)
  ∧ (∀ mon : Pokemon, moves mon = FetchPokemon.ds_moves entry →
       knowsNoEmptyMove mon).
Proof.
  intros entry.
  assert (∀ key,
     FetchPokemon.ds_stats entry !! key
     = if bool_decide (key ∈ FetchPokemon.STAT_KEYS)
       then Some (default 0
                    (FetchPokemon.base_stat <$>
                       last (filter (λ e, FetchPokemon.stat_name e = Some key)
                               (FetchPokemon.api_stats data))))
       else None) as Hstats.
  { intros key. unfold entry, FetchPokemon.normalizePokemon.
    cbn [FetchPokemon.ds_stats].
    rewrite recordStat_loop, initialStats_lookup.
    destruct (last _); by case_bool_decide. }
  assert (∀ move, move ∈ FetchPokemon.ds_moves entry
             ↔ move ≠ ""%string ∧ Some move ∈ FetchPokemon.api_moves data)
    as Hmoves.
  { intros move. unfold entry, FetchPokemon.normalizePokemon.
    cbn [FetchPokemon.ds_moves]. rewrite list_elem_of_omap. split.
    - intros ([name |] & Hin & Hkeep); [| done].
      destruct name as [| c name]; [done |].
      injection Hkeep as <-. done.
    - intros [Hne Hin]. exists (Some move). split; [done |].
      by destruct move. }
  split; [exact Hstats |]. split; [| split; [exact Hmoves | split]].
  - apply set_eq. intros key. rewrite elem_of_dom, Hstats.
    case_bool_decide; split; try done.
  - unfold entry, FetchPokemon.normalizePokemon. cbn [FetchPokemon.ds_moves].
    clear Hstats Hmoves.
    induction (FetchPokemon.api_moves data) as [| name names IH]; [done |].
    rewrite filter_cons. cbn [omap list_omap].
    destruct (truthyOptString name) eqn:Hname.
    + rewrite decide_True by done. destruct name as [name |]; [| done].
      rewrite fmap_cons. by rewrite <- IH.
    + rewrite decide_False by done. exact IH.
  - intros mon Hmon. unfold knowsNoEmptyMove. rewrite Hmon.
    intros [Hne _]%Hmoves. done.
Qed.
